(** * tstat: the coverage aggregation engine

    A shallow embedding of [newCoverage] and its helpers ([percent],
    [newPackageCoverage], [PackageCoverage.add], [toFunctions], [isLower])
    together with the properties the specification states about them.

    Conventions of the embedding:
    - [int64] values are integers [Z]; additions wrap around as in Go.
      [int] is taken to be 64 bits wide, so [int(x)] of an [int64] is [x].
    - [float64] is Rocq's primitive binary64 type [float]; its operations are
      those of IEEE 754, specified by [SpecFloat].
    - a Go [string] is a sequence of bytes, here [string].
    - a Go [map\[string\]V] is a [gmap string V].  The order in which a
      [range] loop (or [maps.Values]) visits a map is unspecified in Go, so
      every function that iterates over a map takes the order from a
      [MapOrder]; the statements hold for every such order.
    - the packages [gocover] and [gofunc] are given by the fields the code
      reads; [newCoverage] takes the result of [gofunc.ByPackage] as its
      second argument.
    - pointers of the inputs are taken to be non-nil, and the records are
      updated functionally: no two [FileCoverage] pointers alias, each one is
      allocated by [newPackageCoverage].
    - a run-time panic (index out of range) is the result [None]. *)

From Stdlib Require Import ZArith Lia Floats Ascii.
From stdpp Require Import base option list gmap strings.

Set Warnings "-inexact-float".
Local Open Scope Z_scope.

(** ** Machine integers *)

Definition int64_min : Z := - 2 ^ 63.
Definition int64_max : Z := 2 ^ 63 - 1.

Definition is_int64 (z : Z) : Prop := int64_min <= z <= int64_max.

(** Two's complement wrap-around of a 64-bit signed result. *)
Definition wrap64 (z : Z) : Z := (z + 2 ^ 63) mod 2 ^ 64 - 2 ^ 63.

Definition int64_add (a b : Z) : Z := wrap64 (a + b).

(** [int(x)] for an [int64] [x]. *)
Definition int_of_int64 (z : Z) : Z := z.

(** ** Floating point *)

(** [float64(x)] for an [int64] [x]: the nearest binary64 value, ties to
    even.  [of_uint63] converts a 63-bit natural number that way. *)
Definition float_of_int64 (z : Z) : float :=
  if z =? int64_min then (-0x1p63)%float
  else if z <? 0 then (- of_uint63 (Uint63.of_Z (- z)))%float
  else of_uint63 (Uint63.of_Z z).

(** [math.Round] of the Go library, by its documentation: the nearest
    integer, halves away from zero; zeros, infinities and NaN are returned
    unchanged.  A finite [m * 2^e] with [0 <= e] is an integer already. *)
Definition Round (x : float) : float :=
  match Prim2SF x with
  | S754_finite s m e =>
      if 0 <=? e then x
      else
        let d := 2 ^ (- e) in
        let q := Z.pos m / d in
        let r := Z.pos m mod d in
        let n := if d <=? 2 * r then q + 1 else q in
        let a := of_uint63 (Uint63.of_Z n) in
        if s then (- a)%float else a
  | _ => x
  end.

Definition percent (num den : Z) : float :=
  if den =? 0 then 0%float
  else (Round (float_of_int64 num / float_of_int64 den * 1000) / 10)%float.

(** ** The readers' outputs (packages [gocover] and [gofunc]) *)

Module gocover.

Module FileStatements.
Record t := mk {
  Percent : float;
  Stmts : Z;
  CoveredStmts : Z
}.
End FileStatements.

Module PackageStatements.
Record t := mk {
  Package : string;
  Files : gmap string FileStatements.t;
  Stmts : Z;
  CoveredStmts : Z
}.
End PackageStatements.

End gocover.

Module gofunc.

Module Function.
Record t := mk {
  Function : string;
  File : string;
  Line : Z;
  Percent : float
}.
End Function.

Module FileFunctions.
Record t := mk {
  Functions : list Function.t
}.
End FileFunctions.

Module PackageFunctions.
Record t := mk {
  Package : string;
  Files : gmap string FileFunctions.t
}.
End PackageFunctions.

End gofunc.

(** ** The report *)

Module FunctionCoverage.
Record t := mk {
  Name : string;
  Percent : float;
  File : string;
  Line : Z;
  Internal : bool
}.
End FunctionCoverage.

Module FileCoverage.
Record t := mk {
  Name : string;
  Percent : float;
  Functions : list FunctionCoverage.t;
  Stmts : Z;
  CoveredStmts : Z
}.
End FileCoverage.

Module PackageCoverage.
Record t := mk {
  Name : string;
  Files : list FileCoverage.t
}.
End PackageCoverage.

Module Coverage.
Record t := mk {
  Percent : float;
  Packages : list PackageCoverage.t
}.
End Coverage.

(** ** Iteration order of maps *)

(** [range m] is the sequence of entries a loop over [m] visits: every
    entry once, in an order the language does not fix.  The order is a
    function of the map: a map visited twice is visited in the same order
    both times.  Go draws the order anew at every [range] statement; the runs
    in which one map is visited twice in two orders are those of
    [newCoverage_run] below, which takes an order for every visit. *)
Class MapOrder := {
  range : forall {V : Type}, gmap string V -> list (string * V);
  range_perm : forall (V : Type) (m : gmap string V), range m ≡ₚ map_to_list m
}.

(** [maps.Values]. *)
Definition maps_Values `{MapOrder} {V : Type} (m : gmap string V) : list V :=
  (range m).*2.

(** Two concrete orders: by key encoding, and the reverse of it. *)
Program Definition forward_order : MapOrder :=
  {| range := fun V m => map_to_list m |}.
Next Obligation. reflexivity. Qed.

Program Definition backward_order : MapOrder :=
  {| range := fun V m => reverse (map_to_list m) |}.
Next Obligation. intros V m. simpl. apply reverse_Permutation. Qed.

(** ** Function records *)

Definition isLower (c : Ascii.ascii) : bool :=
  let n := Z.of_N (Ascii.N_of_ascii c) in
  (97 <=? n) && (n <=? 122).

(** [s\[0\]]: the first byte, or a panic on the empty string. *)
Definition first_byte (s : string) : option Ascii.ascii :=
  match s with
  | EmptyString => None
  | String c _ => Some c
  end.

Definition toFunction (f : gofunc.Function.t) : option FunctionCoverage.t :=
  c ← first_byte (gofunc.Function.Function f);
  Some {| FunctionCoverage.Name := gofunc.Function.Function f;
          FunctionCoverage.Percent := gofunc.Function.Percent f;
          FunctionCoverage.Internal := isLower c;
          FunctionCoverage.File := gofunc.Function.File f;
          FunctionCoverage.Line := gofunc.Function.Line f |}.

Definition toFunctions (fn : list gofunc.Function.t) : option (list FunctionCoverage.t) :=
  mapM toFunction fn.

(** ** Building and merging *)

Section Aggregation.
Context `{MapOrder}.

Definition newFileCoverage (name : string) (statements : gocover.FileStatements.t)
  : FileCoverage.t :=
  {| FileCoverage.Name := name;
     FileCoverage.Functions := [];
     FileCoverage.Percent := gocover.FileStatements.Percent statements;
     FileCoverage.Stmts := int_of_int64 (gocover.FileStatements.Stmts statements);
     FileCoverage.CoveredStmts :=
       int_of_int64 (gocover.FileStatements.CoveredStmts statements) |}.

Definition newPackageCoverage (stmts : gocover.PackageStatements.t) : PackageCoverage.t :=
  let files :=
    foldl (fun (files : gmap string FileCoverage.t) '(name, statements) =>
             <[name := newFileCoverage name statements]> files)
          ∅ (range (gocover.PackageStatements.Files stmts)) in
  {| PackageCoverage.Name := gocover.PackageStatements.Package stmts;
     PackageCoverage.Files := maps_Values files |}.

(** [f.Functions = fns]. *)
Definition with_functions (f : FileCoverage.t) (fns : list FunctionCoverage.t)
  : FileCoverage.t :=
  {| FileCoverage.Name := FileCoverage.Name f;
     FileCoverage.Percent := FileCoverage.Percent f;
     FileCoverage.Functions := fns;
     FileCoverage.Stmts := FileCoverage.Stmts f;
     FileCoverage.CoveredStmts := FileCoverage.CoveredStmts f |}.

(** The inner loop of [add] for one file group: [Some (Some fs)] when a file
    named [name] was found (its functions are set and [add] returns),
    [Some None] when the scan ends without a match, [None] on a panic. *)
Fixpoint add_scan (name : string) (file : gofunc.FileFunctions.t)
    (fs : list FileCoverage.t) : option (option (list FileCoverage.t)) :=
  match fs with
  | [] => Some None
  | f :: rest =>
      if decide (FileCoverage.Name f = name) then
        fns ← toFunctions (gofunc.FileFunctions.Functions file);
        Some (Some (with_functions f fns :: rest))
      else
        match add_scan name file rest with
        | None => None
        | Some (Some rest') => Some (Some (f :: rest'))
        | Some None => Some None
        end
  end.

(** The outer loop of [add] over the file groups in iteration order. *)
Fixpoint add_groups (groups : list (string * gofunc.FileFunctions.t))
    (fs : list FileCoverage.t) : option (list FileCoverage.t) :=
  match groups with
  | [] => Some fs
  | (name, file) :: groups' =>
      match add_scan name file fs with
      | None => None
      | Some (Some fs') => Some fs'
      | Some None => add_groups groups' fs
      end
  end.

Definition add (pc : PackageCoverage.t) (pkgFn : gofunc.PackageFunctions.t)
  : option PackageCoverage.t :=
  fs ← add_groups (range (gofunc.PackageFunctions.Files pkgFn)) (PackageCoverage.Files pc);
  Some {| PackageCoverage.Name := PackageCoverage.Name pc;
          PackageCoverage.Files := fs |}.

(** The first loop of [newCoverage]: the package map and the two running sums. *)
Definition build_step (st : gmap string PackageCoverage.t * Z * Z)
    (pkg : gocover.PackageStatements.t) : gmap string PackageCoverage.t * Z * Z :=
  let '(packages, covered, total) := st in
  (<[gocover.PackageStatements.Package pkg := newPackageCoverage pkg]> packages,
   int64_add covered (gocover.PackageStatements.CoveredStmts pkg),
   int64_add total (gocover.PackageStatements.Stmts pkg)).

Definition build (coverPkgs : list gocover.PackageStatements.t)
  : gmap string PackageCoverage.t * Z * Z :=
  foldl build_step (∅, 0, 0) coverPkgs.

(** The second loop of [newCoverage]. *)
Definition merge_step (packages : gmap string PackageCoverage.t)
    (pkg : gofunc.PackageFunctions.t) : option (gmap string PackageCoverage.t) :=
  match packages !! gofunc.PackageFunctions.Package pkg with
  | None => Some packages
  | Some pkgCov =>
      pkgCov' ← add pkgCov pkg;
      Some (<[gofunc.PackageFunctions.Package pkg := pkgCov']> packages)
  end.

Fixpoint merge (packages : gmap string PackageCoverage.t)
    (fnPkgs : list gofunc.PackageFunctions.t) : option (gmap string PackageCoverage.t) :=
  match fnPkgs with
  | [] => Some packages
  | pkg :: fnPkgs' =>
      packages' ← merge_step packages pkg;
      merge packages' fnPkgs'
  end.

(** [fnPkgs] is the result of [gofunc.ByPackage(funcProfile)], in the order
    the second loop visits it. *)
Definition newCoverage (coverPkgs : list gocover.PackageStatements.t)
    (fnPkgs : list gofunc.PackageFunctions.t) : option Coverage.t :=
  let '(packages, covered, total) := build coverPkgs in
  packages' ← merge packages fnPkgs;
  Some {| Coverage.Percent := percent covered total;
          Coverage.Packages := maps_Values packages' |}.

End Aggregation.

(** * Vocabulary of the statements *)

(** ** Reports and their parts *)

(** Everything of a file record but its functions. *)
Definition strip (f : FileCoverage.t) : FileCoverage.t :=
  {| FileCoverage.Name := FileCoverage.Name f;
     FileCoverage.Percent := FileCoverage.Percent f;
     FileCoverage.Functions := [];
     FileCoverage.Stmts := FileCoverage.Stmts f;
     FileCoverage.CoveredStmts := FileCoverage.CoveredStmts f |}.

Definition strip_package (pc : PackageCoverage.t) : PackageCoverage.t :=
  {| PackageCoverage.Name := PackageCoverage.Name pc;
     PackageCoverage.Files := strip <$> PackageCoverage.Files pc |}.

(** The file map [newPackageCoverage] fills, independently of any order. *)
Definition file_map (stmts : gocover.PackageStatements.t) : gmap string FileCoverage.t :=
  map_imap (fun name statements => Some (newFileCoverage name statements))
           (gocover.PackageStatements.Files stmts).

(** Every function record of [pkgFn] has a non-empty name. *)
Definition names_ok (pkgFn : gofunc.PackageFunctions.t) : Prop :=
  forall name file, gofunc.PackageFunctions.Files pkgFn !! name = Some file ->
    Forall (fun f => gofunc.Function.Function f <> "") (gofunc.FileFunctions.Functions file).

(** What [add] does with the groups in the order [groups]: nothing when no
    group names a file of the package; otherwise the first group that does
    sets the functions of that file, and no later group is looked at. *)
Inductive add_outcome (groups : list (string * gofunc.FileFunctions.t))
    (fs : list FileCoverage.t) : option (list FileCoverage.t) -> Prop :=
  | add_untouched :
      (forall name file, (name, file) ∈ groups -> name ∉ FileCoverage.Name <$> fs) ->
      add_outcome groups fs (Some fs)
  | add_first (before after : list (string * gofunc.FileFunctions.t))
      (name : string) (file : gofunc.FileFunctions.t) (i : nat) (f : FileCoverage.t) :
      groups = before ++ (name, file) :: after ->
      (forall name' file', (name', file') ∈ before -> name' ∉ FileCoverage.Name <$> fs) ->
      fs !! i = Some f ->
      FileCoverage.Name f = name ->
      (forall j g, (j < i)%nat -> fs !! j = Some g -> FileCoverage.Name g <> name) ->
      add_outcome groups fs
        (fns ← toFunctions (gofunc.FileFunctions.Functions file);
         Some (<[i := with_functions f fns]> fs)).

(** ** Sums and lookups by name *)

(** The [int64] sum of a sequence, accumulated from the left as the loop does. *)
Definition sum64 (l : list Z) : Z := foldl int64_add 0 l.

(** The mathematical sum. *)
Definition sumZ (l : list Z) : Z := foldr Z.add 0 l.

(** The last statement-side package called [k]: a later assignment to
    [packages\[k\]] overwrites an earlier one. *)
Definition last_named (k : string) (coverPkgs : list gocover.PackageStatements.t)
  : option gocover.PackageStatements.t :=
  last (filter (fun s => gocover.PackageStatements.Package s = k) coverPkgs).

(** The function-side packages called [k], in the order of the merge loop. *)
Definition named (k : string) (fnPkgs : list gofunc.PackageFunctions.t)
  : list gofunc.PackageFunctions.t :=
  filter (fun p => gofunc.PackageFunctions.Package p = k) fnPkgs.

Section Merged.
Context `{MapOrder}.

(** [add] applied for each package of [l] in turn, every call under the one
    order of the section; [add_run] below lets every call take its own. *)
Fixpoint add_all (pc : PackageCoverage.t) (l : list gofunc.PackageFunctions.t)
  : option PackageCoverage.t :=
  match l with
  | [] => Some pc
  | p :: l' => pc' ← add pc p; add_all pc' l'
  end.

End Merged.

(** ** Runs that draw a new order at every [range] *)

(** Go fixes no order for a [range] over a map, and two [range] statements
    over the same map may visit it in two orders.  In the runs below every
    call of [newPackageCoverage], every call of [add] and the final
    [maps.Values] take an order of their own, so that a function-side package
    merged twice may be ranged differently the second time. *)

(** The first loop, from the state [st]. *)
Inductive build_run :
    gmap string PackageCoverage.t * Z * Z -> list gocover.PackageStatements.t ->
    gmap string PackageCoverage.t * Z * Z -> Prop :=
  | build_run_nil st : build_run st [] st
  | build_run_cons (order : MapOrder) st pkg coverPkgs st' :
      build_run (@build_step order st pkg) coverPkgs st' ->
      build_run st (pkg :: coverPkgs) st'.

(** The second loop; [None] is a panic. *)
Inductive merge_run :
    gmap string PackageCoverage.t -> list gofunc.PackageFunctions.t ->
    option (gmap string PackageCoverage.t) -> Prop :=
  | merge_run_nil packages : merge_run packages [] (Some packages)
  | merge_run_cons (order : MapOrder) packages pkg fnPkgs packages' r :
      @merge_step order packages pkg = Some packages' ->
      merge_run packages' fnPkgs r ->
      merge_run packages (pkg :: fnPkgs) r
  | merge_run_panic (order : MapOrder) packages pkg fnPkgs :
      @merge_step order packages pkg = None ->
      merge_run packages (pkg :: fnPkgs) None.

(** The runs of [newCoverage]. *)
Inductive newCoverage_run (coverPkgs : list gocover.PackageStatements.t)
    (fnPkgs : list gofunc.PackageFunctions.t) : option Coverage.t -> Prop :=
  | run_report (order : MapOrder) st packages' :
      build_run (∅, 0, 0) coverPkgs st ->
      merge_run st.1.1 fnPkgs (Some packages') ->
      newCoverage_run coverPkgs fnPkgs
        (Some {| Coverage.Percent := percent st.1.2 st.2;
                 Coverage.Packages := @maps_Values order _ packages' |})
  | run_panic st :
      build_run (∅, 0, 0) coverPkgs st ->
      merge_run st.1.1 fnPkgs None ->
      newCoverage_run coverPkgs fnPkgs None.

(** [add] applied for each package of the list in turn, each time under an
    order of its own. *)
Inductive add_run :
    PackageCoverage.t -> list gofunc.PackageFunctions.t -> PackageCoverage.t -> Prop :=
  | add_run_nil pc : add_run pc [] pc
  | add_run_cons (order : MapOrder) pc p pc1 l pc' :
      @add order pc p = Some pc1 -> add_run pc1 l pc' -> add_run pc (p :: l) pc'.

(** Every function percentage of the package satisfies [P]. *)
Definition functions_in (P : float -> Prop) (pc : PackageCoverage.t) : Prop :=
  forall f g, f ∈ PackageCoverage.Files pc -> g ∈ FileCoverage.Functions f ->
    P (FunctionCoverage.Percent g).

(** ** Rounding to binary64 *)

(** [N / D] rounded to the nearest integer, ties to the even one. *)
Definition rne (N D : Z) : Z :=
  match 2 * (N mod D) ?= D with
  | Lt => N / D
  | Gt => N / D + 1
  | Eq => if Z.even (N / D) then N / D else N / D + 1
  end.

(** The record [mrs] holds the quotient of [N] by [D], whether the remainder
    is at least a half ([shr_r]) and whether anything is left beyond that
    half ([shr_s]). *)
Definition shr_rep (N D : Z) (mrs : shr_record) : Prop :=
  shr_m mrs = N / D
  /\ shr_r mrs = (D <=? 2 * (N mod D))
  /\ shr_s mrs = negb ((N mod D =? 0) || (2 * (N mod D) =? D)).

(** The last step of [binary_round_aux], after the mantissa is rounded. *)
Definition finish (s : bool) (m e : Z) : spec_float :=
  let '(mrs, e') := shr_fexp prec emax m e loc_Exact in
  match shr_m mrs with
  | Z0 => S754_zero s
  | Zpos m' => if e' <=? emax - prec then S754_finite s m' e' else S754_infinity s
  | Zneg _ => S754_nan
  end.

(** The integer [float64(c)] stands for: [c] rounded to 53 significant bits. *)
Definition round53 (c : Z) : Z :=
  let n := Z.max (Zdigits2 c - 53) 0 in
  rne c (2 ^ n) * 2 ^ n.

(** ** Percentages *)

(** [k] tenths of a percent: the binary64 value nearest to [k / 10]. *)
Definition tenths (k : Z) : float := (float_of_int64 k / 10)%float.

(** A percentage with one decimal place: one of 0.0, 0.1, ..., 100.0. *)
Definition one_decimal (p : float) : Prop :=
  exists k, 0 <= k <= 1000 /\ p = tenths k.

(** A finite value between 0 and 100. *)
Definition in_range (p : float) : bool :=
  is_finite p && (0 <=? p)%float && (p <=? 100)%float.

(** What is stated of a percentage of the report. *)
Definition pct_ok (p : float) : Prop := one_decimal p /\ in_range p = true.

(** The statement-side input as the claim takes it: counts are [int64]
    values, covered counts are between 0 and the total, percentages have one
    decimal place. *)
Definition statements_ok (coverPkgs : list gocover.PackageStatements.t) : Prop :=
  forall s, s ∈ coverPkgs ->
    is_int64 (gocover.PackageStatements.Stmts s)
    /\ 0 <= gocover.PackageStatements.CoveredStmts s <= gocover.PackageStatements.Stmts s
    /\ forall name st, gocover.PackageStatements.Files s !! name = Some st ->
         one_decimal (gocover.FileStatements.Percent st)
         /\ is_int64 (gocover.FileStatements.Stmts st)
         /\ 0 <= gocover.FileStatements.CoveredStmts st <= gocover.FileStatements.Stmts st.

(** The function-side input: percentages have one decimal place. *)
Definition functions_ok (fnPkgs : list gofunc.PackageFunctions.t) : Prop :=
  forall p name file f,
    p ∈ fnPkgs -> gofunc.PackageFunctions.Files p !! name = Some file ->
    f ∈ gofunc.FileFunctions.Functions file ->
    one_decimal (gofunc.Function.Percent f).

(** Every percentage of the report tree: overall, per file, per function. *)
Definition report_ok (c : Coverage.t) : Prop :=
  pct_ok (Coverage.Percent c)
  /\ forall pc f, pc ∈ Coverage.Packages c -> f ∈ PackageCoverage.Files pc ->
       pct_ok (FileCoverage.Percent f)
       /\ forall g, g ∈ FileCoverage.Functions f -> pct_ok (FunctionCoverage.Percent g).

(** The claim as the specification states it, with no bound on the sums. *)
Definition percentages_claim : Prop :=
  forall (order : MapOrder) coverPkgs fnPkgs c,
    statements_ok coverPkgs -> functions_ok fnPkgs ->
    newCoverage coverPkgs fnPkgs = Some c -> report_ok c.

(** ** The formula of the overall percentage *)

(** The binary64 value nearest to the integer [z], whatever its size. *)
Definition float_of_Z (z : Z) : float := SF2Prim (binary_normalize prec emax z 0 false).

(** [round(num / den × 1000) / 10] as the specification writes it, on two
    integers of any size, and 0.0 for a zero denominator. *)
Definition round_percent (num den : Z) : float :=
  if den =? 0 then 0%float
  else (Round (float_of_Z num / float_of_Z den * 1000) / 10)%float.

(** Package-level counts as the code can receive them: [int64] values, the
    covered count between 0 and the total. *)
Definition counts_ok (coverPkgs : list gocover.PackageStatements.t) : Prop :=
  forall s, s ∈ coverPkgs ->
    is_int64 (gocover.PackageStatements.Stmts s)
    /\ 0 <= gocover.PackageStatements.CoveredStmts s <= gocover.PackageStatements.Stmts s.

(** The claim as the specification states it: the formula on the sums of the
    counts, for every statement-side input. *)
Definition totals_claim : Prop :=
  forall (order : MapOrder) coverPkgs fnPkgs c,
    counts_ok coverPkgs ->
    newCoverage coverPkgs fnPkgs = Some c ->
    Coverage.Percent c
    = round_percent (sumZ (gocover.PackageStatements.CoveredStmts <$> coverPkgs))
                    (sumZ (gocover.PackageStatements.Stmts <$> coverPkgs)).

(** ** Sample inputs *)

Definition stmt (pc : float) (n c : Z) : gocover.FileStatements.t :=
  gocover.FileStatements.mk pc n c.

Definition fn (name file : string) (line : Z) (pc : float) : gofunc.Function.t :=
  gofunc.Function.mk name file line pc.

Definition group (l : list gofunc.Function.t) : gofunc.FileFunctions.t :=
  gofunc.FileFunctions.mk l.

(** Package P with the files x.go and y.go, and a function group for each. *)
Definition pkgP : gocover.PackageStatements.t :=
  gocover.PackageStatements.mk "P"
    (<["x.go" := stmt 50 4 2]> (<["y.go" := stmt 100 2 2]> ∅)) 6 4.

Definition fnP : gofunc.PackageFunctions.t :=
  gofunc.PackageFunctions.mk "P"
    (<["x.go" := group [fn "Do" "x.go" 3 50]]>
       (<["y.go" := group [fn "do" "y.go" 7 100]]> ∅)).

(** The names of the files of a report that hold functions. *)
Definition files_with_functions (c : Coverage.t) : list string :=
  pc ← Coverage.Packages c;
  FileCoverage.Name <$>
    filter (fun f => FileCoverage.Functions f <> []) (PackageCoverage.Files pc).

(** Statement packages [{A, B}] and function packages [{B, C}]. *)
Definition pkgA : gocover.PackageStatements.t :=
  gocover.PackageStatements.mk "A" (<["a.go" := stmt 80 10 8]> ∅) 10 8.

Definition pkgB : gocover.PackageStatements.t :=
  gocover.PackageStatements.mk "B" (<["b.go" := stmt 0 5 0]> ∅) 5 0.

Definition fnB : gofunc.PackageFunctions.t :=
  gofunc.PackageFunctions.mk "B" (<["b.go" := group [fn "run" "b.go" 4 0]]> ∅).

Definition fnC : gofunc.PackageFunctions.t :=
  gofunc.PackageFunctions.mk "C" (<["c.go" := group [fn "Main" "c.go" 1 100]]> ∅).

(** The report of [{A, B}] with the function data of [{B, C}], under the
    forward order. *)
Definition reportAB : Coverage.t :=
  Eval vm_compute in
    default (Coverage.mk 0 []) (@newCoverage forward_order [pkgA; pkgB] [fnB; fnC]).

(** Two packages of 2^62 statements each, the first fully covered. *)
Definition hugeA : gocover.PackageStatements.t :=
  gocover.PackageStatements.mk "A" (<["a.go" := stmt 100 (2 ^ 62) (2 ^ 62)]> ∅)
    (2 ^ 62) (2 ^ 62).

Definition hugeB : gocover.PackageStatements.t :=
  gocover.PackageStatements.mk "B" (<["b.go" := stmt 0 (2 ^ 62) 0]> ∅) (2 ^ 62) 0.

(** Their report. *)
Definition hugeReport : Coverage.t :=
  Eval vm_compute in
    default (Coverage.mk 0 []) (@newCoverage forward_order [hugeA; hugeB] []).

(** Package P merged twice with its function data, the groups being ranged
    forwards the first time and backwards the second. *)
Definition reportPP : Coverage.t :=
  Eval vm_compute in
    let st := @build_step forward_order (∅, 0, 0) pkgP in
    let packages1 := default st.1.1 (@merge_step forward_order st.1.1 fnP) in
    let packages2 := default packages1 (@merge_step backward_order packages1 fnP) in
    {| Coverage.Percent := percent st.1.2 st.2;
       Coverage.Packages := @maps_Values forward_order _ packages2 |}.

(** * The rest of the package

    [PackageCoverage.Functions] of the aggregation engine, and the entry
    points of the package ([Cover], [CoverFromReaders], [Tests],
    [TestsFromReader]) with the parsers they configure.  The entry points
    read files, run the [go] tool and consume readers: these calls take the
    state of the outside world and return the next one, so that what a
    function did not call shows in the state it returns.  A Go result
    [(T, error)] is a sum; [Coverage{}] beside a non-nil error is left out. *)

(** ** The functions of a package *)

(** [PackageCoverage.Functions]: the functions of every file, appended in
    the order of [pc.Files]. *)
Definition PackageCoverage_Functions (pc : PackageCoverage.t) : list FunctionCoverage.t :=
  foldl (fun funcs f => funcs ++ FileCoverage.Functions f) [] (PackageCoverage.Files pc).

(** ** Errors *)

(** The errors this code meets: an error that wraps nothing ([errors.New],
    or an error of a parser or of the operating system), the error of a
    command that ran and failed ([*exec.ExitError], with what the command
    wrote to its standard error), and [fmt.Errorf] with one [%w] verb
    between a text before and a text after. *)
Inductive error : Type :=
  | errors_New (msg : string)
  | ExitError (msg : string) (Stderr : string)
  | fmt_Errorf (before : string) (err : error) (after : string).

(** [err.Error()]. *)
Fixpoint Error (err : error) : string :=
  match err with
  | errors_New msg => msg
  | ExitError msg _ => msg
  | fmt_Errorf before err' after => before +:+ Error err' +:+ after
  end.

(** [errors.Unwrap]. *)
Definition errors_Unwrap (err : error) : option error :=
  match err with
  | fmt_Errorf _ err' _ => Some err'
  | _ => None
  end.

(** [errors.As(err, &ee)] for [ee] of type [*exec.ExitError]: the first exit
    error on the chain of [err], here by its [Stderr]. *)
Fixpoint errors_As_ExitError (err : error) : option string :=
  match err with
  | errors_New _ => None
  | ExitError _ Stderr => Some Stderr
  | fmt_Errorf _ err' _ => errors_As_ExitError err'
  end.

(** [target] is on the chain of [err] (what [errors.Is] decides). *)
Inductive on_chain (target : error) : error -> Prop :=
  | on_chain_here : on_chain target target
  | on_chain_wrapped before err after :
      on_chain target err -> on_chain target (fmt_Errorf before err after).

Definition handleExecError (err : error) : error :=
  match errors_As_ExitError err with
  | Some Stderr =>
      if decide (0 < String.length Stderr)%nat
      then fmt_Errorf "" err (", stderr " +:+ Stderr)
      else err
  | None => err
  end.

(** ** The entry points *)

(** What a Go function with the results [(T, error)] returns, or a panic. *)
Inductive outcome (T : Type) : Type :=
  | Ok (v : T)
  | Err (err : error)
  | Panic.
Arguments Ok {T} v.
Arguments Err {T} err.
Arguments Panic {T}.

(** What this code calls and does not define: the operating system, the
    [go] tool, and the readers of the packages [cover], [gocover], [gofunc]
    and [gotest].  A call that reads a file, runs a command or consumes a
    reader takes the state of the world and returns the next one.  [Reader]
    is a non-nil [io.Reader]; [None] is the nil interface.  Each call is
    taken to return, with a value or an error: a call that panics or does not
    return is outside of what is stated here. *)
Class Outside := {
  World : Type;
  Reader : Type;
  Profiles : Type;
  FuncOutput : Type;
  Events : Type;
  TestRun : Type;
  os_ReadFile : string -> World -> World * (error + string);
  cmd_Output : string -> list string -> World -> World * (error + string);
  runtime_GOROOT : string;
  filepath_Join : string -> string -> string;
  filepath_Clean : string -> string;
  bytes_NewBuffer : string -> Reader;
  cover_ParseProfilesFromReader : option Reader -> World -> World * (error + Profiles);
  gocover_ByPackage : Profiles -> list gocover.PackageStatements.t;
  gofunc_Read : option Reader -> World -> World * (error + FuncOutput);
  gofunc_ByPackage : FuncOutput -> list gofunc.PackageFunctions.t;
  gotest_ReadJSON : option Reader -> World -> World * (error + Events);
  parseTestOutputs : Events -> error + TestRun
}.

Section EntryPoints.
Context `{MapOrder} `{Outside}.

Record CoverageParser := {
  trimModule : string;
  coverParser : option Reader -> World -> World * (error + list gocover.PackageStatements.t);
  funcParser : option Reader -> World -> World * (error + FuncOutput)
}.

(** A functional option: it updates the parser it is applied to. *)
Definition CoverOpt : Type := CoverageParser -> CoverageParser.

Definition NewCoverageParser (opts : list CoverOpt) : CoverageParser :=
  let parser :=
    {| trimModule := "";
       coverParser := fun r w =>
         let '(w', res) := cover_ParseProfilesFromReader r w in
         match res with
         | inl err => (w', inl (fmt_Errorf "couldn't parse cover profile: " err ""))
         | inr profs => (w', inr (gocover_ByPackage profs))
         end;
       funcParser := gofunc_Read |} in
  foldl (fun parser opt => opt parser) parser opts.

Definition WithRootModule (module : string) : CoverOpt :=
  fun cp => {| trimModule := filepath_Clean module;
               coverParser := coverParser cp;
               funcParser := funcParser cp |}.

(** [CoverageParser.Stats]. *)
Definition CoverageParser_Stats (p : CoverageParser) (coverProfile fnProfile : option Reader)
    (w : World) : World * outcome Coverage.t :=
  let '(w1, res1) := coverParser p coverProfile w in
  match res1 with
  | inl err => (w1, Err (fmt_Errorf "couldn't parse cover profile: " err ""))
  | inr profiles =>
      let '(w2, res2) := funcParser p fnProfile w1 in
      match res2 with
      | inl err => (w2, Err (fmt_Errorf "couldn't parse func profile: " err ""))
      | inr output =>
          match newCoverage profiles (gofunc_ByPackage output) with
          | Some coverage => (w2, Ok coverage)
          | None => (w2, Panic)
          end
      end
  end.

Definition CoverFromReaders (coverProfile fnProfile : option Reader) (opts : list CoverOpt)
    (w : World) : World * outcome Coverage.t :=
  match coverProfile with
  | None => (w, Err (errors_New "cover profile must not be nil"))
  | Some _ =>
      match fnProfile with
      | None => (w, Err (errors_New "function profile must not be nil"))
      | Some _ => CoverageParser_Stats (NewCoverageParser opts) coverProfile fnProfile w
      end
  end.

Definition runFuncCover (profile : string) (w : World) : World * (error + string) :=
  let goTool := filepath_Join runtime_GOROOT "bin/go" in
  let '(w', res) := cmd_Output goTool ["tool"; "cover"; "-func=" +:+ profile] w in
  match res with
  | inl err =>
      (w', inl (fmt_Errorf "couldn't get function coverage: " (handleExecError err) ""))
  | inr fnProfile => (w', inr fnProfile)
  end.

Definition Cover (coverProfile : string) (opts : list CoverOpt) (w : World)
  : World * outcome Coverage.t :=
  let '(w1, res1) := os_ReadFile coverProfile w in
  match res1 with
  | inl err => (w1, Err (fmt_Errorf "error reading coverage profile: " err ""))
  | inr covOut =>
      let '(w2, res2) := runFuncCover coverProfile w1 in
      match res2 with
      | inl err => (w2, Err err)
      | inr fnOut =>
          CoverageParser_Stats (NewCoverageParser opts)
            (Some (bytes_NewBuffer covOut)) (Some (bytes_NewBuffer fnOut)) w2
      end
  end.

Record TestParser := {
  testParser : option Reader -> World -> World * (error + Events)
}.

Definition NewTestParser : TestParser := {| testParser := gotest_ReadJSON |}.

(** [TestParser.Stats]. *)
Definition TestParser_Stats (p : TestParser) (outJSON : option Reader) (w : World)
  : World * (error + TestRun) :=
  let '(w', res) := testParser p outJSON w in
  match res with
  | inl err => (w', inl err)
  | inr out => (w', parseTestOutputs out)
  end.

Definition TestsFromReader (outJSON : option Reader) (w : World) : World * (error + TestRun) :=
  TestParser_Stats NewTestParser outJSON w.

Definition Tests (outFile : string) (w : World) : World * (error + TestRun) :=
  let '(w', res) := os_ReadFile outFile w in
  match res with
  | inl err => (w', inl (fmt_Errorf "couldn't read file: " err ""))
  | inr b => TestParser_Stats NewTestParser (Some (bytes_NewBuffer b)) w'
  end.

End EntryPoints.

(** ** A sample outside world *)

(** A function-side package [B] whose only record has no name. *)
Definition fnNameless : gofunc.PackageFunctions.t :=
  gofunc.PackageFunctions.mk "B" (<["b.go" := group [fn "" "b.go" 1 0]]> ∅).

(** The state is the journal of the calls made so far.  Two files exist:
    [cover.out], a profile of the packages [{A, B}] for which the tool lists
    the functions of [{B, C}], and [broken.out], which no parser accepts and
    on which the tool exits with a message on its standard error.  The
    function parser also knows a profile with a nameless function. *)
Definition journal_outside : Outside := {|
  World := list string;
  Reader := string;
  Profiles := list gocover.PackageStatements.t;
  FuncOutput := list gofunc.PackageFunctions.t;
  Events := list string;
  TestRun := nat;
  os_ReadFile name w :=
    (w ++ ["os.ReadFile " +:+ name],
     if decide (name = "cover.out") then inr "mode: set"
     else if decide (name = "broken.out") then inr "garbage"
     else inl (errors_New ("open " +:+ name +:+ ": no such file or directory")));
  cmd_Output tool args w :=
    (w ++ [tool],
     if decide (args = ["tool"; "cover"; "-func=cover.out"]) then inr "total:"
     else inl (ExitError "exit status 1" "cover: bad mode line"));
  runtime_GOROOT := "/usr/local/go";
  filepath_Join dir name := dir +:+ "/" +:+ name;
  filepath_Clean path := path;
  bytes_NewBuffer b := b;
  cover_ParseProfilesFromReader r w :=
    (w ++ ["cover.ParseProfilesFromReader"],
     if decide (r = Some "mode: set") then inr [pkgA; pkgB]
     else inl (errors_New "bad mode line"));
  gocover_ByPackage profs := profs;
  gofunc_Read r w :=
    (w ++ ["gofunc.Read"],
     if decide (r = Some "total:") then inr [fnB; fnC]
     else if decide (r = Some "nameless") then inr [fnNameless]
     else inl (errors_New "no total line"));
  gofunc_ByPackage output := output;
  gotest_ReadJSON r w :=
    (w ++ ["gotest.ReadJSON"],
     match r with
     | Some "garbage" => inl (errors_New "invalid character 'g'")
     | Some b => inr [b]
     | None => inl (errors_New "nil reader")
     end);
  parseTestOutputs out := inr (length out)
|}.

(** ** A table check *)

(** Every element of the list is at most itself and every later one. *)
Fixpoint ordered (l : list float) : bool :=
  match l with
  | [] => true
  | x :: l' => forallb (fun y => (x <=? y)%float) (x :: l') && ordered l'
  end.

(** * Properties *)

(** ** Iteration order *)

Section OrderFacts.
Context `{MapOrder}.

Lemma range_lookup {V : Type} (m : gmap string V) (k : string) (v : V) :
  (k, v) ∈ range m <-> m !! k = Some v.
Proof. rewrite (range_perm V m). apply elem_of_map_to_list. Qed.

Lemma range_NoDup_keys {V : Type} (m : gmap string V) : NoDup (range m).*1.
Proof. rewrite (range_perm V m). apply NoDup_fst_map_to_list. Qed.

Lemma range_singleton {V : Type} (k : string) (v : V) :
  range ({[k := v]} : gmap string V) = [(k, v)].
Proof.
  apply Permutation_singleton_r. rewrite (range_perm V _).
  by rewrite map_to_list_singleton.
Qed.

Lemma maps_Values_elem {V : Type} (m : gmap string V) (v : V) :
  v ∈ maps_Values m <-> exists k, m !! k = Some v.
Proof.
  unfold maps_Values. rewrite list_elem_of_fmap. split.
  - intros [[k v'] [-> Hin]]. exists k. by apply range_lookup.
  - intros [k Hk]. exists (k, v). split; [done|]. by apply range_lookup.
Qed.

End OrderFacts.

(** ** The build phase *)

Section BuildFacts.
Context `{MapOrder}.

Lemma fill_lookup (l : list (string * gocover.FileStatements.t))
    (acc : gmap string FileCoverage.t) (k : string) :
  NoDup l.*1 ->
  foldl (fun (files : gmap string FileCoverage.t) '(name, statements) =>
           <[name := newFileCoverage name statements]> files) acc l !! k
  = match (list_to_map l : gmap string _) !! k with
    | Some st => Some (newFileCoverage k st)
    | None => acc !! k
    end.
Proof.
  revert acc. induction l as [|[n st] l IH]; intros acc Hnd; simpl.
  - by rewrite lookup_empty.
  - apply NoDup_cons in Hnd as [Hn Hnd]. rewrite IH by done.
    destruct (decide (n = k)) as [->|Hne].
    + rewrite lookup_insert_eq.
      rewrite (not_elem_of_list_to_map_1 (M := gmap string) l k Hn).
      by rewrite lookup_insert_eq.
    + by rewrite !lookup_insert_ne by done.
Qed.

Lemma fill_range (stmts : gocover.PackageStatements.t) :
  foldl (fun (files : gmap string FileCoverage.t) '(name, statements) =>
           <[name := newFileCoverage name statements]> files)
        ∅ (range (gocover.PackageStatements.Files stmts))
  = file_map stmts.
Proof.
  apply map_eq. intros k. rewrite fill_lookup by apply range_NoDup_keys.
  unfold file_map. rewrite map_lookup_imap.
  assert (list_to_map (range (gocover.PackageStatements.Files stmts))
          = gocover.PackageStatements.Files stmts) as ->.
  { rewrite (list_to_map_proper (M := gmap string) _ _ (range_NoDup_keys _)
               (range_perm _ _)).
    apply list_to_map_to_list. }
  destruct (gocover.PackageStatements.Files stmts !! k); simpl; [done|].
  by rewrite lookup_empty.
Qed.

Lemma newPackageCoverage_eq stmts :
  newPackageCoverage stmts
  = {| PackageCoverage.Name := gocover.PackageStatements.Package stmts;
       PackageCoverage.Files := maps_Values (file_map stmts) |}.
Proof. unfold newPackageCoverage. by rewrite fill_range. Qed.

Lemma file_map_lookup stmts k f :
  file_map stmts !! k = Some f <->
  exists st, gocover.PackageStatements.Files stmts !! k = Some st
             /\ f = newFileCoverage k st.
Proof.
  unfold file_map. rewrite map_lookup_imap.
  destruct (gocover.PackageStatements.Files stmts !! k) as [st|]; simpl.
  - split; [intros [= <-]; eauto | intros (st' & [= <-] & ->); done].
  - split; [done | intros (? & ? & _); done].
Qed.

Lemma newPackageCoverage_file stmts f :
  f ∈ PackageCoverage.Files (newPackageCoverage stmts) <->
  exists st, gocover.PackageStatements.Files stmts !! FileCoverage.Name f = Some st
             /\ f = newFileCoverage (FileCoverage.Name f) st.
Proof.
  rewrite newPackageCoverage_eq. simpl. rewrite maps_Values_elem. split.
  - intros [k Hk]. apply file_map_lookup in Hk as (st & Hst & ->). simpl. eauto.
  - intros (st & Hst & Hf). exists (FileCoverage.Name f).
    apply file_map_lookup. eauto.
Qed.

Lemma newPackageCoverage_no_functions stmts f :
  f ∈ PackageCoverage.Files (newPackageCoverage stmts) -> FileCoverage.Functions f = [].
Proof. intros (st & _ & ->)%newPackageCoverage_file. reflexivity. Qed.

Lemma newPackageCoverage_strip stmts :
  strip_package (newPackageCoverage stmts) = newPackageCoverage stmts.
Proof.
  unfold strip_package. rewrite newPackageCoverage_eq. simpl. f_equal.
  rewrite <- (list_fmap_id (maps_Values (file_map stmts))) at 2.
  apply Forall_fmap_ext_1, Forall_forall.
  intros f Hf. change (f ∈ PackageCoverage.Files
    {| PackageCoverage.Name := gocover.PackageStatements.Package stmts;
       PackageCoverage.Files := maps_Values (file_map stmts) |}) in Hf.
  rewrite <- newPackageCoverage_eq in Hf.
  apply newPackageCoverage_file in Hf as (st & _ & ->). reflexivity.
Qed.

Lemma newPackageCoverage_names stmts :
  FileCoverage.Name <$> PackageCoverage.Files (newPackageCoverage stmts)
  = (range (file_map stmts)).*1.
Proof.
  rewrite newPackageCoverage_eq. simpl. unfold maps_Values.
  rewrite <- list_fmap_compose. apply Forall_fmap_ext_1, Forall_forall.
  intros [k f] Hin. apply range_lookup, file_map_lookup in Hin as (st & _ & ->).
  reflexivity.
Qed.

Lemma newPackageCoverage_NoDup stmts :
  NoDup (FileCoverage.Name <$> PackageCoverage.Files (newPackageCoverage stmts)).
Proof. rewrite newPackageCoverage_names. apply range_NoDup_keys. Qed.

End BuildFacts.

(** ** Function record conversion *)

Lemma toFunction_Some f :
  gofunc.Function.Function f <> "" -> is_Some (toFunction f).
Proof.
  unfold toFunction. destruct (gofunc.Function.Function f); [done|]. simpl. eauto.
Qed.

Lemma toFunctions_Some (l : list gofunc.Function.t) :
  Forall (fun f => gofunc.Function.Function f <> "") l -> is_Some (toFunctions l).
Proof.
  intros Hl. apply mapM_is_Some. eapply Forall_impl; [exact Hl|].
  intros f Hf. by apply toFunction_Some.
Qed.

(** ** The merge of one package: [add] *)

Section AddFacts.
Context `{MapOrder}.

Lemma strip_with_functions f fns : strip (with_functions f fns) = strip f.
Proof. reflexivity. Qed.

Lemma add_scan_no_match name file fs :
  name ∉ FileCoverage.Name <$> fs -> add_scan name file fs = Some None.
Proof.
  induction fs as [|f fs IH]; simpl; [done|]. intros Hn.
  apply not_elem_of_cons in Hn as [Hne Hn].
  destruct (decide (FileCoverage.Name f = name)) as [Heq|_]; [by subst|].
  by rewrite IH.
Qed.

Lemma add_scan_match name file fs :
  name ∈ FileCoverage.Name <$> fs ->
  exists i f,
    fs !! i = Some f /\ FileCoverage.Name f = name
    /\ (forall j g, (j < i)%nat -> fs !! j = Some g -> FileCoverage.Name g <> name)
    /\ add_scan name file fs
       = (fns ← toFunctions (gofunc.FileFunctions.Functions file);
          Some (Some (<[i := with_functions f fns]> fs))).
Proof.
  induction fs as [|f fs IH]; simpl; [by intros ?%elem_of_nil|]. intros Hin.
  destruct (decide (FileCoverage.Name f = name)) as [Heq|Hne].
  - exists 0%nat, f. split_and!; [done|done|intros; lia|done].
  - apply elem_of_cons in Hin as [Heq|Hin]; [by subst|].
    destruct (IH Hin) as (i & g & Hi & Hg & Hfirst & ->).
    exists (S i), g. split_and!; [done|done| |].
    + intros [|j] g' Hj Hg'; simpl in Hg'; [by simplify_eq|].
      apply (Hfirst j g'); [lia|done].
    + by destruct (toFunctions (gofunc.FileFunctions.Functions file)).
Qed.

Lemma add_groups_outcome groups fs : add_outcome groups fs (add_groups groups fs).
Proof.
  induction groups as [|[name file] groups IH]; simpl.
  - apply add_untouched. by intros ?? ?%elem_of_nil.
  - destruct (decide (name ∈ FileCoverage.Name <$> fs)) as [Hin|Hnin].
    + destruct (add_scan_match name file fs Hin) as (i & f & Hi & Hf & Hfirst & ->).
      replace (match _ with None => None | Some (Some fs') => Some fs'
                            | Some None => add_groups groups fs end)
        with (fns ← toFunctions (gofunc.FileFunctions.Functions file);
              Some (<[i := with_functions f fns]> fs))
        by (by destruct (toFunctions (gofunc.FileFunctions.Functions file))).
      apply (add_first _ _ [] groups name file i f); try done.
      by intros ?? ?%elem_of_nil.
    + rewrite add_scan_no_match by done.
      destruct IH as [Hall | before after name' file' i f -> Hbefore Hi Hf Hfirst].
      * apply add_untouched. intros n g [[= -> ->]|Hin]%elem_of_cons; eauto.
      * apply (add_first _ _ ((name, file) :: before) after name' file' i f); try done.
        intros n g [[= -> ->]|Hin]%elem_of_cons; eauto.
Qed.

Lemma add_groups_strip groups fs fs' :
  add_groups groups fs = Some fs' -> strip <$> fs' = strip <$> fs.
Proof.
  intros Heq. destruct (add_groups_outcome groups fs)
    as [_ | before after name file i f _ _ Hi _ _]; [by simplify_eq|].
  destruct (toFunctions _) as [fns|]; simpl in Heq; [|done]. simplify_eq.
  rewrite list_fmap_insert, strip_with_functions.
  apply list_insert_id. by rewrite list_lookup_fmap, Hi.
Qed.

Lemma add_strip pc pkgFn pc' :
  add pc pkgFn = Some pc' -> strip_package pc' = strip_package pc.
Proof.
  unfold add. intros Heq.
  destruct (add_groups _ _) as [fs|] eqn:Hfs; simpl in Heq; [|done]. simplify_eq.
  unfold strip_package. simpl. f_equal. by eapply add_groups_strip.
Qed.

(** At most one file of the package differs afterwards, and its functions
    are the converted records of one file group of [pkgFn]. *)
Lemma add_one_file pc pkgFn pc' :
  add pc pkgFn = Some pc' ->
  PackageCoverage.Files pc' = PackageCoverage.Files pc
  \/ exists i f name file fns,
       PackageCoverage.Files pc !! i = Some f
       /\ gofunc.PackageFunctions.Files pkgFn !! name = Some file
       /\ toFunctions (gofunc.FileFunctions.Functions file) = Some fns
       /\ PackageCoverage.Files pc' = <[i := with_functions f fns]> (PackageCoverage.Files pc).
Proof.
  unfold add. intros Heq.
  destruct (add_groups _ _) as [fs|] eqn:Hfs; simpl in Heq; [|done]. simplify_eq.
  simpl. destruct (add_groups_outcome (range (gofunc.PackageFunctions.Files pkgFn))
                     (PackageCoverage.Files pc))
    as [_ | before after name file i f Hgroups _ Hi _ _]; [left; by simplify_eq|].
  destruct (toFunctions _) as [fns|] eqn:Hfns; simpl in Hfs; [|done]. simplify_eq.
  right. exists i, f, name, file, fns. split_and!; try done.
  apply range_lookup. rewrite Hgroups. apply elem_of_app. right. apply elem_of_cons. by left.
Qed.

Lemma add_total pc pkgFn : names_ok pkgFn -> is_Some (add pc pkgFn).
Proof.
  intros Hok. unfold add.
  destruct (add_groups_outcome (range (gofunc.PackageFunctions.Files pkgFn))
              (PackageCoverage.Files pc))
    as [_ | before after name file i f Hgroups _ _ _ _]; [simpl; eauto|].
  destruct (toFunctions_Some (gofunc.FileFunctions.Functions file)) as [fns ->].
  - apply (Hok name). apply range_lookup. rewrite Hgroups.
    apply elem_of_app. right. apply elem_of_cons. by left.
  - simpl. eauto.
Qed.

End AddFacts.

(** ** The two loops of [newCoverage] *)

Lemma wrap64_id z : is_int64 z -> wrap64 z = z.
Proof.
  unfold is_int64, int64_min, int64_max, wrap64. intros Hz.
  rewrite Z.mod_small; lia.
Qed.

Lemma wrap64_add_l a b : wrap64 (wrap64 a + b) = wrap64 (a + b).
Proof.
  unfold wrap64. f_equal.
  replace ((a + 2 ^ 63) mod 2 ^ 64 - 2 ^ 63 + b + 2 ^ 63)
    with ((a + 2 ^ 63) mod 2 ^ 64 + b) by lia.
  rewrite Zplus_mod_idemp_l. f_equal. lia.
Qed.

Lemma sum64_snoc l z : sum64 (l ++ [z]) = int64_add (sum64 l) z.
Proof. unfold sum64. by rewrite foldl_snoc. Qed.

Lemma sumZ_snoc l z : sumZ (l ++ [z]) = sumZ l + z.
Proof. unfold sumZ. induction l as [|a l IH]; simpl; [lia|]. rewrite IH. lia. Qed.

Lemma sum64_wrap l : sum64 l = wrap64 (sumZ l).
Proof.
  induction l as [|z l IH] using rev_ind; [reflexivity|].
  rewrite sum64_snoc, sumZ_snoc, IH. unfold int64_add. apply wrap64_add_l.
Qed.

Lemma sum64_exact l : is_int64 (sumZ l) -> sum64 l = sumZ l.
Proof. intros Hl. rewrite sum64_wrap. by apply wrap64_id. Qed.

Section LoopFacts.
Context `{MapOrder}.

Lemma build_snoc coverPkgs pkg :
  build (coverPkgs ++ [pkg]) = build_step (build coverPkgs) pkg.
Proof. unfold build. by rewrite foldl_snoc. Qed.

Lemma build_covered coverPkgs :
  (build coverPkgs).1.2 = sum64 (gocover.PackageStatements.CoveredStmts <$> coverPkgs).
Proof.
  induction coverPkgs as [|pkg l IH] using rev_ind; [reflexivity|].
  rewrite build_snoc, fmap_app.
  change (?f <$> [pkg]) with [f pkg]. rewrite sum64_snoc.
  destruct (build l) as [[m c] t]. simpl in *. by rewrite IH.
Qed.

Lemma build_total coverPkgs :
  (build coverPkgs).2 = sum64 (gocover.PackageStatements.Stmts <$> coverPkgs).
Proof.
  induction coverPkgs as [|pkg l IH] using rev_ind; [reflexivity|].
  rewrite build_snoc, fmap_app.
  change (?f <$> [pkg]) with [f pkg]. rewrite sum64_snoc.
  destruct (build l) as [[m c] t]. simpl in *. by rewrite IH.
Qed.

Lemma build_packages coverPkgs k :
  (build coverPkgs).1.1 !! k = newPackageCoverage <$> last_named k coverPkgs.
Proof.
  unfold last_named.
  induction coverPkgs as [|pkg l IH] using rev_ind; [apply lookup_empty|].
  rewrite build_snoc, filter_app.
  destruct (build l) as [[m c] t]. simpl in *.
  destruct (decide (gocover.PackageStatements.Package pkg = k)) as [<-|Hne].
  - rewrite lookup_insert_eq.
    rewrite filter_cons_True by done. rewrite filter_nil. by rewrite last_snoc.
  - rewrite lookup_insert_ne by done.
    rewrite filter_cons_False by done. rewrite filter_nil, app_nil_r. exact IH.
Qed.

Lemma last_named_Some k coverPkgs s :
  last_named k coverPkgs = Some s ->
  s ∈ coverPkgs /\ gocover.PackageStatements.Package s = k.
Proof.
  unfold last_named. intros Hl.
  assert (s ∈ filter (fun s => gocover.PackageStatements.Package s = k) coverPkgs) as Hin.
  { apply last_Some in Hl as [l' ->]. apply elem_of_app. right. by apply list_elem_of_singleton. }
  by apply list_elem_of_filter in Hin as [? ?].
Qed.

Lemma last_named_None k coverPkgs :
  last_named k coverPkgs = None <->
  k ∉ gocover.PackageStatements.Package <$> coverPkgs.
Proof.
  unfold last_named. rewrite last_None. split.
  - intros Hnil (s & -> & Hs)%list_elem_of_fmap.
    assert (s ∈ filter (fun s' => gocover.PackageStatements.Package s'
                                  = gocover.PackageStatements.Package s) coverPkgs) as Hin
      by (by apply list_elem_of_filter).
    rewrite Hnil in Hin. by apply elem_of_nil in Hin.
  - intros Hn. induction coverPkgs as [|s l IH]; [done|].
    rewrite fmap_cons in Hn. apply not_elem_of_cons in Hn as [Hne Hn].
    rewrite filter_cons_False by done. by apply IH.
Qed.

End LoopFacts.

(** ** The merge loop *)

Section MergeFacts.
Context `{MapOrder}.

Lemma merge_step_lookup m p m' k :
  merge_step m p = Some m' ->
  m' !! k = if decide (gofunc.PackageFunctions.Package p = k)
            then m !! k ≫= fun pc => add pc p
            else m !! k.
Proof.
  unfold merge_step. intros Hstep.
  destruct (m !! gofunc.PackageFunctions.Package p) as [pc|] eqn:Hpc.
  - destruct (add pc p) as [pc'|] eqn:Hadd; simpl in Hstep; [|done]. simplify_eq.
    destruct (decide _) as [<-|Hne].
    + by rewrite lookup_insert_eq, Hpc.
    + by rewrite lookup_insert_ne.
  - simplify_eq. destruct (decide _) as [<-|Hne]; [|done]. by rewrite Hpc.
Qed.

Lemma merge_step_None m p :
  merge_step m p = None <->
  exists pc, m !! gofunc.PackageFunctions.Package p = Some pc /\ add pc p = None.
Proof.
  unfold merge_step. destruct (m !! gofunc.PackageFunctions.Package p) as [pc|].
  - destruct (add pc p) eqn:Hadd; simpl.
    + split; [done|]. intros (? & [= <-] & ?). congruence.
    + split; [eauto|done].
  - split; [done|]. by intros (? & ? & _).
Qed.

(** The merge loop locates its target by the package name, and touches no
    other entry of the map. *)
Lemma merge_lookup fnPkgs m m' k :
  merge m fnPkgs = Some m' ->
  m' !! k = m !! k ≫= fun pc => add_all pc (named k fnPkgs).
Proof.
  unfold named. revert m. induction fnPkgs as [|p l IH]; intros m Hm; simpl in Hm.
  - injection Hm as <-. rewrite filter_nil. simpl. by destruct (m !! k).
  - destruct (merge_step m p) as [m1|] eqn:Hstep; simpl in Hm; [|done].
    rewrite (IH m1 Hm), (merge_step_lookup m p m1 k Hstep).
    destruct (decide (gofunc.PackageFunctions.Package p = k)) as [Heq|Hne].
    + rewrite filter_cons_True by done. simpl.
      destruct (m !! k) as [pc|]; simpl; [|done]. by destruct (add pc p).
    + by rewrite filter_cons_False by done.
Qed.

Lemma merge_app m l1 l2 :
  merge m (l1 ++ l2) = merge m l1 ≫= fun m1 => merge m1 l2.
Proof.
  revert m. induction l1 as [|p l1 IH]; intros m; simpl; [done|].
  destruct (merge_step m p) as [m1|]; simpl; [apply IH|done].
Qed.

Lemma merge_total m fnPkgs :
  Forall names_ok fnPkgs -> is_Some (merge m fnPkgs).
Proof.
  intros Hok. revert m. induction Hok as [|p l Hp _ IH]; intros m; simpl; [eauto|].
  destruct (merge_step m p) as [m1|] eqn:Hstep; simpl; [apply IH|].
  apply merge_step_None in Hstep as (pc & _ & Hadd).
  destruct (add_total pc p Hp) as [? ?]. congruence.
Qed.

Lemma add_all_strip pc l pc' :
  add_all pc l = Some pc' -> strip_package pc' = strip_package pc.
Proof.
  revert pc. induction l as [|p l IH]; intros pc Hall; simpl in Hall; [by simplify_eq|].
  destruct (add pc p) as [pc1|] eqn:Hadd; simpl in Hall; [|done].
  rewrite (IH pc1 Hall). by eapply add_strip.
Qed.

Lemma newCoverage_unfold coverPkgs fnPkgs :
  newCoverage coverPkgs fnPkgs
  = (packages' ← merge (build coverPkgs).1.1 fnPkgs;
     Some {| Coverage.Percent :=
               percent (sum64 (gocover.PackageStatements.CoveredStmts <$> coverPkgs))
                       (sum64 (gocover.PackageStatements.Stmts <$> coverPkgs));
             Coverage.Packages := maps_Values packages' |}).
Proof.
  unfold newCoverage. rewrite <- build_covered, <- build_total.
  by destruct (build coverPkgs) as [[m c] t].
Qed.

Lemma newCoverage_Some coverPkgs fnPkgs c :
  newCoverage coverPkgs fnPkgs = Some c ->
  exists packages',
    merge (build coverPkgs).1.1 fnPkgs = Some packages'
    /\ Coverage.Percent c
       = percent (sum64 (gocover.PackageStatements.CoveredStmts <$> coverPkgs))
                 (sum64 (gocover.PackageStatements.Stmts <$> coverPkgs))
    /\ Coverage.Packages c = maps_Values packages'.
Proof.
  rewrite newCoverage_unfold. intros Hc.
  destruct (merge _ _) as [m'|]; simpl in Hc; [|done]. simplify_eq. eauto.
Qed.

(** Every package of the report: built from the last statement-side package
    of that name, then merged with the function-side packages of that name. *)
Lemma newCoverage_package coverPkgs fnPkgs c pc :
  newCoverage coverPkgs fnPkgs = Some c ->
  pc ∈ Coverage.Packages c <->
  exists s, last_named (PackageCoverage.Name pc) coverPkgs = Some s
            /\ add_all (newPackageCoverage s) (named (PackageCoverage.Name pc) fnPkgs)
               = Some pc.
Proof.
  intros (m' & Hm & _ & ->)%newCoverage_Some. rewrite maps_Values_elem.
  assert (forall k, m' !! k = Some pc -> PackageCoverage.Name pc = k) as Hkey.
  { intros k Hk. rewrite (merge_lookup _ _ _ k Hm), build_packages in Hk.
    destruct (last_named k coverPkgs) as [s|] eqn:Hs; simpl in Hk; [|done].
    apply add_all_strip in Hk. injection Hk as Hk _. rewrite Hk.
    by apply last_named_Some in Hs as [_ ?]. }
  split.
  - intros [k Hk]. pose proof (Hkey k Hk) as <-.
    rewrite (merge_lookup _ _ _ _ Hm), build_packages in Hk.
    destruct (last_named _ coverPkgs) as [s|]; simpl in Hk; [eauto|done].
  - intros (s & Hs & Hall). exists (PackageCoverage.Name pc).
    by rewrite (merge_lookup _ _ _ _ Hm), build_packages, Hs.
Qed.

Lemma newCoverage_NoDup coverPkgs fnPkgs c :
  newCoverage coverPkgs fnPkgs = Some c ->
  NoDup (PackageCoverage.Name <$> Coverage.Packages c).
Proof.
  intros Hc. destruct (newCoverage_Some _ _ _ Hc) as (m' & Hm & _ & HP).
  rewrite HP. unfold maps_Values. rewrite <- list_fmap_compose.
  replace (PackageCoverage.Name ∘ snd <$> range m') with (range m').*1;
    [apply range_NoDup_keys|].
  apply Forall_fmap_ext_1, Forall_forall. intros [k pc] Hin. simpl.
  assert (pc ∈ Coverage.Packages c) as Hpc.
  { rewrite HP. apply maps_Values_elem. exists k. by apply range_lookup. }
  apply range_lookup in Hin.
  rewrite (merge_lookup _ _ _ k Hm), build_packages in Hin.
  destruct (last_named k coverPkgs) as [s|] eqn:Hs; simpl in Hin; [|done].
  apply add_all_strip in Hin. injection Hin as Hin _. rewrite Hin.
  by apply last_named_Some in Hs as [_ ?].
Qed.

Lemma newCoverage_total coverPkgs fnPkgs :
  Forall names_ok fnPkgs -> is_Some (newCoverage coverPkgs fnPkgs).
Proof.
  intros Hok. rewrite newCoverage_unfold.
  destruct (merge_total (build coverPkgs).1.1 fnPkgs Hok) as [m' ->]. simpl. eauto.
Qed.

(** Where the statistics of a file of the report come from. *)
Lemma newCoverage_file_stats coverPkgs fnPkgs c pc f :
  newCoverage coverPkgs fnPkgs = Some c ->
  pc ∈ Coverage.Packages c -> f ∈ PackageCoverage.Files pc ->
  exists s st,
    last_named (PackageCoverage.Name pc) coverPkgs = Some s
    /\ gocover.PackageStatements.Files s !! FileCoverage.Name f = Some st
    /\ FileCoverage.Percent f = gocover.FileStatements.Percent st
    /\ FileCoverage.Stmts f = gocover.FileStatements.Stmts st
    /\ FileCoverage.CoveredStmts f = gocover.FileStatements.CoveredStmts st.
Proof.
  intros Hc (s & Hs & Hall)%(newCoverage_package _ _ _ _ Hc) Hf.
  pose proof (add_all_strip _ _ _ Hall) as Hstrip.
  rewrite newPackageCoverage_strip in Hstrip.
  assert (strip f ∈ PackageCoverage.Files (newPackageCoverage s)) as Hsf.
  { rewrite <- Hstrip. simpl. by apply list_elem_of_fmap_2. }
  apply newPackageCoverage_file in Hsf as (st & Hst & Heq).
  exists s, st. simpl in *. split_and!; [done|done|..].
  - by apply (f_equal FileCoverage.Percent) in Heq.
  - by apply (f_equal FileCoverage.Stmts) in Heq.
  - by apply (f_equal FileCoverage.CoveredStmts) in Heq.
Qed.

Lemma build_lookup_None coverPkgs k :
  k ∉ gocover.PackageStatements.Package <$> coverPkgs ->
  (build coverPkgs).1.1 !! k = None.
Proof.
  intros Hk. rewrite build_packages.
  by rewrite (proj2 (last_named_None k coverPkgs) Hk).
Qed.

Lemma named_nil k (fnPkgs : list gofunc.PackageFunctions.t) :
  k ∉ gofunc.PackageFunctions.Package <$> fnPkgs -> named k fnPkgs = [].
Proof.
  unfold named. induction fnPkgs as [|q l IH]; intros Hk; [done|].
  rewrite fmap_cons in Hk. apply not_elem_of_cons in Hk as [Hne Hk].
  rewrite filter_cons_False by done. by apply IH.
Qed.

Lemma merge_skip m p :
  m !! gofunc.PackageFunctions.Package p = None -> merge_step m p = Some m.
Proof. unfold merge_step. by intros ->. Qed.

Lemma merge_step_dom m p m' k :
  merge_step m p = Some m' -> is_Some (m !! k) -> is_Some (m' !! k).
Proof.
  intros Hstep Hk. rewrite (merge_step_lookup _ _ _ k Hstep).
  destruct (decide _) as [<-|]; [|done].
  unfold merge_step in Hstep. destruct Hk as [pc Hpc]. rewrite Hpc in *. simpl.
  destruct (add pc p); [eauto|done].
Qed.

Lemma merge_dom fnPkgs m m' k :
  merge m fnPkgs = Some m' -> is_Some (m !! k) -> is_Some (m' !! k).
Proof.
  revert m. induction fnPkgs as [|p l IH]; intros m Hm Hk; simpl in Hm.
  - by injection Hm as <-.
  - destruct (merge_step m p) as [m1|] eqn:Hstep; simpl in Hm; [|done].
    eapply IH; [done|]. by eapply merge_step_dom.
Qed.

End MergeFacts.

(** ** Rounding to binary64 *)

Lemma digits2_pos_bounds (p : positive) :
  2 ^ (Z.pos (digits2_pos p) - 1) <= Z.pos p < 2 ^ Z.pos (digits2_pos p).
Proof.
  induction p as [p IH|p IH|]; simpl digits2_pos.
  - rewrite Pos2Z.inj_succ, (Pos2Z.inj_xI p).
    replace (Z.succ (Z.pos (digits2_pos p)) - 1) with (Z.succ (Z.pos (digits2_pos p) - 1)) by lia.
    rewrite !Z.pow_succ_r by lia. lia.
  - rewrite Pos2Z.inj_succ, (Pos2Z.inj_xO p).
    replace (Z.succ (Z.pos (digits2_pos p)) - 1) with (Z.succ (Z.pos (digits2_pos p) - 1)) by lia.
    rewrite !Z.pow_succ_r by lia. lia.
  - simpl. lia.
Qed.

Lemma Zdigits2_bounds (m : Z) :
  0 < m -> 2 ^ (Zdigits2 m - 1) <= m < 2 ^ Zdigits2 m.
Proof. destruct m as [|p|p]; try lia. intros _. apply digits2_pos_bounds. Qed.

Lemma Zdigits2_pos (m : Z) : 0 < m -> 0 < Zdigits2 m.
Proof. destruct m; simpl; lia. Qed.

(** The number of digits is fixed by a bracketing of powers of two. *)
Lemma Zdigits2_unique (m d : Z) :
  2 ^ (d - 1) <= m < 2 ^ d -> 0 < d -> Zdigits2 m = d.
Proof.
  intros [Hlo Hhi] Hd.
  assert (0 < m) as Hm by (pose proof (Z.pow_pos_nonneg 2 (d - 1)); lia).
  destruct (Zdigits2_bounds m Hm) as [Hlo' Hhi']. pose proof (Zdigits2_pos m Hm) as Hd'.
  destruct (Z.lt_trichotomy (Zdigits2 m) d) as [Hlt|[Heq|Hgt]]; [|done|].
  - assert (2 ^ Zdigits2 m <= 2 ^ (d - 1)) by (apply Z.pow_le_mono_r; lia). lia.
  - assert (2 ^ d <= 2 ^ (Zdigits2 m - 1)) by (apply Z.pow_le_mono_r; lia). lia.
Qed.

Lemma shr_1_rep (N D : Z) (mrs : shr_record) :
  0 <= N -> 0 < D -> shr_rep N D mrs -> shr_rep N (2 * D) (shr_1 mrs).
Proof.
  intros HN HD (Hm & Hr & Hs).
  assert (0 <= N / D) as Hq by (apply Z.div_pos; lia).
  assert (0 <= N mod D < D) as Hrem by (apply Z.mod_pos_bound; lia).
  assert (N / (2 * D) = N / D / 2) as Hdiv.
  { rewrite (Z.mul_comm 2 D). symmetry. apply Z.div_div; lia. }
  assert (N mod (2 * D) = N mod D + D * ((N / D) mod 2)) as Hmod.
  { rewrite (Z.mul_comm 2 D). apply Z.rem_mul_r; lia. }
  destruct mrs as [m r s]. simpl in Hm, Hr, Hs.
  unfold shr_rep. rewrite Hdiv, Hmod. clear Hdiv Hmod.
  revert Hm Hr Hs Hq Hrem. generalize (N / D) (N mod D). intros q rho Hm Hr Hs Hq Hrem.
  assert (r || s = negb (rho =? 0)) as Hrs.
  { rewrite Hr, Hs. destruct (Z.leb_spec D (2 * rho));
      destruct (Z.eqb_spec rho 0); destruct (Z.eqb_spec (2 * rho) D);
      simpl; try reflexivity; lia. }
  assert (q mod 2 = 0 \/ q mod 2 = 1) as Hpar by (Z.div_mod_to_equations; lia).
  assert (q = 2 * (q / 2) + q mod 2) as Hq2 by (Z.div_mod_to_equations; lia).
  subst q.
  destruct m as [|[p|p|]|p]; try lia;
    simpl shr_1; cbn [shr_m shr_r shr_s]; rewrite Hrs.
  - (* zero *)
    change (0 / 2) with 0. change (0 mod 2) with 0.
    split_and!; [done|symmetry; apply Z.leb_gt; lia|].
    destruct (Z.eqb_spec rho 0); destruct (Z.eqb_spec (rho + D * 0) 0);
      destruct (Z.eqb_spec (2 * (rho + D * 0)) (2 * D)); simpl; try reflexivity; lia.
  - (* odd, at least 3 *)
    rewrite (Pos2Z.inj_xI p) in *.
    assert ((2 * Z.pos p + 1) / 2 = Z.pos p) as -> by (Z.div_mod_to_equations; lia).
    assert ((2 * Z.pos p + 1) mod 2 = 1) as -> by (Z.div_mod_to_equations; lia).
    split_and!; [done|symmetry; apply Z.leb_le; lia|].
    destruct (Z.eqb_spec rho 0); destruct (Z.eqb_spec (rho + D * 1) 0);
      destruct (Z.eqb_spec (2 * (rho + D * 1)) (2 * D)); simpl; try reflexivity; lia.
  - (* even, at least 2 *)
    rewrite (Pos2Z.inj_xO p) in *.
    assert ((2 * Z.pos p) / 2 = Z.pos p) as -> by (Z.div_mod_to_equations; lia).
    assert ((2 * Z.pos p) mod 2 = 0) as -> by (Z.div_mod_to_equations; lia).
    split_and!; [done|symmetry; apply Z.leb_gt; lia|].
    destruct (Z.eqb_spec rho 0); destruct (Z.eqb_spec (rho + D * 0) 0);
      destruct (Z.eqb_spec (2 * (rho + D * 0)) (2 * D)); simpl; try reflexivity; lia.
  - (* one *)
    change (1 / 2) with 0. change (1 mod 2) with 1.
    split_and!; [done|symmetry; apply Z.leb_le; lia|].
    destruct (Z.eqb_spec rho 0); destruct (Z.eqb_spec (rho + D * 1) 0);
      destruct (Z.eqb_spec (2 * (rho + D * 1)) (2 * D)); simpl; try reflexivity; lia.
Qed.

Lemma iter_shr_1_rep (p : positive) : forall (N D : Z) (mrs : shr_record),
  0 <= N -> 0 < D -> shr_rep N D mrs ->
  shr_rep N (D * 2 ^ Z.pos p) (SpecFloat.iter_pos shr_1 p mrs).
Proof.
  induction p as [p IH|p IH|]; intros N D mrs HN HD Hrep; simpl SpecFloat.iter_pos.
  - replace (D * 2 ^ Z.pos p~1) with (2 * D * 2 ^ Z.pos p * 2 ^ Z.pos p).
    + apply IH; [done| |apply IH; [done|lia|by apply shr_1_rep]].
      pose proof (Z.pow_pos_nonneg 2 (Z.pos p)). nia.
    + rewrite (Pos2Z.inj_xI p), Z.pow_add_r, Z.pow_mul_r, Z.pow_2_r by lia.
      rewrite Z.pow_mul_l. change (2 ^ 1) with 2. nia.
  - replace (D * 2 ^ Z.pos p~0) with (D * 2 ^ Z.pos p * 2 ^ Z.pos p).
    + apply IH; [done| |by apply IH].
      pose proof (Z.pow_pos_nonneg 2 (Z.pos p)). nia.
    + rewrite (Pos2Z.inj_xO p), Z.pow_mul_r, Z.pow_2_r by lia.
      rewrite Z.pow_mul_l. nia.
  - change (2 ^ 1) with 2. rewrite Z.mul_comm. by apply shr_1_rep.
Qed.

Lemma shr_rep_exact (m : Z) : shr_rep m 1 (shr_record_of_loc m loc_Exact).
Proof.
  unfold shr_rep. simpl. rewrite Z.div_1_r, Z.mod_1_r. done.
Qed.

Lemma shr_rep_shift (m e n N D : Z) (l : location) :
  0 <= N -> 0 < D -> 0 <= n ->
  shr_rep N D (shr_record_of_loc m l) ->
  shr_rep N (D * 2 ^ n) (shr (shr_record_of_loc m l) e n).1
  /\ (shr (shr_record_of_loc m l) e n).2 = e + n.
Proof.
  intros HN HD Hn Hrep. unfold shr. destruct n as [|p|p]; try lia; simpl.
  - rewrite Z.mul_1_r. split; [done|lia].
  - split; [|done]. by apply iter_shr_1_rep.
Qed.

Lemma round_nearest_even_rne (N D : Z) (mrs : shr_record) :
  0 <= N -> 0 < D -> shr_rep N D mrs ->
  round_nearest_even (shr_m mrs) (loc_of_shr_record mrs) = rne N D.
Proof.
  intros HN HD (Hm & Hr & Hs). destruct mrs as [m r s]. simpl in *. subst m.
  assert (0 <= N mod D < D) as Hrem by (apply Z.mod_pos_bound; lia).
  unfold rne. revert Hr Hs Hrem. generalize (N / D) (N mod D). intros q rho Hr Hs Hrem.
  destruct (Z.compare_spec (2 * rho) D) as [Heq|Hlt|Hgt].
  - assert (r = true) as -> by (rewrite Hr; apply Z.leb_le; lia).
    assert (s = false) as ->.
    { rewrite Hs. destruct (Z.eqb_spec rho 0); destruct (Z.eqb_spec (2 * rho) D); simpl; try done; lia. }
    reflexivity.
  - assert (r = false) as -> by (rewrite Hr; apply Z.leb_gt; lia).
    destruct s; reflexivity.
  - assert (r = true) as -> by (rewrite Hr; apply Z.leb_le; lia).
    assert (s = true) as ->.
    { rewrite Hs. destruct (Z.eqb_spec rho 0); destruct (Z.eqb_spec (2 * rho) D); simpl; try done; lia. }
    reflexivity.
Qed.

Lemma binary_round_aux_rne (s : bool) (mx ex : Z) (lx : location) (N D : Z) :
  0 <= N -> 0 < D ->
  shr_rep N D (shr_record_of_loc mx lx) ->
  0 <= fexp prec emax (Zdigits2 mx + ex) - ex ->
  binary_round_aux prec emax s mx ex lx
  = finish s (rne N (D * 2 ^ (fexp prec emax (Zdigits2 mx + ex) - ex)))
             (fexp prec emax (Zdigits2 mx + ex)).
Proof.
  intros HN HD Hrep Hn. unfold binary_round_aux, shr_fexp at 1.
  destruct (shr_rep_shift mx ex _ N D lx HN HD Hn Hrep) as [Hrep' He'].
  destruct (shr (shr_record_of_loc mx lx) ex _) as [mrs' e'] eqn:Hshr. simpl in Hrep', He'.
  rewrite (round_nearest_even_rne N (D * 2 ^ (fexp prec emax (Zdigits2 mx + ex) - ex)) mrs');
    [|done| |done].
  - unfold finish. replace e' with (fexp prec emax (Zdigits2 mx + ex)) by lia. reflexivity.
  - pose proof (Z.pow_pos_nonneg 2 (fexp prec emax (Zdigits2 mx + ex) - ex)). nia.
Qed.

Lemma finish_normal (s : bool) (m e : Z) :
  2 ^ 52 <= m < 2 ^ 53 -> -1074 <= e <= 971 ->
  finish s m e = S754_finite s (Z.to_pos m) e.
Proof.
  intros Hm He. unfold finish, shr_fexp.
  rewrite (Zdigits2_unique m 53) by (simpl; lia).
  unfold fexp, SpecFloat.emin, prec, emax, shr.
  replace (Z.max (53 + e - 53) (3 - 1024 - 53) - e) with 0 by lia. simpl.
  destruct m as [|p|p]; try lia. simpl.
  destruct (Z.leb_spec e (1024 - 53)); [done|lia].
Qed.

Lemma finish_carry (s : bool) (e : Z) :
  -1074 <= e <= 970 ->
  finish s (2 ^ 53) e = S754_finite s (Z.to_pos (2 ^ 52)) (e + 1).
Proof.
  intros He. unfold finish, shr_fexp.
  change (Zdigits2 (2 ^ 53)) with 54.
  unfold fexp, SpecFloat.emin, prec, emax, shr.
  replace (Z.max (54 + e - 53) (3 - 1024 - 53) - e) with 1 by lia. simpl.
  destruct (Z.leb_spec (e + 1) (1024 - 53)); [done|lia].
Qed.

(** The value of a rounded mantissa, normal or carried into the next binade. *)
Lemma finish_rounded (s : bool) (m e : Z) :
  2 ^ 52 <= m <= 2 ^ 53 -> -1074 <= e <= 970 ->
  exists m' e', finish s m e = S754_finite s m' e'
                /\ 2 ^ 52 <= Z.pos m' < 2 ^ 53
                /\ e <= e' <= e + 1
                /\ Z.pos m' * 2 ^ (e' - e) = m.
Proof.
  intros Hm He. destruct (decide (m = 2 ^ 53)) as [->|Hne].
  - exists (Z.to_pos (2 ^ 52)), (e + 1). rewrite finish_carry by done.
    replace (e + 1 - e) with 1 by lia. split_and!; try done; lia.
  - exists (Z.to_pos m), e. rewrite finish_normal by lia.
    rewrite Z.sub_diag, Z2Pos.id by lia. split_and!; try done; lia.
Qed.

(** *** Properties of [rne] *)

Lemma rne_bounds (N D : Z) : N / D <= rne N D <= N / D + 1.
Proof.
  unfold rne. destruct (2 * (N mod D) ?= D); [destruct (Z.even (N / D))|..]; lia.
Qed.

Lemma rne_le (N D K : Z) : 0 < D -> N <= K * D -> rne N D <= K.
Proof.
  intros HD HN. pose proof (Z.div_mod N D ltac:(lia)) as Hdm.
  pose proof (Z.mod_pos_bound N D HD) as Hrem.
  unfold rne. revert Hdm Hrem. generalize (N / D) (N mod D). intros q rho Hdm Hrem.
  assert (q <= K) as HqK by nia.
  destruct (Z.compare_spec (2 * rho) D) as [Heq|Hlt|Hgt];
    [destruct (Z.even q)|..]; try lia; nia.
Qed.

Lemma rne_ge (N D K : Z) : 0 < D -> K * D <= N -> K <= rne N D.
Proof.
  intros HD HN. pose proof (rne_bounds N D) as [Hlo _].
  assert (K <= N / D); [|lia]. apply Z.div_le_lower_bound; lia.
Qed.

Lemma rne_mono (N1 N2 D : Z) : 0 < D -> N1 <= N2 -> rne N1 D <= rne N2 D.
Proof.
  intros HD HN.
  pose proof (Z.div_mod N1 D ltac:(lia)) as Hdm1.
  pose proof (Z.div_mod N2 D ltac:(lia)) as Hdm2.
  pose proof (Z.mod_pos_bound N1 D HD) as Hrem1.
  pose proof (Z.mod_pos_bound N2 D HD) as Hrem2.
  unfold rne. revert Hdm1 Hdm2 Hrem1 Hrem2.
  generalize (N1 / D) (N1 mod D) (N2 / D) (N2 mod D). intros q1 r1 q2 r2 Hdm1 Hdm2 Hrem1 Hrem2.
  assert (q1 <= q2) as Hq by nia.
  destruct (decide (q1 = q2)) as [->|Hne].
  - assert (r1 <= r2) by lia.
    destruct (Z.compare_spec (2 * r1) D); destruct (Z.compare_spec (2 * r2) D);
      destruct (Z.even q2); lia.
  - destruct (2 * r1 ?= D); destruct (2 * r2 ?= D);
      destruct (Z.even q1); destruct (Z.even q2); lia.
Qed.

Lemma rne_one (N : Z) : rne N 1 = N.
Proof. unfold rne. rewrite Z.mod_1_r, Z.div_1_r. reflexivity. Qed.

(** *** [float64] of a positive integer *)

Lemma Zdigits2_mono (c t : Z) : 0 < c <= t -> Zdigits2 c <= Zdigits2 t.
Proof.
  intros [Hc Hct].
  destruct (Zdigits2_bounds c Hc) as [Hlo _].
  destruct (Zdigits2_bounds t ltac:(lia)) as [_ Hhi].
  pose proof (Zdigits2_pos c Hc). pose proof (Zdigits2_pos t ltac:(lia)).
  destruct (Z.le_gt_cases (Zdigits2 c) (Zdigits2 t)) as [|Hgt]; [done|].
  assert (2 ^ Zdigits2 t <= 2 ^ (Zdigits2 c - 1)) by (apply Z.pow_le_mono_r; lia). lia.
Qed.

Lemma round53_mono (c t : Z) : 0 < c <= t -> round53 c <= round53 t.
Proof.
  intros [Hc Hct]. unfold round53.
  pose proof (Zdigits2_mono c t ltac:(lia)) as Hd.
  destruct (Zdigits2_bounds c Hc) as [Hclo Hchi].
  destruct (Zdigits2_bounds t ltac:(lia)) as [Htlo Hthi].
  pose proof (Zdigits2_pos c Hc) as Hdc.
  set (dc := Zdigits2 c) in *. set (dt := Zdigits2 t) in *.
  set (nc := Z.max (dc - 53) 0). set (nt := Z.max (dt - 53) 0).
  assert (0 < 2 ^ nc) as Hg by (apply Z.pow_pos_nonneg; lia).
  assert (0 < 2 ^ nt) as HG by (apply Z.pow_pos_nonneg; lia).
  destruct (decide (nc = nt)) as [Heq|Hne].
  - rewrite Heq. apply Z.mul_le_mono_nonneg_r; [lia|]. apply rne_mono; lia.
  - assert (nc < nt) as Hlt by lia.
    assert (nt = dt - 53) as Hnt by lia.
    assert (dc < dt) as Hdlt by lia.
    (* both sides are separated by the power of two [2 ^ (dt - 1)] *)
    transitivity (2 ^ (dt - 1)).
    + assert (2 ^ dc <= 2 ^ (dt - 1)) by (apply Z.pow_le_mono_r; lia).
      assert (rne c (2 ^ nc) <= 2 ^ (dc - nc)) as Hle.
      { apply rne_le; [done|]. rewrite <- Z.pow_add_r by lia.
        replace (dc - nc + nc) with dc by lia. lia. }
      assert (2 ^ (dc - nc) * 2 ^ nc = 2 ^ dc) as Hpow.
      { rewrite <- Z.pow_add_r by lia. f_equal. lia. }
      nia.
    + assert (2 ^ 52 <= rne t (2 ^ nt)) as Hge.
      { apply rne_ge; [done|]. rewrite <- Z.pow_add_r by lia.
        replace (52 + nt) with (dt - 1) by lia. lia. }
      assert (2 ^ 52 * 2 ^ nt = 2 ^ (dt - 1)) as Hpow.
      { rewrite <- Z.pow_add_r by lia. f_equal. lia. }
      nia.
Qed.

Lemma Pos_iter_xO (p k : positive) : Z.pos (Pos.iter xO p k) = Z.pos p * 2 ^ Z.pos k.
Proof.
  revert p. induction k as [|k IH] using Pos.peano_ind; intros p.
  - simpl. lia.
  - rewrite Pos.iter_succ, Pos2Z.inj_succ, Z.pow_succ_r by lia.
    rewrite (Pos2Z.inj_xO (Pos.iter xO p k)), IH. lia.
Qed.

Lemma fexp_normal (z : Z) : -1021 <= z -> fexp prec emax z = z - 53.
Proof. unfold fexp, SpecFloat.emin, prec, emax. lia. Qed.

Lemma binary_normalize_int (c : Z) :
  1 <= c < 2 ^ 63 ->
  exists m e,
    binary_normalize prec emax c 0 false = S754_finite false m e
    /\ 2 ^ 52 <= Z.pos m < 2 ^ 53
    /\ -52 <= e <= 11
    /\ Z.pos m * 2 ^ (e + 52) = round53 c * 2 ^ 52.
Proof.
  intros Hc. destruct c as [|p|p]; try lia. unfold binary_normalize, binary_round.
  destruct (digits2_pos_bounds p) as [Hlo Hhi].
  set (d := Z.pos (digits2_pos p)) in *.
  assert (1 <= d <= 63) as Hd.
  { split; [lia|]. destruct (Z.le_gt_cases d 63) as [|Hgt]; [done|].
    assert (2 ^ 63 <= 2 ^ (d - 1)) by (apply Z.pow_le_mono_r; lia). lia. }
  rewrite Z.add_0_r, fexp_normal by lia.
  unfold round53. change (Zdigits2 (Z.pos p)) with d.
  unfold shl_align. rewrite Z.sub_0_r.
  destruct (d - 53) as [|k|k] eqn:Hk.
  - (* exactly 53 bits *)
    rewrite (binary_round_aux_rne false (Z.pos p) 0 loc_Exact (Z.pos p) 1);
      [|lia|lia|apply shr_rep_exact|].
    + change (Zdigits2 (Z.pos p)) with d. rewrite Z.add_0_r, fexp_normal by lia.
      replace (d - 53 - 0) with 0 by lia. rewrite Hk.
      change (1 * 2 ^ 0) with 1. rewrite rne_one.
      assert (d = 53) as Hd53 by lia. rewrite Hd53 in *.
      rewrite finish_normal by (simpl in *; lia).
      exists p, 0. change (Z.max 0 0) with 0. rewrite rne_one. simpl Z.to_pos.
      split_and!; try done; simpl in *; lia.
    + change (Zdigits2 (Z.pos p)) with d. rewrite Z.add_0_r, fexp_normal by lia. lia.
  - (* more than 53 bits: rounding *)
    assert (d - 53 = Z.pos k) as Hk' by lia. clear Hk.
    rewrite (binary_round_aux_rne false (Z.pos p) 0 loc_Exact (Z.pos p) 1);
      [|lia|lia|apply shr_rep_exact|].
    + change (Zdigits2 (Z.pos p)) with d. rewrite Z.add_0_r, fexp_normal by lia.
      rewrite Z.sub_0_r, Z.mul_1_l. rewrite Z.max_l by lia.
      set (n := d - 53) in *.
      assert (0 < 2 ^ n) as Hpos by (apply Z.pow_pos_nonneg; lia).
      assert (2 ^ 52 * 2 ^ n = 2 ^ (d - 1)) as Hp1.
      { rewrite <- Z.pow_add_r by lia. f_equal. lia. }
      assert (2 ^ 53 * 2 ^ n = 2 ^ d) as Hp2.
      { rewrite <- Z.pow_add_r by lia. f_equal. lia. }
      assert (2 ^ 52 <= rne (Z.pos p) (2 ^ n) <= 2 ^ 53) as Hm2.
      { split; [apply rne_ge|apply rne_le]; lia. }
      destruct (finish_rounded false (rne (Z.pos p) (2 ^ n)) n Hm2 ltac:(lia))
        as (m' & e' & -> & Hm' & He' & Hval).
      exists m', e'. split_and!; [done|lia|lia|lia|lia|].
      rewrite <- Hk', <- Hval.
      replace (e' + 52) with ((e' - n) + (n + 52)) by lia.
      rewrite Z.pow_add_r by lia. rewrite (Z.pow_add_r 2 n 52) by lia. lia.
    + change (Zdigits2 (Z.pos p)) with d. rewrite Z.add_0_r, fexp_normal by lia. lia.
  - (* fewer than 53 bits: exact after alignment *)
    assert (53 - d = Z.pos k) as Hk' by lia. clear Hk.
    pose proof (Pos_iter_xO p k) as Hmz. rewrite <- Hk' in Hmz.
    set (mz := Pos.iter xO p k) in *.
    assert (2 ^ (d - 1) * 2 ^ (53 - d) = 2 ^ 52) as Hp1.
    { rewrite <- Z.pow_add_r by lia. f_equal. lia. }
    assert (2 ^ d * 2 ^ (53 - d) = 2 ^ 53) as Hp2.
    { rewrite <- Z.pow_add_r by lia. f_equal. lia. }
    assert (0 < 2 ^ (53 - d)) as Hpos by (apply Z.pow_pos_nonneg; lia).
    assert (2 ^ 52 <= Z.pos mz < 2 ^ 53) as Hmzb by nia.
    assert (Zdigits2 (Z.pos mz) = 53) as Hdz by (apply Zdigits2_unique; simpl; lia).
    replace (Z.neg k) with (d - 53) by lia.
    rewrite (binary_round_aux_rne false (Z.pos mz) (d - 53) loc_Exact (Z.pos mz) 1);
      [|lia|lia|apply shr_rep_exact|].
    + rewrite Hdz, fexp_normal by lia.
      replace (53 + (d - 53) - 53 - (d - 53)) with 0 by lia.
      change (1 * 2 ^ 0) with 1. rewrite rne_one.
      rewrite finish_normal by lia.
      exists mz, (d - 53). rewrite Z.max_r by lia. rewrite rne_one. simpl Z.to_pos.
      split_and!; [f_equal; lia|lia|lia|lia|lia|].
      rewrite Hmz. replace (d - 53 + 52) with (d - 1) by lia.
      change (2 ^ 0) with 1. nia.
    + rewrite Hdz, fexp_normal by lia. lia.
Qed.

(** *** Division *)

Lemma new_location_rep (N D : Z) :
  0 <= N -> 0 < D ->
  shr_rep N D (shr_record_of_loc (N / D) (new_location D (N mod D))).
Proof.
  intros HN HD. pose proof (Z.mod_pos_bound N D HD) as Hrem.
  unfold shr_rep, new_location, new_location_even, new_location_odd.
  generalize dependent (N mod D). intros rho Hrem.
  destruct (Z.even D) eqn:Heven.
  - destruct (Z.eqb_spec rho 0) as [->|Hne]; simpl.
    + split_and!; [done|symmetry; apply Z.leb_gt; lia|done].
    + destruct (Z.compare_spec (2 * rho) D); simpl; split_and!; try done;
        try (symmetry; apply Z.leb_le; lia); try (symmetry; apply Z.leb_gt; lia);
        destruct (Z.eqb_spec (2 * rho) D); try done; lia.
  - assert (2 * rho <> D) as Hodd.
    { intros <-. rewrite Z.even_mul in Heven. done. }
    destruct (Z.eqb_spec rho 0) as [->|Hne]; simpl.
    + split_and!; [done|symmetry; apply Z.leb_gt; lia|done].
    + destruct (Z.compare_spec (2 * rho + 1) D); simpl; split_and!; try done;
        try (symmetry; apply Z.leb_le; lia); try (symmetry; apply Z.leb_gt; lia);
        destruct (Z.eqb_spec (2 * rho) D); try done; lia.
Qed.

(** A quotient of two normal numbers, the first at most the second, is a
    normal number at most one. *)
Lemma SFdiv_le_one (mx my : positive) (ex ey : Z) :
  2 ^ 52 <= Z.pos mx < 2 ^ 53 -> 2 ^ 52 <= Z.pos my < 2 ^ 53 ->
  -52 <= ex <= 11 -> -52 <= ey <= 11 ->
  Z.pos mx * 2 ^ (ex + 52) <= Z.pos my * 2 ^ (ey + 52) ->
  exists mq eq,
    SFdiv prec emax (S754_finite false mx ex) (S754_finite false my ey)
    = S754_finite false mq eq
    /\ 2 ^ 52 <= Z.pos mq < 2 ^ 53
    /\ -116 <= eq <= -52
    /\ Z.pos mq <= 2 ^ (- eq).
Proof.
  intros Hmx Hmy Hex Hey Hle.
  assert (ex <= ey) as Hexy.
  { destruct (Z.le_gt_cases ex ey) as [|Hgt]; [done|].
    assert (2 ^ (ey + 53) <= 2 ^ (ex + 52)) by (apply Z.pow_le_mono_r; lia).
    assert (2 ^ (ey + 53) = 2 * 2 ^ (ey + 52)) as Hp.
    { replace (ey + 53) with (Z.succ (ey + 52)) by lia. apply Z.pow_succ_r. lia. }
    assert (0 < 2 ^ (ey + 52)) by (apply Z.pow_pos_nonneg; lia). nia. }
  assert (Z.pos mx <= Z.pos my * 2 ^ (ey - ex)) as Hle'.
  { replace (ey + 52) with ((ey - ex) + (ex + 52)) in Hle by lia.
    rewrite (Z.pow_add_r 2 (ey - ex) (ex + 52)) in Hle by lia.
    assert (0 < 2 ^ (ex + 52)) by (apply Z.pow_pos_nonneg; lia). nia. }
  unfold SFdiv, SFdiv_core_binary.
  rewrite (Zdigits2_unique (Z.pos mx) 53), (Zdigits2_unique (Z.pos my) 53) by (simpl; lia).
  rewrite fexp_normal by lia.
  replace (Z.min (53 + ex - (53 + ey) - 53) (ex - ey)) with (ex - ey - 53) by lia.
  replace (ex - ey - (ex - ey - 53)) with 53 by lia.
  rewrite Z.shiftl_mul_pow2 by lia.
  set (N := Z.pos mx * 2 ^ 53). set (D := Z.pos my). set (e' := ex - ey - 53).
  assert (Z.div_eucl N D = (N / D, N mod D)) as ->.
  { unfold Z.div, Z.modulo. by destruct (Z.div_eucl N D). }
  simpl xorb.
  assert (0 <= N) as HN by (unfold N; lia).
  assert (0 < D) as HD by (unfold D; lia).
  assert (2 ^ 52 <= N / D) as Hqlo.
  { apply Z.div_le_lower_bound; [done|]. unfold N, D. lia. }
  assert (N / D < 2 ^ 54) as Hqhi.
  { apply Z.div_lt_upper_bound; [done|]. unfold N, D. lia. }
  set (n := Zdigits2 (N / D) - 53).
  assert (n = 0 \/ n = 1) as Hn.
  { destruct (Z.lt_ge_cases (N / D) (2 ^ 53)) as [Hlt|Hge].
    - left. unfold n. rewrite (Zdigits2_unique (N / D) 53); [done|simpl; lia|lia].
    - right. unfold n. rewrite (Zdigits2_unique (N / D) 54); [done|simpl; lia|lia]. }
  assert (2 ^ (52 + n) <= N / D < 2 ^ (53 + n)) as Hq.
  { pose proof (Zdigits2_bounds (N / D) ltac:(lia)) as Hb.
    replace (Zdigits2 (N / D)) with (53 + n) in Hb by (unfold n; lia).
    replace (53 + n - 1) with (52 + n) in Hb by lia. done. }
  assert (fexp prec emax (Zdigits2 (N / D) + e') = e' + n) as Hfexp.
  { rewrite fexp_normal by (unfold e', n in *; lia). unfold n. lia. }
  rewrite (binary_round_aux_rne false (N / D) e' _ N D HN HD (new_location_rep N D HN HD));
    [|rewrite Hfexp; lia].
  rewrite Hfexp. replace (e' + n - e') with n by lia.
  assert (0 < 2 ^ n) as Hpn by (apply Z.pow_pos_nonneg; lia).
  assert (2 ^ 52 <= rne N (D * 2 ^ n) <= 2 ^ (- (e' + n))) as [Hm2lo Hm2hi].
  { split.
    - apply rne_ge; [lia|].
      assert (2 ^ (52 + n) * D <= N) as Hx.
      { pose proof (Z.mul_div_le N D HD). nia. }
      rewrite (Z.pow_add_r 2 52 n) in Hx by lia. lia.
    - apply rne_le; [lia|].
      replace (2 ^ (- (e' + n)) * (D * 2 ^ n)) with (D * (2 ^ (- (e' + n)) * 2 ^ n)) by lia.
      rewrite <- Z.pow_add_r by (unfold e'; lia).
      replace (- (e' + n) + n) with (53 + (ey - ex)) by (unfold e'; lia).
      rewrite Z.pow_add_r by lia. unfold N, D. nia. }
  assert (rne N (D * 2 ^ n) <= 2 ^ 53) as Hm2hi'.
  { pose proof (rne_bounds N (D * 2 ^ n)) as [_ Hub].
    assert (N / (D * 2 ^ n) < 2 ^ 53); [|lia].
    rewrite <- Z.div_div by lia. apply Z.div_lt_upper_bound; [done|].
    rewrite (Z.pow_add_r 2 53 n) in Hq by lia. lia. }
  destruct (finish_rounded false (rne N (D * 2 ^ n)) (e' + n) ltac:(lia)
              ltac:(unfold e'; lia)) as (mq & eq & -> & Hmq & Heq & Hval).
  assert (Z.pos mq <= 2 ^ (- eq)) as Hmqle.
  { destruct (decide (eq = e' + n)) as [->|Hne].
    - rewrite Z.sub_diag in Hval. change (2 ^ 0) with 1 in Hval. lia.
    - assert (eq = e' + n + 1) as -> by lia.
      replace (e' + n + 1 - (e' + n)) with 1 in Hval by lia. change (2 ^ 1) with 2 in Hval.
      assert (2 ^ (- (e' + n)) = 2 * 2 ^ (- (e' + n + 1))) as Hp.
      { replace (- (e' + n)) with (Z.succ (- (e' + n + 1))) by lia.
        apply Z.pow_succ_r. unfold e'. lia. }
      lia. }
  assert (eq <= -52) as Heqhi.
  { destruct (Z.le_gt_cases eq (-52)) as [|Hgt]; [done|].
    assert (2 ^ (- eq) < 2 ^ 52); [|lia].
    destruct (Z.lt_ge_cases (- eq) 0) as [Hneg|Hnn].
    - rewrite Z.pow_neg_r by done. lia.
    - apply Z.pow_lt_mono_r; lia. }
  exists mq, eq. split_and!; [done|lia|lia| |lia|done].
  unfold e' in *. lia.
Qed.

(** *** Multiplication by 1000 *)

Lemma SFmul_1000_le (mq : positive) (eq : Z) :
  2 ^ 52 <= Z.pos mq < 2 ^ 53 -> -116 <= eq <= -52 -> Z.pos mq <= 2 ^ (- eq) ->
  exists mp ep,
    SFmul prec emax (S754_finite false mq eq) (Prim2SF 1000)
    = S754_finite false mp ep
    /\ ep < 0
    /\ Z.pos mp <= 1000 * 2 ^ (- ep).
Proof.
  intros Hmq Heq Hle.
  change (Prim2SF 1000) with (S754_finite false 8796093022208000 (-43)).
  unfold SFmul. simpl xorb. rewrite Pos2Z.inj_mul.
  set (M := Z.pos 8796093022208000).
  assert (M = 1000 * 2 ^ 43) as HM by reflexivity.
  set (N := Z.pos mq * M). set (e0 := eq + -43).
  assert (2 ^ 104 <= N < 2 ^ 106) as HNb by (unfold N; simpl in *; lia).
  set (n := Zdigits2 N - 53).
  assert (n = 52 \/ n = 53) as Hn.
  { destruct (Z.lt_ge_cases N (2 ^ 105)) as [Hlt|Hge].
    - left. unfold n. rewrite (Zdigits2_unique N 105); [done|simpl; lia|lia].
    - right. unfold n. rewrite (Zdigits2_unique N 106); [done|simpl; lia|lia]. }
  assert (2 ^ (52 + n) <= N < 2 ^ (53 + n)) as HNn.
  { pose proof (Zdigits2_bounds N ltac:(lia)) as Hb.
    replace (Zdigits2 N) with (53 + n) in Hb by (unfold n; lia).
    replace (53 + n - 1) with (52 + n) in Hb by lia. done. }
  assert (fexp prec emax (Zdigits2 N + e0) = e0 + n) as Hfexp.
  { rewrite fexp_normal by (unfold e0, n in *; lia). unfold n. lia. }
  rewrite (binary_round_aux_rne false N e0 loc_Exact N 1 ltac:(lia) ltac:(lia)
             (shr_rep_exact N)); [|rewrite Hfexp; lia].
  rewrite Hfexp. replace (e0 + n - e0) with n by lia. rewrite Z.mul_1_l.
  assert (0 < 2 ^ n) as Hpn by (apply Z.pow_pos_nonneg; lia).
  rewrite (Z.pow_add_r 2 52 n), (Z.pow_add_r 2 53 n) in HNn by lia.
  assert (2 ^ 52 <= rne N (2 ^ n) <= 2 ^ 53) as Hm2.
  { split; [apply rne_ge|apply rne_le]; lia. }
  assert (rne N (2 ^ n) <= 1000 * 2 ^ (- (e0 + n))) as Hm2le.
  { apply rne_le; [done|].
    rewrite <- Z.mul_assoc, <- Z.pow_add_r by (unfold e0; lia).
    replace (- (e0 + n) + n) with (43 + - eq) by (unfold e0; lia).
    rewrite Z.pow_add_r by lia. unfold N. rewrite HM. nia. }
  destruct (finish_rounded false (rne N (2 ^ n)) (e0 + n) Hm2 ltac:(unfold e0; lia))
    as (mp & ep & -> & Hmp & Hep & Hval).
  exists mp, ep. split_and!; [done|unfold e0 in *; lia|].
  destruct (decide (ep = e0 + n)) as [->|Hne].
  - rewrite Z.sub_diag in Hval. change (2 ^ 0) with 1 in Hval. lia.
  - assert (ep = e0 + n + 1) as -> by lia.
    replace (e0 + n + 1 - (e0 + n)) with 1 in Hval by lia. change (2 ^ 1) with 2 in Hval.
    assert (2 ^ (- (e0 + n)) = 2 * 2 ^ (- (e0 + n + 1))) as Hp.
    { replace (- (e0 + n)) with (Z.succ (- (e0 + n + 1))) by lia.
      apply Z.pow_succ_r. unfold e0. lia. }
    lia.
Qed.

(** *** [math.Round] of a number between 0 and 1000 *)

Lemma Round_small (p : float) (mp : positive) (ep : Z) :
  Prim2SF p = S754_finite false mp ep -> ep < 0 -> Z.pos mp <= 1000 * 2 ^ (- ep) ->
  exists k, 0 <= k <= 1000 /\ Round p = float_of_int64 k.
Proof.
  intros Hp Hep Hle. unfold Round. rewrite Hp.
  destruct (Z.leb_spec 0 ep) as [|_]; [lia|].
  assert (0 < 2 ^ (- ep)) as Hd by (apply Z.pow_pos_nonneg; lia).
  pose proof (Z.div_mod (Z.pos mp) (2 ^ (- ep)) ltac:(lia)) as Hdm.
  pose proof (Z.mod_pos_bound (Z.pos mp) (2 ^ (- ep)) Hd) as Hrem.
  revert Hdm Hrem. generalize (Z.pos mp / 2 ^ (- ep)) (Z.pos mp mod 2 ^ (- ep)).
  intros q r Hdm Hrem.
  assert (0 <= q <= 1000) as Hq by nia.
  set (k := if 2 ^ (- ep) <=? 2 * r then q + 1 else q).
  assert (0 <= k <= 1000) as Hk.
  { unfold k. destruct (Z.leb_spec (2 ^ (- ep)) (2 * r)); [|lia]. nia. }
  exists k. split; [done|]. unfold float_of_int64, int64_min.
  destruct (Z.eqb_spec k (- 2 ^ 63)); [lia|].
  destruct (Z.ltb_spec k 0); [lia|done].
Qed.

(** *** [percent] of a part of a whole *)

Lemma percent_zero_den num : percent num 0 = 0%float.
Proof. reflexivity. Qed.

Lemma one_decimal_in_range (p : float) : one_decimal p -> in_range p = true.
Proof.
  intros (k & Hk & ->).
  assert (forallb (fun n => in_range (tenths (Z.of_nat n))) (seq 0 1001) = true) as Hall
    by (vm_compute; reflexivity).
  rewrite forallb_forall in Hall.
  rewrite <- (Z2Nat.id k) by lia. apply Hall. apply in_seq. lia.
Qed.

Lemma float_of_int64_pos (c : Z) :
  1 <= c <= int64_max ->
  exists m e,
    Prim2SF (float_of_int64 c) = S754_finite false m e
    /\ 2 ^ 52 <= Z.pos m < 2 ^ 53
    /\ -52 <= e <= 11
    /\ Z.pos m * 2 ^ (e + 52) = round53 c * 2 ^ 52.
Proof.
  unfold int64_max. intros Hc. unfold float_of_int64, int64_min.
  destruct (Z.eqb_spec c (- 2 ^ 63)); [lia|].
  destruct (Z.ltb_spec c 0); [lia|].
  rewrite of_uint63_spec, Uint63.of_Z_spec.
  rewrite Z.mod_small by (change Uint63.wB with (2 ^ 63); lia).
  apply binary_normalize_int. lia.
Qed.

Lemma percent_one_decimal (c t : Z) :
  0 <= c <= t -> t <= int64_max -> one_decimal (percent c t).
Proof.
  intros Hc Ht. unfold percent.
  destruct (Z.eqb_spec t 0) as [->|Hne]; [exists 0; split; [lia|reflexivity]|].
  destruct (float_of_int64_pos t ltac:(lia)) as (my & ey & Hy & Hmy & Hey & Hvy).
  destruct (decide (c = 0)) as [->|Hc0].
  - (* nothing covered: the quotient is +0 *)
    assert ((float_of_int64 0 / float_of_int64 t)%float = 0%float) as ->.
    { apply Prim2SF_inj. rewrite div_spec, Hy. reflexivity. }
    exists 0. split; [lia|reflexivity].
  - destruct (float_of_int64_pos c ltac:(lia)) as (mx & ex & Hx & Hmx & Hex & Hvx).
    destruct (SFdiv_le_one mx my ex ey Hmx Hmy Hex Hey) as (mq & eq & Hq & Hmq & Heq & Hqle).
    { rewrite Hvx, Hvy. apply Z.mul_le_mono_nonneg_r; [lia|]. apply round53_mono. lia. }
    destruct (SFmul_1000_le mq eq Hmq Heq Hqle) as (mp & ep & Hp & Hep & Hple).
    destruct (Round_small (float_of_int64 c / float_of_int64 t * 1000)%float mp ep)
      as (k & Hk & ->); [|done|done|].
    + rewrite mul_spec, div_spec, Hx, Hy. unfold SF64div, SF64mul. rewrite Hq. exact Hp.
    + exists k. split; [done|reflexivity].
Qed.

(** ** Percentages of a report *)

Lemma one_decimal_pct_ok p : one_decimal p -> pct_ok p.
Proof. intros Hp. split; [done|by apply one_decimal_in_range]. Qed.

Lemma toFunctions_percent (l : list gofunc.Function.t) fns g :
  toFunctions l = Some fns -> g ∈ fns ->
  exists f, f ∈ l /\ FunctionCoverage.Percent g = gofunc.Function.Percent f.
Proof.
  intros Hfns%mapM_Some (i & Hi)%list_elem_of_lookup.
  destruct (Forall2_lookup_r _ _ _ _ _ Hfns Hi) as (f & Hf & Hconv).
  exists f. split; [by eapply list_elem_of_lookup_2|].
  unfold toFunction in Hconv. destruct (first_byte _); simpl in Hconv; [|done].
  by injection Hconv as <-.
Qed.

Lemma sumZ_cons z l : sumZ (z :: l) = z + sumZ l.
Proof. reflexivity. Qed.

Section ReportFacts.
Context `{MapOrder}.

Lemma add_functions_in P pc pkgFn pc' :
  add pc pkgFn = Some pc' ->
  functions_in P pc ->
  (forall name file f, gofunc.PackageFunctions.Files pkgFn !! name = Some file ->
     f ∈ gofunc.FileFunctions.Functions file -> P (gofunc.Function.Percent f)) ->
  functions_in P pc'.
Proof.
  intros Hadd Hpc Hfn f g Hf Hg.
  destruct (add_one_file _ _ _ Hadd) as [Heq|(i & f0 & name & file & fns & Hi & Hfile & Hfns & Heq)];
    rewrite Heq in Hf; [by eapply Hpc|].
  apply list_elem_of_lookup in Hf as [j Hj].
  destruct (decide (i = j)) as [->|Hne].
  - rewrite list_lookup_insert_eq in Hj by (by eapply lookup_lt_Some).
    injection Hj as <-. simpl in Hg.
    destruct (toFunctions_percent _ _ _ Hfns Hg) as (f1 & Hf1 & ->). by eapply Hfn.
  - rewrite list_lookup_insert_ne in Hj by done.
    apply (Hpc f g); [by eapply list_elem_of_lookup_2|done].
Qed.

Lemma add_all_functions_in P pc l pc' :
  add_all pc l = Some pc' ->
  functions_in P pc ->
  (forall p name file f, p ∈ l -> gofunc.PackageFunctions.Files p !! name = Some file ->
     f ∈ gofunc.FileFunctions.Functions file -> P (gofunc.Function.Percent f)) ->
  functions_in P pc'.
Proof.
  revert pc. induction l as [|p l IH]; intros pc Hall Hpc Hl; simpl in Hall.
  - by injection Hall as <-.
  - destruct (add pc p) as [pc1|] eqn:Hadd; simpl in Hall; [|done].
    apply (IH pc1 Hall).
    + eapply add_functions_in; [done|done|]. intros name file f. apply Hl. by left.
    + intros q name file f Hq. apply Hl. by right.
Qed.

Lemma sums_in_range coverPkgs :
  statements_ok coverPkgs ->
  0 <= sumZ (gocover.PackageStatements.CoveredStmts <$> coverPkgs)
    <= sumZ (gocover.PackageStatements.Stmts <$> coverPkgs).
Proof.
  induction coverPkgs as [|s l IH]; intros Hok; [simpl; lia|].
  rewrite !fmap_cons, !sumZ_cons.
  destruct (Hok s ltac:(by left)) as (_ & Hs & _).
  assert (statements_ok l) as Hl by (intros s' Hs'; apply Hok; by right).
  specialize (IH Hl). lia.
Qed.

End ReportFacts.

(** ** The sample inputs *)

Section SampleFacts.
Context `{MapOrder}.

Lemma pkgP_two_files :
  exists a b, PackageCoverage.Files (newPackageCoverage pkgP) = [a; b].
Proof.
  assert (length (PackageCoverage.Files (newPackageCoverage pkgP)) = 2%nat) as Hlen.
  { rewrite newPackageCoverage_eq. simpl. unfold maps_Values.
    rewrite length_fmap, (Permutation_length (range_perm _ _)). reflexivity. }
  destruct (PackageCoverage.Files (newPackageCoverage pkgP)) as [|a [|b [|? ?]]];
    try discriminate. eauto.
Qed.

Lemma pkgP_file_has_group f :
  f ∈ PackageCoverage.Files (newPackageCoverage pkgP) ->
  exists g, gofunc.PackageFunctions.Files fnP !! FileCoverage.Name f = Some g
            /\ gofunc.FileFunctions.Functions g <> [].
Proof.
  intros (st & Hst & _)%newPackageCoverage_file. simpl in Hst.
  apply lookup_insert_Some in Hst as [[<- _]|[_ Hst]]; [simpl; eauto|].
  apply lookup_insert_Some in Hst as [[<- _]|[_ Hst]]; [simpl; eauto|].
  by rewrite lookup_empty in Hst.
Qed.

End SampleFacts.

(** Which of x.go and y.go is merged depends on the order of the groups. *)
Lemma pkgP_forward_order :
  files_with_functions <$> @newCoverage forward_order [pkgP] [fnP] = Some ["y.go"].
Proof. vm_compute. reflexivity. Qed.

Lemma pkgP_backward_order :
  files_with_functions <$> @newCoverage backward_order [pkgP] [fnP] = Some ["x.go"].
Proof. vm_compute. reflexivity. Qed.

Lemma reportAB_eq : @newCoverage forward_order [pkgA; pkgB] [fnB; fnC] = Some reportAB.
Proof. vm_compute. reflexivity. Qed.

Lemma hugeAB_ok : statements_ok [hugeA; hugeB].
Proof.
  intros s Hs. unfold is_int64, int64_min, int64_max.
  apply elem_of_cons in Hs as [->|Hs]; [|apply elem_of_cons in Hs as [->|Hs]];
    [..|by apply elem_of_nil in Hs]; simpl; (split_and!; [lia|lia|lia|lia|]);
    intros name st Hfile;
    apply lookup_insert_Some in Hfile as [[_ <-]|[_ Hfile]];
    try (by rewrite lookup_empty in Hfile); simpl.
  - split_and!; try lia. exists 1000. split; [lia|reflexivity].
  - split_and!; try lia. exists 0. split; [lia|reflexivity].
Qed.

(** * The claims *)

(** C1, on the code.  Package P has the files x.go and y.go, and the function
    data of P has a group for each, so both groups match.  Whatever the
    iteration order, the report has a file whose group was never merged: its
    function list is still empty. *)
Theorem add_returns_after_first_match `{MapOrder} :
  exists c pc f g,
    newCoverage [pkgP] [fnP] = Some c
    /\ Coverage.Packages c = [pc]
    /\ f ∈ PackageCoverage.Files pc
    /\ gofunc.PackageFunctions.Files fnP !! FileCoverage.Name f = Some g
    /\ gofunc.FileFunctions.Functions g <> []
    /\ FileCoverage.Functions f = [].
Proof.
  destruct (add_total (newPackageCoverage pkgP) fnP) as [pc Hadd].
  { intros name file. simpl. intros Hfile.
    apply lookup_insert_Some in Hfile as [[_ <-]|[_ Hfile]];
      [repeat constructor; simpl; discriminate|].
    apply lookup_insert_Some in Hfile as [[_ <-]|[_ Hfile]];
      [repeat constructor; simpl; discriminate|].
    by rewrite lookup_empty in Hfile. }
  assert (newCoverage [pkgP] [fnP]
          = Some {| Coverage.Percent := percent 4 6; Coverage.Packages := [pc] |}) as Hc.
  { unfold newCoverage, build. simpl. unfold merge_step.
    rewrite lookup_insert_eq, Hadd. simpl.
    unfold maps_Values. rewrite insert_insert_eq, insert_empty, range_singleton.
    reflexivity. }
  destruct pkgP_two_files as (a & b & Hab).
  assert (exists f, f ∈ PackageCoverage.Files pc
                    /\ f ∈ PackageCoverage.Files (newPackageCoverage pkgP)) as (f & Hf & Hf0).
  { destruct (add_one_file _ _ _ Hadd) as [->|(i & f' & ? & ? & fns & _ & _ & _ & ->)].
    - exists a. rewrite Hab. split; apply elem_of_cons; by left.
    - rewrite Hab. destruct i as [|i]; simpl.
      + exists b. split; apply elem_of_cons; right; apply elem_of_cons; by left.
      + exists a. split; apply elem_of_cons; by left. }
  destruct (pkgP_file_has_group f Hf0) as (g & Hg & Hne).
  eexists _, pc, f, g. split_and!; try done.
  by eapply newPackageCoverage_no_functions.
Qed.

(** C2. A function-side package whose name is the name of no statement-side
    package changes nothing: the aggregation has the outcome it has without
    that package.  And the files of a report package that no function-side
    package names have no functions. *)
Theorem unmatched_function_package_dropped `{MapOrder} coverPkgs l1 p l2 :
  gofunc.PackageFunctions.Package p ∉ gocover.PackageStatements.Package <$> coverPkgs ->
  newCoverage coverPkgs (l1 ++ p :: l2) = newCoverage coverPkgs (l1 ++ l2)
  /\ forall c pc f,
       newCoverage coverPkgs (l1 ++ p :: l2) = Some c ->
       pc ∈ Coverage.Packages c ->
       PackageCoverage.Name pc ∉ gofunc.PackageFunctions.Package <$> (l1 ++ p :: l2) ->
       f ∈ PackageCoverage.Files pc ->
       FileCoverage.Functions f = [].
Proof.
  intros Hp. split.
  - rewrite !newCoverage_unfold. f_equal. rewrite !merge_app.
    destruct (merge (build coverPkgs).1.1 l1) as [m1|] eqn:Hm1; simpl; [|done].
    rewrite merge_skip; [done|].
    rewrite (merge_lookup _ _ _ _ Hm1), build_lookup_None; done.
  - intros c pc f Hc Hpc Hname Hf.
    apply (newCoverage_package _ _ _ _ Hc) in Hpc as (s & _ & Hall).
    rewrite (named_nil _ _ Hname) in Hall. simpl in Hall. injection Hall as <-.
    by eapply newPackageCoverage_no_functions.
Qed.

(** Package C of the function side is the name of no statement-side package. *)
Lemma unmatched_function_package_dropped_witness :
  @newCoverage forward_order [pkgA; pkgB] ([fnB] ++ fnC :: [])
  = @newCoverage forward_order [pkgA; pkgB] ([fnB] ++ []).
Proof.
  apply (@unmatched_function_package_dropped forward_order [pkgA; pkgB] [fnB] fnC []).
  vm_compute. intros Hin. repeat (apply elem_of_cons in Hin as [Hin|Hin]; [discriminate|]).
  by apply elem_of_nil in Hin.
Defined.

(** ** The formula on sums that fit *)

Lemma binary_round_aux_opp (mx ex : Z) (lx : location) :
  binary_round_aux prec emax true mx ex lx
  = SFopp (binary_round_aux prec emax false mx ex lx).
Proof.
  unfold binary_round_aux. destruct (shr_fexp prec emax mx ex lx) as [mrs' e'].
  destruct (shr_fexp prec emax _ e' loc_Exact) as [mrs'' e''].
  destruct (shr_m mrs'') as [|m|m]; [done| |done].
  by destruct (e'' <=? emax - prec).
Qed.

(** On an [int64] value [float_of_Z] is the conversion [float64(x)]. *)
Lemma float_of_Z_int64 (z : Z) : is_int64 z -> float_of_Z z = float_of_int64 z.
Proof.
  unfold is_int64, int64_min, int64_max. intros Hz.
  unfold float_of_Z, float_of_int64, int64_min.
  destruct (Z.eqb_spec z (- 2 ^ 63)) as [->|Hmin]; [vm_compute; reflexivity|].
  destruct (Z.ltb_spec z 0) as [Hneg|Hpos].
  - rewrite <- (SF2Prim_Prim2SF (- of_uint63 (Uint63.of_Z (- z)))). f_equal.
    rewrite opp_spec, of_uint63_spec, Uint63.of_Z_spec.
    rewrite Z.mod_small by (change Uint63.wB with (2 ^ 63); lia).
    destruct z as [|p|p]; [lia|lia|]. change (- Z.neg p) with (Z.pos p).
    unfold binary_normalize, binary_round.
    destruct (shl_align _ _ _) as [mz ez]. apply binary_round_aux_opp.
  - rewrite <- (SF2Prim_Prim2SF (of_uint63 (Uint63.of_Z z))). f_equal.
    rewrite of_uint63_spec, Uint63.of_Z_spec.
    by rewrite Z.mod_small by (change Uint63.wB with (2 ^ 63); lia).
Qed.

Lemma round_percent_int64 (num den : Z) :
  is_int64 num -> is_int64 den -> round_percent num den = percent num den.
Proof.
  intros Hnum Hden. unfold round_percent, percent.
  by rewrite (float_of_Z_int64 num Hnum), (float_of_Z_int64 den Hden).
Qed.

Lemma hugeAB_counts_ok : counts_ok [hugeA; hugeB].
Proof. intros s Hs. by destruct (hugeAB_ok s Hs) as (? & ? & _). Qed.

(** C3, amended.  When the package-level covered counts and the total counts
    each add up to an [int64] value, the overall percentage is the formula
    [round(sum(covered) / sum(total) × 1000) / 10] on these two sums, a
    totals-weighted figure; it is 0.0 when the total is 0.  In every case it
    is [percent] of the two [int64] running sums.  Packages with totals
    (10 statements, 8 covered) and (5, 0) give 53.3. *)
Theorem overall_percent_totals_weighted `{MapOrder} coverPkgs fnPkgs c :
  newCoverage coverPkgs fnPkgs = Some c ->
  let covered := gocover.PackageStatements.CoveredStmts <$> coverPkgs in
  let total := gocover.PackageStatements.Stmts <$> coverPkgs in
  is_int64 (sumZ covered) -> is_int64 (sumZ total) ->
  Coverage.Percent c = round_percent (sumZ covered) (sumZ total)
  /\ (sumZ total = 0 -> Coverage.Percent c = 0%float)
  /\ Coverage.Percent c = percent (sum64 covered) (sum64 total)
  /\ round_percent (sumZ [8; 0]) (sumZ [10; 5]) = 53.3%float.
Proof.
  intros (m' & _ & Hp & _)%newCoverage_Some covered total Hc Ht.
  fold covered total in Hp.
  assert (Coverage.Percent c = round_percent (sumZ covered) (sumZ total)) as Hformula.
  { rewrite Hp, (sum64_exact covered Hc), (sum64_exact total Ht).
    symmetry. by apply round_percent_int64. }
  split_and!.
  - exact Hformula.
  - intros Hz. rewrite Hformula, Hz. reflexivity.
  - exact Hp.
  - vm_compute. reflexivity.
Qed.

(** C3 as stated fails: two packages of 2^62 statements each, the first fully
    covered, have the sums 2^62 and 2^63, for which the formula gives 50.0;
    the [int64] total wraps around to -2^63 and the code reports -50.0. *)
Lemma totals_claim_fails : ~ totals_claim.
Proof.
  intros Hclaim.
  pose proof (Hclaim forward_order [hugeA; hugeB] [] hugeReport hugeAB_counts_ok) as Heq.
  specialize (Heq ltac:(vm_compute; reflexivity)).
  apply (f_equal (fun p => (p <? 0)%float)) in Heq. vm_compute in Heq. discriminate.
Qed.

(** Totals (10, 8) and (5, 0): 53.3. *)
Lemma overall_percent_totals_weighted_witness :
  Coverage.Percent reportAB = 53.3%float.
Proof.
  destruct (@overall_percent_totals_weighted forward_order [pkgA; pkgB] [fnB; fnC] reportAB)
    as (Hformula & _ & _ & Hexample).
  - vm_compute. reflexivity.
  - unfold is_int64, int64_min, int64_max. simpl. lia.
  - unfold is_int64, int64_min, int64_max. simpl. lia.
  - rewrite Hformula. exact Hexample.
Defined.

(** C4. [percent] at the reference points: 1/3 is 33.3, 2/3 is 66.7, 0/0 and
    0/10 are 0.0, 10/10 is 100.0; and a zero denominator gives 0.0 whatever
    the numerator is. *)
Theorem percent_reference_values :
  percent 1 3 = 33.3%float
  /\ percent 2 3 = 66.7%float
  /\ percent 0 0 = 0%float
  /\ percent 0 10 = 0%float
  /\ percent 10 10 = 100%float
  /\ forall num, percent num 0 = 0%float.
Proof.
  split_and!.
  - vm_compute. reflexivity.
  - vm_compute. reflexivity.
  - reflexivity.
  - vm_compute. reflexivity.
  - vm_compute. reflexivity.
  - apply percent_zero_den.
Qed.

(** C5. A function record with a non-empty name converts to a record with the
    same name, percentage, file and line, whose [Internal] flag is true
    exactly when the first byte of the name lies between 'a' and 'z'; "Do" is
    not internal, "do" is. *)
Theorem internal_iff_first_byte_lowercase (l : list gofunc.Function.t) :
  Forall (fun f => gofunc.Function.Function f <> "") l ->
  (exists fns,
     toFunctions l = Some fns
     /\ length fns = length l
     /\ forall i f, l !! i = Some f ->
          exists g c rest,
            fns !! i = Some g
            /\ gofunc.Function.Function f = String c rest
            /\ FunctionCoverage.Name g = gofunc.Function.Function f
            /\ FunctionCoverage.Percent g = gofunc.Function.Percent f
            /\ FunctionCoverage.File g = gofunc.Function.File f
            /\ FunctionCoverage.Line g = gofunc.Function.Line f
            /\ (FunctionCoverage.Internal g = true <->
                Z.of_N (Ascii.N_of_ascii "a"%char) <= Z.of_N (Ascii.N_of_ascii c)
                                              <= Z.of_N (Ascii.N_of_ascii "z"%char)))
  /\ (forall file line pc,
        FunctionCoverage.Internal <$> toFunction (fn "Do" file line pc) = Some false
        /\ FunctionCoverage.Internal <$> toFunction (fn "do" file line pc) = Some true).
Proof.
  intros Hl. split; [|by intros].
  destruct (toFunctions_Some l Hl) as [fns Hfns]. exists fns.
  apply mapM_Some in Hfns. split_and!; [by apply mapM_Some|by erewrite <- Forall2_length|].
  intros i f Hi.
  destruct (Forall2_lookup_l _ _ _ _ _ Hfns Hi) as (g & Hg & Hconv).
  unfold toFunction in Hconv.
  destruct (gofunc.Function.Function f) as [|c rest] eqn:Hname; [done|].
  simpl in Hconv. injection Hconv as <-. eexists _, c, rest.
  split_and!; try done. simpl. unfold isLower.
  change (Z.of_N (Ascii.N_of_ascii "a"%char)) with 97.
  change (Z.of_N (Ascii.N_of_ascii "z"%char)) with 122.
  rewrite andb_true_iff, !Z.leb_le. reflexivity.
Qed.

(** "Do", "do" and "_x". *)
Lemma internal_iff_first_byte_lowercase_witness :
  exists fns, toFunctions [fn "Do" "x.go" 3 50; fn "do" "y.go" 7 100; fn "_x" "y.go" 9 0]
              = Some fns
              /\ FunctionCoverage.Internal <$> fns = [false; true; false].
Proof.
  destruct (internal_iff_first_byte_lowercase
              [fn "Do" "x.go" 3 50; fn "do" "y.go" 7 100; fn "_x" "y.go" 9 0])
    as [(fns & Hfns & _) _].
  - repeat constructor; simpl; discriminate.
  - exists fns. split; [exact Hfns|].
    vm_compute in Hfns. injection Hfns as <-. reflexivity.
Defined.

(** C6. Whatever the function-side input is, the report without its
    function lists is the report of the statement-side input alone: the same
    packages, and in each package the same files in the same order with the
    same name, percentage and statement counts, which are those of the
    statement-side file of that name. *)
Theorem merge_changes_functions_only `{MapOrder} coverPkgs fnPkgs c :
  newCoverage coverPkgs fnPkgs = Some c ->
  (exists c0, newCoverage coverPkgs [] = Some c0
              /\ strip_package <$> Coverage.Packages c ≡ₚ Coverage.Packages c0)
  /\ (forall k, k ∈ PackageCoverage.Name <$> Coverage.Packages c <->
                k ∈ gocover.PackageStatements.Package <$> coverPkgs)
  /\ (forall pc, pc ∈ Coverage.Packages c ->
        exists s, last_named (PackageCoverage.Name pc) coverPkgs = Some s
                  /\ strip_package pc = newPackageCoverage s)
  /\ (forall pc f, pc ∈ Coverage.Packages c -> f ∈ PackageCoverage.Files pc ->
        exists s st,
          last_named (PackageCoverage.Name pc) coverPkgs = Some s
          /\ gocover.PackageStatements.Files s !! FileCoverage.Name f = Some st
          /\ FileCoverage.Percent f = gocover.FileStatements.Percent st
          /\ FileCoverage.Stmts f = gocover.FileStatements.Stmts st
          /\ FileCoverage.CoveredStmts f = gocover.FileStatements.CoveredStmts st).
Proof.
  intros Hc.
  assert (forall pc, pc ∈ Coverage.Packages c ->
            exists s, last_named (PackageCoverage.Name pc) coverPkgs = Some s
                      /\ strip_package pc = newPackageCoverage s) as Hpkg.
  { intros pc (s & Hs & Hall)%(newCoverage_package _ _ _ _ Hc). exists s. split; [done|].
    rewrite (add_all_strip _ _ _ Hall). apply newPackageCoverage_strip. }
  destruct (newCoverage_Some _ _ _ Hc) as (m' & Hm & _ & HP).
  split_and!.
  - rewrite newCoverage_unfold. simpl. eexists. split; [reflexivity|]. simpl.
    rewrite HP. unfold maps_Values.
    assert ((build coverPkgs).1.1 = strip_package <$> m') as ->.
    { apply map_eq. intros k. rewrite lookup_fmap, (merge_lookup _ _ _ k Hm).
      destruct ((build coverPkgs).1.1 !! k) as [pc0|] eqn:Hpc0; simpl; [|done].
      rewrite build_packages in Hpc0.
      destruct (last_named k coverPkgs) as [s|] eqn:Hs; simpl in Hpc0; [|done].
      injection Hpc0 as <-.
      assert (is_Some (add_all (newPackageCoverage s) (named k fnPkgs))) as [pc Hall].
      { destruct (merge_dom _ _ _ k Hm) as [pc Hk].
        - rewrite build_packages. rewrite Hs. simpl. eauto.
        - rewrite (merge_lookup _ _ _ k Hm), build_packages, Hs in Hk. eauto. }
      rewrite Hall. simpl. rewrite (add_all_strip _ _ _ Hall).
      by rewrite newPackageCoverage_strip. }
    rewrite (range_perm _ m'), (range_perm _ (strip_package <$> m')).
    rewrite map_to_list_fmap. rewrite <- !list_fmap_compose. done.
  - intros k. rewrite HP. split.
    + intros (pc & -> & Hpc)%list_elem_of_fmap. rewrite <- HP in Hpc.
      destruct (Hpkg pc Hpc) as (s & [Hs <-]%last_named_Some & _).
      by apply list_elem_of_fmap_2.
    + intros Hk. destruct (last_named k coverPkgs) as [s|] eqn:Hs;
        [|by apply last_named_None in Hs].
      destruct (merge_dom _ _ _ k Hm) as [pc Hpc].
      { rewrite build_packages, Hs. simpl. eauto. }
      assert (pc ∈ maps_Values m') as Hin by (apply maps_Values_elem; eauto).
      rewrite <- HP in Hin. destruct (Hpkg pc Hin) as (s' & Hs' & Hstrip).
      apply list_elem_of_fmap. exists pc. split; [|by rewrite <- HP].
      rewrite (merge_lookup _ _ _ k Hm), build_packages, Hs in Hpc. simpl in Hpc.
      apply add_all_strip in Hpc. rewrite newPackageCoverage_strip in Hpc.
      apply (f_equal PackageCoverage.Name) in Hpc. simpl in Hpc. rewrite Hpc.
      by apply last_named_Some in Hs as [_ ?].
  - exact Hpkg.
  - intros pc f Hpc Hf. by eapply newCoverage_file_stats.
Qed.

(** The report of [{A, B}] without its functions. *)
Lemma merge_changes_functions_only_witness :
  exists c0, @newCoverage forward_order [pkgA; pkgB] [] = Some c0
             /\ strip_package <$> Coverage.Packages reportAB ≡ₚ Coverage.Packages c0.
Proof.
  apply (@merge_changes_functions_only forward_order [pkgA; pkgB] [fnB; fnC] reportAB).
  vm_compute. reflexivity.
Defined.

(** C7. When every function name is non-empty, each conversion of a file
    group succeeds (the access to the first byte is in bounds) and
    [newCoverage] returns a report. *)
Theorem aggregation_never_fails `{MapOrder} coverPkgs fnPkgs :
  Forall names_ok fnPkgs ->
  (forall p name file,
     p ∈ fnPkgs -> gofunc.PackageFunctions.Files p !! name = Some file ->
     is_Some (toFunctions (gofunc.FileFunctions.Functions file)))
  /\ exists c, newCoverage coverPkgs fnPkgs = Some c.
Proof.
  intros Hok. split.
  - intros p name file Hp Hfile. apply toFunctions_Some.
    rewrite Forall_forall in Hok. exact (Hok p Hp name file Hfile).
  - exact (newCoverage_total coverPkgs fnPkgs Hok).
Qed.

(** The function names "run" and "Main" are non-empty. *)
Lemma aggregation_never_fails_witness :
  exists c, @newCoverage forward_order [pkgA; pkgB] [fnB; fnC] = Some c.
Proof.
  apply (@aggregation_never_fails forward_order [pkgA; pkgB] [fnB; fnC]).
  repeat constructor; intros name file Hfile; simpl in Hfile;
    apply lookup_insert_Some in Hfile as [[_ <-]|[_ Hfile]];
    try (by rewrite lookup_empty in Hfile);
    repeat constructor; simpl; discriminate.
Defined.

(** C8, amended.  When, besides, the package totals add up to at most the
    largest [int64], every percentage of the report (overall, of a file, of a
    function) is one of 0.0, 0.1, ..., 100.0, a finite value between 0 and
    100; and the overall percentage is 0.0 when the total is 0. *)
Theorem report_percentages_in_range `{MapOrder} coverPkgs fnPkgs c :
  statements_ok coverPkgs -> functions_ok fnPkgs ->
  sumZ (gocover.PackageStatements.Stmts <$> coverPkgs) <= int64_max ->
  newCoverage coverPkgs fnPkgs = Some c ->
  report_ok c
  /\ (sumZ (gocover.PackageStatements.Stmts <$> coverPkgs) = 0 ->
      Coverage.Percent c = 0%float).
Proof.
  intros Hst Hfn Hsum Hc.
  pose proof (sums_in_range coverPkgs Hst) as Hsums.
  destruct (newCoverage_Some _ _ _ Hc) as (m' & _ & Hp & _).
  rewrite !sum64_exact in Hp by (unfold is_int64, int64_min, int64_max in *; lia).
  split; [split|].
  - rewrite Hp. apply one_decimal_pct_ok, percent_one_decimal; lia.
  - intros pc f Hpc Hf. split.
    + destruct (newCoverage_file_stats _ _ _ _ _ Hc Hpc Hf) as (s & st & Hs & Hfile & -> & _).
      apply one_decimal_pct_ok. apply last_named_Some in Hs as [Hs _].
      by destruct (Hst s Hs) as (_ & _ & Hfiles); destruct (Hfiles _ _ Hfile).
    + intros g Hg. apply one_decimal_pct_ok.
      apply (newCoverage_package _ _ _ _ Hc) in Hpc as (s & _ & Hall).
      eapply (add_all_functions_in one_decimal); [exact Hall| | |exact Hf|exact Hg].
      * intros f' g' Hf' Hg'. rewrite (newPackageCoverage_no_functions _ _ Hf') in Hg'.
        by apply elem_of_nil in Hg'.
      * intros p name file f' Hp'. apply Hfn.
        unfold named in Hp'. by apply list_elem_of_filter in Hp' as [_ ?].
  - intros Hz. rewrite Hp, Hz. apply percent_zero_den.
Qed.

(** C8 as stated fails: two packages of 2^62 statements each, one fully
    covered and one not at all, make the [int64] total wrap around to -2^63,
    and the overall percentage is -50.0. *)
Lemma percentages_claim_fails : ~ percentages_claim.
Proof.
  intros Hclaim.
  destruct (Hclaim forward_order [hugeA; hugeB] [] hugeReport hugeAB_ok) as [[_ Hrange] _].
  - by intros p name file f ?%elem_of_nil.
  - vm_compute. reflexivity.
  - vm_compute in Hrange. discriminate.
Qed.

(** The report of [{A, B}]: 53.3 overall, 80.0 and 0.0 per file. *)
Lemma report_percentages_in_range_witness : report_ok reportAB.
Proof.
  apply (@report_percentages_in_range forward_order [pkgA; pkgB] [fnB; fnC] reportAB).
  - intros s Hs. unfold is_int64, int64_min, int64_max.
    apply elem_of_cons in Hs as [->|Hs]; [|apply elem_of_cons in Hs as [->|Hs]];
      [..|by apply elem_of_nil in Hs]; simpl; (split_and!; [lia|lia|lia|lia|]);
      intros name st Hfile;
      apply lookup_insert_Some in Hfile as [[_ <-]|[_ Hfile]];
      try (by rewrite lookup_empty in Hfile); simpl.
    + split_and!; try lia. exists 800. split; [lia|reflexivity].
    + split_and!; try lia. exists 0. split; [lia|reflexivity].
  - intros p name file f Hp Hfile Hf.
    apply elem_of_cons in Hp as [->|Hp]; [|apply elem_of_cons in Hp as [->|Hp]];
      [..|by apply elem_of_nil in Hp]; simpl in Hfile;
      apply lookup_insert_Some in Hfile as [[_ <-]|[_ Hfile]];
      try (by rewrite lookup_empty in Hfile); simpl in Hf;
      apply list_elem_of_singleton in Hf as ->; simpl.
    + exists 0. split; [lia|reflexivity].
    + exists 1000. split; [lia|reflexivity].
  - vm_compute. discriminate.
  - vm_compute. reflexivity.
Defined.

(** ** Runs with a new order at every [range] *)

Lemma build_is_run `{MapOrder} st coverPkgs :
  build_run st coverPkgs (foldl build_step st coverPkgs).
Proof.
  revert st. induction coverPkgs as [|pkg l IH]; intros st; simpl; [constructor|].
  econstructor. apply IH.
Qed.

Lemma merge_is_run `{MapOrder} packages fnPkgs :
  merge_run packages fnPkgs (merge packages fnPkgs).
Proof.
  revert packages. induction fnPkgs as [|pkg l IH]; intros packages; simpl; [constructor|].
  destruct (merge_step packages pkg) as [packages'|] eqn:Hstep; simpl.
  - econstructor; [exact Hstep|apply IH].
  - eapply merge_run_panic. exact Hstep.
Qed.

(** Every result of the function [newCoverage] is the result of a run. *)
Lemma newCoverage_is_run `{MapOrder} coverPkgs fnPkgs :
  newCoverage_run coverPkgs fnPkgs (newCoverage coverPkgs fnPkgs).
Proof.
  unfold newCoverage, build.
  pose proof (build_is_run (∅, 0, 0) coverPkgs) as Hbuild.
  destruct (foldl build_step (∅, 0, 0) coverPkgs) as [[packages covered] total].
  pose proof (merge_is_run packages fnPkgs) as Hmerge.
  destruct (merge packages fnPkgs) as [packages'|]; simpl.
  - by apply (run_report _ _ _ (packages, covered, total)).
  - by apply (run_panic _ _ (packages, covered, total)).
Qed.

Lemma last_named_cons k (s : gocover.PackageStatements.t) l :
  last_named k (s :: l)
  = match last_named k l with
    | Some s' => Some s'
    | None => if decide (gocover.PackageStatements.Package s = k) then Some s else None
    end.
Proof.
  unfold last_named.
  destruct (decide (gocover.PackageStatements.Package s = k)) as [Hk|Hk].
  - rewrite filter_cons_True by done.
    destruct (filter _ l) as [|s' l'] eqn:Hf; [done|].
    rewrite last_cons. by destruct (last (s' :: l')) eqn:Hl; [|apply last_None in Hl].
  - rewrite filter_cons_False by done. by destruct (last _).
Qed.

(** The package map after the first loop. *)
Lemma build_run_lookup st coverPkgs st' k :
  build_run st coverPkgs st' ->
  match last_named k coverPkgs with
  | Some s => exists order : MapOrder, st'.1.1 !! k = Some (@newPackageCoverage order s)
  | None => st'.1.1 !! k = st.1.1 !! k
  end.
Proof.
  induction 1 as [st|order st pkg l st' _ IH]; [done|].
  rewrite last_named_cons. destruct (last_named k l) as [s|]; [done|].
  rewrite IH. destruct st as [[packages covered] total]. simpl.
  destruct (decide (gocover.PackageStatements.Package pkg = k)) as [<-|Hk].
  - exists order. by rewrite lookup_insert_eq.
  - by rewrite lookup_insert_ne.
Qed.

Lemma named_cons k (p : gofunc.PackageFunctions.t) l :
  named k (p :: l)
  = if decide (gofunc.PackageFunctions.Package p = k) then p :: named k l else named k l.
Proof.
  unfold named. destruct (decide _); [by rewrite filter_cons_True|by rewrite filter_cons_False].
Qed.

(** The package map after the second loop: the entry under [k] went through
    the function-side packages called [k], and through no other. *)
Lemma merge_run_lookup packages fnPkgs packages' k :
  merge_run packages fnPkgs (Some packages') ->
  match packages !! k with
  | Some pc => exists pc', packages' !! k = Some pc' /\ add_run pc (named k fnPkgs) pc'
  | None => packages' !! k = None
  end.
Proof.
  intros Hrun. remember (Some packages') as r eqn:Hr. revert Hr.
  induction Hrun as [packages|order packages pkg l packages1 r Hstep _ IH|]; intros Hr.
  - injection Hr as <-. destruct (packages !! k) as [pc|]; [|done].
    exists pc. split; [done|constructor].
  - specialize (IH Hr). rewrite named_cons.
    rewrite (merge_step_lookup _ _ _ k Hstep) in IH.
    destruct (decide (gofunc.PackageFunctions.Package pkg = k)) as [Hk|Hk]; [|done].
    destruct (packages !! k) as [pc|] eqn:Hpc; simpl in IH; [|done].
    destruct (add pc pkg) as [pc1|] eqn:Hadd.
    2:{ exfalso. assert (merge_step packages pkg = None) as Hnone; [|congruence].
        apply merge_step_None. exists pc. by rewrite Hk. }
    destruct IH as (pc' & Hpc' & Hadds). exists pc'. split; [done|].
    by econstructor.
  - done.
Qed.

Lemma add_run_Name pc l pc' :
  add_run pc l pc' -> PackageCoverage.Name pc' = PackageCoverage.Name pc.
Proof.
  induction 1 as [|order pc p pc1 l pc' Hadd _ IH]; [done|].
  rewrite IH. apply add_strip in Hadd. by injection Hadd.
Qed.

(** Where the package stored under [k] at the end of a run comes from. *)
Lemma run_package st coverPkgs fnPkgs packages' k pc :
  build_run (∅, 0, 0) coverPkgs st ->
  merge_run st.1.1 fnPkgs (Some packages') ->
  packages' !! k = Some pc ->
  PackageCoverage.Name pc = k
  /\ exists s (order : MapOrder),
       last_named k coverPkgs = Some s
       /\ add_run (@newPackageCoverage order s) (named k fnPkgs) pc.
Proof.
  intros Hbuild Hmerge Hk.
  pose proof (build_run_lookup _ _ _ k Hbuild) as Hb.
  pose proof (merge_run_lookup _ _ _ k Hmerge) as Hm.
  destruct (last_named k coverPkgs) as [s|] eqn:Hs.
  - destruct Hb as [order Hb]. rewrite Hb in Hm.
    destruct Hm as (pc' & Hpc' & Hadds). assert (pc' = pc) as -> by congruence.
    split; [|eauto]. rewrite (add_run_Name _ _ _ Hadds). simpl.
    by apply last_named_Some in Hs as [_ ?].
  - simpl in Hb. rewrite lookup_empty in Hb. rewrite Hb in Hm. congruence.
Qed.

Lemma reportPP_run : newCoverage_run [pkgP] [fnP; fnP] (Some reportPP).
Proof.
  pose (st := @build_step forward_order (∅, 0, 0) pkgP).
  pose (packages1 := default st.1.1 (@merge_step forward_order st.1.1 fnP)).
  pose (packages2 := default packages1 (@merge_step backward_order packages1 fnP)).
  assert (reportPP = {| Coverage.Percent := percent st.1.2 st.2;
                        Coverage.Packages := @maps_Values forward_order _ packages2 |}) as ->
    by (vm_compute; reflexivity).
  apply (run_report _ _ forward_order st packages2).
  - apply (build_run_cons forward_order). constructor.
  - apply (merge_run_cons forward_order _ _ _ packages1); [vm_compute; reflexivity|].
    apply (merge_run_cons backward_order _ _ _ packages2); [vm_compute; reflexivity|].
    constructor.
Qed.

(** In this run both files of P hold their functions; no single order of
    the groups gives that. *)
Lemma reportPP_both_files : files_with_functions reportPP = ["y.go"; "x.go"].
Proof. vm_compute. reflexivity. Qed.

(** C9. In every run, each [range] taking an order of its own, the packages of
    the report have pairwise distinct names, which are the names of the
    statement-side packages; and the package named [k] is the one built from
    the last statement-side package [k], merged in turn with the function-side
    packages whose name equals [k] and with no other. *)
Theorem packages_keyed_by_name coverPkgs fnPkgs c :
  newCoverage_run coverPkgs fnPkgs (Some c) ->
  NoDup (PackageCoverage.Name <$> Coverage.Packages c)
  /\ (forall pc, pc ∈ Coverage.Packages c ->
        exists s (order : MapOrder),
          last_named (PackageCoverage.Name pc) coverPkgs = Some s
          /\ add_run (@newPackageCoverage order s)
               (named (PackageCoverage.Name pc) fnPkgs) pc)
  /\ (forall k, k ∈ gocover.PackageStatements.Package <$> coverPkgs ->
        exists pc, pc ∈ Coverage.Packages c /\ PackageCoverage.Name pc = k).
Proof.
  intros Hrun. inversion Hrun as [order st packages' Hbuild Hmerge Hc|]. subst c. simpl.
  clear Hrun. split_and!.
  - unfold maps_Values. rewrite <- list_fmap_compose.
    replace (PackageCoverage.Name ∘ snd <$> @range order _ packages')
      with (@range order _ packages').*1; [apply range_NoDup_keys|].
    apply Forall_fmap_ext_1, Forall_forall. intros [k pc] Hin%range_lookup. simpl.
    by destruct (run_package _ _ _ _ _ _ Hbuild Hmerge Hin) as [-> _].
  - intros pc [k Hk]%maps_Values_elem.
    by destruct (run_package _ _ _ _ _ _ Hbuild Hmerge Hk) as [-> ?].
  - intros k Hk.
    pose proof (build_run_lookup _ _ _ k Hbuild) as Hb.
    pose proof (merge_run_lookup _ _ _ k Hmerge) as Hm.
    destruct (last_named k coverPkgs) as [s|] eqn:Hs; [|by apply last_named_None in Hs].
    destruct Hb as [order0 Hb]. rewrite Hb in Hm. destruct Hm as (pc & Hpc & Hadds).
    exists pc. split; [apply maps_Values_elem; eauto|].
    by destruct (run_package _ _ _ _ _ _ Hbuild Hmerge Hpc).
Qed.

(** The run in which both files of P are filled. *)
Lemma packages_keyed_by_name_witness :
  NoDup (PackageCoverage.Name <$> Coverage.Packages reportPP).
Proof.
  apply (packages_keyed_by_name [pkgP] [fnP; fnP] reportPP). apply reportPP_run.
Defined.

(** C10. The overall percentage is a function of the statement-side input
    alone: two aggregations of the same statement-side input report the same
    percentage, whatever the two function-side inputs are, and whatever the
    order in which each run visits its maps. *)
Theorem overall_percent_ignores_functions (order1 order2 : MapOrder)
    coverPkgs fnPkgs1 fnPkgs2 c1 c2 :
  @newCoverage order1 coverPkgs fnPkgs1 = Some c1 ->
  @newCoverage order2 coverPkgs fnPkgs2 = Some c2 ->
  Coverage.Percent c1 = Coverage.Percent c2.
Proof.
  intros (_ & _ & -> & _)%newCoverage_Some (_ & _ & -> & _)%newCoverage_Some.
  reflexivity.
Qed.

(** With and without function data, under two orders. *)
Lemma overall_percent_ignores_functions_witness :
  Coverage.Percent reportAB
  = Coverage.Percent (default reportAB (@newCoverage backward_order [pkgA; pkgB] [])).
Proof.
  apply (overall_percent_ignores_functions forward_order backward_order
           [pkgA; pkgB] [fnB; fnC] []).
  - vm_compute. reflexivity.
  - vm_compute. reflexivity.
Defined.

(** * Further properties of the code *)

(** ** [PackageCoverage.Functions] *)

Lemma Functions_from (fs : list FileCoverage.t) (acc : list FunctionCoverage.t) :
  foldl (fun funcs f => funcs ++ FileCoverage.Functions f) acc fs
  = acc ++ mjoin (FileCoverage.Functions <$> fs).
Proof.
  revert acc. induction fs as [|f fs IH]; intros acc; simpl.
  - by rewrite app_nil_r.
  - by rewrite IH, app_assoc.
Qed.

(** X1. [Functions] returns the function lists of the files, concatenated
    in file order: a function is returned exactly when some file of the
    package holds it, and as often as the files hold it. *)
Theorem Functions_is_concatenation (pc : PackageCoverage.t) :
  PackageCoverage_Functions pc = mjoin (FileCoverage.Functions <$> PackageCoverage.Files pc)
  /\ (forall g, g ∈ PackageCoverage_Functions pc <->
        exists f, f ∈ PackageCoverage.Files pc /\ g ∈ FileCoverage.Functions f)
  /\ length (PackageCoverage_Functions pc)
     = sum_list (length ∘ FileCoverage.Functions <$> PackageCoverage.Files pc).
Proof.
  unfold PackageCoverage_Functions. rewrite Functions_from. simpl. split_and!; [done| |].
  - intros g. rewrite list_elem_of_join. split.
    + intros (l & Hg & (f & -> & Hf)%list_elem_of_fmap). eauto.
    + intros (f & Hf & Hg). exists (FileCoverage.Functions f). split; [done|].
      by apply list_elem_of_fmap_2.
  - by rewrite length_join, <- list_fmap_compose.
Qed.

Section FunctionsFacts.
Context `{MapOrder}.

Lemma Functions_all_empty (fs : list FileCoverage.t) :
  (forall f, f ∈ fs -> FileCoverage.Functions f = []) ->
  mjoin (FileCoverage.Functions <$> fs) = [].
Proof.
  intros Hempty. apply join_nil_2, Forall_fmap, Forall_forall. exact Hempty.
Qed.

Lemma Functions_insert_fresh (fs : list FileCoverage.t) i f fns :
  (forall f', f' ∈ fs -> FileCoverage.Functions f' = []) ->
  fs !! i = Some f ->
  mjoin (FileCoverage.Functions <$> <[i := with_functions f fns]> fs) = fns.
Proof.
  revert i. induction fs as [|f0 fs IH]; intros i Hempty Hi; [done|].
  destruct i as [|i]; csimpl in *.
  - rewrite Functions_all_empty, app_nil_r; [done|].
    intros f' Hf'. apply Hempty. by right.
  - rewrite (Hempty f0) by by left. csimpl. apply IH; [|done].
    intros f' Hf'. apply Hempty. by right.
Qed.

(** X2. After one function-side package is merged into a freshly built
    package, [Functions] returns the converted records of a single file
    group, one whose name is a statement-side file, or nothing: never the
    functions of two files. *)
Theorem Functions_after_one_merge (s : gocover.PackageStatements.t)
    (p : gofunc.PackageFunctions.t) (pc' : PackageCoverage.t) :
  add (newPackageCoverage s) p = Some pc' ->
  PackageCoverage_Functions pc' = []
  \/ exists name file fns,
       gofunc.PackageFunctions.Files p !! name = Some file
       /\ is_Some (gocover.PackageStatements.Files s !! name)
       /\ toFunctions (gofunc.FileFunctions.Functions file) = Some fns
       /\ PackageCoverage_Functions pc' = fns.
Proof.
  unfold add. intros Hadd.
  destruct (add_groups _ _) as [fs|] eqn:Hfs; simpl in Hadd; [|done].
  injection Hadd as <-. unfold PackageCoverage_Functions. rewrite Functions_from. simpl.
  pose proof (newPackageCoverage_no_functions s) as Hempty.
  destruct (add_groups_outcome (range (gofunc.PackageFunctions.Files p))
              (PackageCoverage.Files (newPackageCoverage s)))
    as [_ | before after name file i f Hgroups _ Hi Hname _].
  - injection Hfs as <-. left. by apply Functions_all_empty.
  - destruct (toFunctions _) as [fns|] eqn:Hfns; simpl in Hfs; [|done].
    injection Hfs as <-. right. exists name, file, fns. split_and!; [| |done|].
    + apply range_lookup. rewrite Hgroups. apply elem_of_app. right. by left.
    + assert (f ∈ PackageCoverage.Files (newPackageCoverage s)) as Hf
        by (by eapply list_elem_of_lookup_2).
      apply newPackageCoverage_file in Hf as (st & Hst & _). rewrite Hname in Hst. eauto.
    + by apply Functions_insert_fresh.
Qed.

End FunctionsFacts.

(** ** Panics of the conversion and of [add] *)

Lemma toFunction_None f : toFunction f = None <-> gofunc.Function.Function f = "".
Proof.
  unfold toFunction. destruct (gofunc.Function.Function f); simpl; split; done.
Qed.

Lemma toFunctions_None (l : list gofunc.Function.t) :
  toFunctions l = None <-> exists f, f ∈ l /\ gofunc.Function.Function f = "".
Proof.
  split.
  - intros Hnone.
    destruct (decide (Forall (fun f => gofunc.Function.Function f <> "") l)) as [Hall|Hex].
    + destruct (toFunctions_Some l Hall) as [fns Hfns]. congruence.
    + apply not_Forall_Exists in Hex; [|apply _].
      apply Exists_exists in Hex as (f & Hf & Hname). exists f. split; [done|].
      by destruct (decide (gofunc.Function.Function f = "")).
  - intros (f & Hf & Hname). destruct (toFunctions l) as [fns|] eqn:Hfns; [|done].
    apply mapM_Some in Hfns. apply list_elem_of_lookup in Hf as [i Hi].
    destruct (Forall2_lookup_l _ _ _ _ _ Hfns Hi) as (g & _ & Hg).
    apply toFunction_None in Hname. congruence.
Qed.

(** X3. [toFunctions] panics exactly when some record has the empty name;
    otherwise it returns one record per input record. *)
Theorem toFunctions_panics_iff_empty_name (l : list gofunc.Function.t) :
  (toFunctions l = None <-> exists f, f ∈ l /\ gofunc.Function.Function f = "")
  /\ (forall fns, toFunctions l = Some fns -> length fns = length l).
Proof.
  split; [apply toFunctions_None|].
  intros fns Hfns%mapM_Some. by erewrite <- Forall2_length.
Qed.

Section AddPanics.
Context `{MapOrder}.

(** X4. [add] inspects the function names of one file group at most, the
    first one in iteration order that names a file of the package: when no
    group names a file the package is returned as it is, whatever the
    function names are; and a panic of [add] comes from a group that names a
    file of the package and holds a record with the empty name. *)
Theorem add_inspects_matching_group_only (pc : PackageCoverage.t)
    (p : gofunc.PackageFunctions.t) :
  ((forall name, is_Some (gofunc.PackageFunctions.Files p !! name) ->
      name ∉ FileCoverage.Name <$> PackageCoverage.Files pc) ->
   add pc p = Some pc)
  /\ (add pc p = None ->
      exists name file f,
        gofunc.PackageFunctions.Files p !! name = Some file
        /\ name ∈ FileCoverage.Name <$> PackageCoverage.Files pc
        /\ f ∈ gofunc.FileFunctions.Functions file
        /\ gofunc.Function.Function f = "").
Proof.
  unfold add.
  destruct (add_groups_outcome (range (gofunc.PackageFunctions.Files p))
              (PackageCoverage.Files pc))
    as [Hnone | before after name file i f Hgroups _ Hi Hname _].
  - simpl. split; [by destruct pc|done].
  - assert (gofunc.PackageFunctions.Files p !! name = Some file) as Hfile.
    { apply range_lookup. rewrite Hgroups. apply elem_of_app. right. by left. }
    assert (name ∈ FileCoverage.Name <$> PackageCoverage.Files pc) as Hin.
    { rewrite <- Hname. apply list_elem_of_fmap_2. by eapply list_elem_of_lookup_2. }
    split.
    + intros Hno. destruct (Hno name); eauto.
    + destruct (toFunctions (gofunc.FileFunctions.Functions file)) as [fns|] eqn:Hfns;
        simpl; [done|]. intros _.
      apply toFunctions_None in Hfns as (f0 & Hf0 & Hempty).
      eauto 10.
Qed.

End AddPanics.

(** ** Replacement, not accumulation *)

Lemma add_scan_after_set name (g1 g2 : gofunc.FileFunctions.t) fs fs1 :
  add_scan name g1 fs = Some (Some fs1) ->
  add_scan name g2 fs1 = add_scan name g2 fs.
Proof.
  revert fs1. induction fs as [|f rest IH]; intros fs1 Hscan; simpl in Hscan; [done|].
  destruct (decide (FileCoverage.Name f = name)) as [Hname|Hname].
  - destruct (toFunctions (gofunc.FileFunctions.Functions g1)) as [fns1|];
      simpl in Hscan; [|done].
    injection Hscan as <-. simpl.
    rewrite decide_True by done. by rewrite decide_True by done.
  - destruct (add_scan name g1 rest) as [[rest1|]|] eqn:Hrest; try done.
    injection Hscan as <-. simpl. rewrite !decide_False by done.
    by rewrite (IH rest1 eq_refl).
Qed.

Lemma add_scan_Some_None name (g : gofunc.FileFunctions.t) fs :
  add_scan name g fs = Some None <-> name ∉ FileCoverage.Name <$> fs.
Proof.
  split; [|apply add_scan_no_match].
  intros Hscan Hin.
  destruct (add_scan_match name g fs Hin) as (i & f & _ & _ & _ & Heq).
  rewrite Heq in Hscan. by destruct (toFunctions _).
Qed.

Lemma add_single (order : MapOrder) pc p name g :
  gofunc.PackageFunctions.Files p = {[name := g]} ->
  @add order pc p
  = match add_scan name g (PackageCoverage.Files pc) with
    | None => None
    | Some (Some fs') =>
        Some {| PackageCoverage.Name := PackageCoverage.Name pc;
                PackageCoverage.Files := fs' |}
    | Some None => Some pc
    end.
Proof.
  intros Hp. unfold add. rewrite Hp, range_singleton. simpl.
  destruct (add_scan name g (PackageCoverage.Files pc)) as [[fs'|]|]; try done.
  by destruct pc.
Qed.

(** X5. Replacement, not accumulation: when two function-side packages
    each hold one group, for the same file, merging the first and then the
    second gives what merging the second alone gives; in particular merging
    the same package twice is merging it once.  This holds whatever the
    iteration orders of the three merges are. *)
Theorem add_replaces_functions (order1 order2 order3 : MapOrder)
    (pc pc1 : PackageCoverage.t) (p1 p2 : gofunc.PackageFunctions.t)
    (name : string) (g1 g2 : gofunc.FileFunctions.t) :
  gofunc.PackageFunctions.Files p1 = {[name := g1]} ->
  gofunc.PackageFunctions.Files p2 = {[name := g2]} ->
  @add order1 pc p1 = Some pc1 ->
  @add order2 pc1 p2 = @add order3 pc p2.
Proof.
  intros Hp1 Hp2. rewrite (add_single order1 pc p1 name g1 Hp1).
  rewrite (add_single order2 pc1 p2 name g2 Hp2), (add_single order3 pc p2 name g2 Hp2).
  destruct (add_scan name g1 (PackageCoverage.Files pc)) as [[fs1|]|] eqn:Hscan; [| |done].
  - intros [= <-]. simpl. rewrite (add_scan_after_set name g1 g2 _ fs1 Hscan).
    destruct (add_scan name g2 (PackageCoverage.Files pc)) as [[fs2|]|] eqn:Hscan2; try done.
    apply add_scan_Some_None in Hscan2.
    apply (add_scan_no_match name g1) in Hscan2. congruence.
  - by intros [= <-].
Qed.

(** ** The files of a freshly built package *)

Section FreshPackage.
Context `{MapOrder}.

(** X6. [newPackageCoverage] makes one file record per statement-side
    file: up to their order the files are the statement-side entries, each
    with its own name, percentage and counts and with no functions; the file
    names are pairwise distinct, and there are as many files as entries. *)
Theorem newPackageCoverage_one_file_per_entry (s : gocover.PackageStatements.t) :
  PackageCoverage.Files (newPackageCoverage s)
  ≡ₚ (fun '(name, st) => newFileCoverage name st)
       <$> map_to_list (gocover.PackageStatements.Files s)
  /\ NoDup (FileCoverage.Name <$> PackageCoverage.Files (newPackageCoverage s))
  /\ length (PackageCoverage.Files (newPackageCoverage s))
     = size (gocover.PackageStatements.Files s).
Proof.
  assert (PackageCoverage.Files (newPackageCoverage s)
          ≡ₚ (fun '(name, st) => newFileCoverage name st)
               <$> map_to_list (gocover.PackageStatements.Files s)) as Hperm.
  { apply NoDup_Permutation.
    - eapply NoDup_fmap_1, newPackageCoverage_NoDup.
    - apply (NoDup_fmap_1 FileCoverage.Name). rewrite <- list_fmap_compose.
      replace (FileCoverage.Name ∘ (fun '(name, st) => newFileCoverage name st)
                 <$> map_to_list (gocover.PackageStatements.Files s))
        with (map_to_list (gocover.PackageStatements.Files s)).*1;
        [apply NoDup_fst_map_to_list|].
      apply Forall_fmap_ext_1, Forall_forall. by intros [name st] _.
    - intros f. rewrite newPackageCoverage_file, list_elem_of_fmap. split.
      + intros (st & Hst & Hf). exists (FileCoverage.Name f, st). split; [done|].
        by apply elem_of_map_to_list.
      + intros ([name st] & -> & Hin%elem_of_map_to_list). simpl. eauto. }
  split_and!; [done|apply newPackageCoverage_NoDup|].
  by rewrite Hperm, length_fmap, length_map_to_list.
Qed.

End FreshPackage.

(** ** Inputs in another order *)

Lemma sumZ_Permutation (l l' : list Z) : l ≡ₚ l' -> sumZ l = sumZ l'.
Proof.
  induction 1 as [|x l l' _ IH|x y l|l l' l'' _ IH1 _ IH2]; simpl; lia.
Qed.

Lemma sum64_Permutation (l l' : list Z) : l ≡ₚ l' -> sum64 l = sum64 l'.
Proof. intros Hl. by rewrite !sum64_wrap, (sumZ_Permutation l l' Hl). Qed.

Lemma filter_name_short (k : string) (l : list gocover.PackageStatements.t) :
  NoDup (gocover.PackageStatements.Package <$> l) ->
  (length (filter (fun s => gocover.PackageStatements.Package s = k) l) <= 1)%nat.
Proof.
  induction l as [|s l IH]; intros Hnd; [simpl; lia|].
  rewrite fmap_cons in Hnd. apply NoDup_cons in Hnd as [Hs Hnd].
  destruct (decide (gocover.PackageStatements.Package s = k)) as [Hk|Hk].
  - rewrite filter_cons_True by done.
    assert (filter (fun s => gocover.PackageStatements.Package s = k) l = []) as ->; [|simpl; lia].
    apply last_None. apply last_named_None. by rewrite <- Hk.
  - rewrite filter_cons_False by done. by apply IH.
Qed.

Lemma last_named_Permutation k (l l' : list gocover.PackageStatements.t) :
  l ≡ₚ l' -> NoDup (gocover.PackageStatements.Package <$> l) ->
  last_named k l = last_named k l'.
Proof.
  intros Hperm Hnd. unfold last_named.
  pose proof (filter_name_short k l Hnd) as Hlen.
  assert (filter (fun s => gocover.PackageStatements.Package s = k) l
          ≡ₚ filter (fun s => gocover.PackageStatements.Package s = k) l') as Hf
    by (by rewrite Hperm).
  destruct (filter _ l) as [|s [|? ?]]; simpl in Hlen; [| |lia].
  - apply Permutation_nil_l in Hf. by rewrite <- Hf.
  - apply Permutation_singleton_l in Hf. by rewrite <- Hf.
Qed.

Section OtherOrder.
Context `{MapOrder}.

Lemma build_Permutation (l l' : list gocover.PackageStatements.t) :
  l ≡ₚ l' -> NoDup (gocover.PackageStatements.Package <$> l) ->
  (build l).1.1 = (build l').1.1.
Proof.
  intros Hperm Hnd. apply map_eq. intros k.
  by rewrite !build_packages, (last_named_Permutation k l l' Hperm Hnd).
Qed.

(** X7. The order of the statement-side packages does not matter: the
    overall percentage is the same for every reordering, and when the package
    names are pairwise distinct so is the whole report. *)
Theorem statement_package_order_irrelevant
    (coverPkgs coverPkgs' : list gocover.PackageStatements.t)
    (fnPkgs : list gofunc.PackageFunctions.t) :
  coverPkgs ≡ₚ coverPkgs' ->
  (forall c c', newCoverage coverPkgs fnPkgs = Some c ->
                newCoverage coverPkgs' fnPkgs = Some c' ->
                Coverage.Percent c = Coverage.Percent c')
  /\ (NoDup (gocover.PackageStatements.Package <$> coverPkgs) ->
      newCoverage coverPkgs fnPkgs = newCoverage coverPkgs' fnPkgs).
Proof.
  intros Hperm.
  assert (sum64 (gocover.PackageStatements.CoveredStmts <$> coverPkgs)
          = sum64 (gocover.PackageStatements.CoveredStmts <$> coverPkgs')) as Hcov
    by (apply sum64_Permutation; by rewrite Hperm).
  assert (sum64 (gocover.PackageStatements.Stmts <$> coverPkgs)
          = sum64 (gocover.PackageStatements.Stmts <$> coverPkgs')) as Htot
    by (apply sum64_Permutation; by rewrite Hperm).
  split.
  - intros c c' (_ & _ & -> & _)%newCoverage_Some (_ & _ & -> & _)%newCoverage_Some.
    by rewrite Hcov, Htot.
  - intros Hnd. rewrite !newCoverage_unfold.
    by rewrite (build_Permutation _ _ Hperm Hnd), Hcov, Htot.
Qed.

(** Two merge steps for packages of different names commute. *)
Lemma merge_step_comm m (p q : gofunc.PackageFunctions.t) :
  gofunc.PackageFunctions.Package p <> gofunc.PackageFunctions.Package q ->
  merge_step m p ≫= (fun m1 => merge_step m1 q)
  = merge_step m q ≫= (fun m1 => merge_step m1 p).
Proof.
  intros Hne. unfold merge_step.
  destruct (m !! gofunc.PackageFunctions.Package p) as [pcp|] eqn:Hp;
    destruct (m !! gofunc.PackageFunctions.Package q) as [pcq|] eqn:Hq; simpl.
  - destruct (add pcp p) as [pcp'|] eqn:Hap; destruct (add pcq q) as [pcq'|] eqn:Haq; simpl;
      rewrite ?lookup_insert_ne by done; rewrite ?Hp, ?Hq; simpl;
      rewrite ?Hap, ?Haq; simpl; try done.
    f_equal. by apply insert_insert_ne.
  - destruct (add pcp p) as [pcp'|] eqn:Hadd; simpl;
      rewrite ?lookup_insert_ne by done; rewrite ?Hp, ?Hq; simpl; by rewrite ?Hadd.
  - destruct (add pcq q) as [pcq'|] eqn:Hadd; simpl;
      rewrite ?lookup_insert_ne by done; rewrite ?Hp, ?Hq; simpl; by rewrite ?Hadd.
  - by rewrite Hp, Hq.
Qed.

End OtherOrder.

Section OtherOrderOfFunctions.
Context `{MapOrder}.

Lemma merge_Permutation (fnPkgs fnPkgs' : list gofunc.PackageFunctions.t) :
  fnPkgs ≡ₚ fnPkgs' ->
  NoDup (gofunc.PackageFunctions.Package <$> fnPkgs) ->
  forall m, merge m fnPkgs = merge m fnPkgs'.
Proof.
  induction 1 as [|p l l' Hl IH|p q l|l l' l'' Hl IH1 Hl' IH2]; intros Hnd m.
  - done.
  - rewrite fmap_cons in Hnd. apply NoDup_cons in Hnd as [_ Hnd]. simpl.
    destruct (merge_step m p) as [m1|]; simpl; [by apply IH|done].
  - rewrite !fmap_cons in Hnd. apply NoDup_cons in Hnd as [Hq _].
    apply not_elem_of_cons in Hq as [Hne _]. simpl.
    pose proof (merge_step_comm m q p Hne) as Hcomm.
    destruct (merge_step m q) as [mq|] eqn:Hmq; destruct (merge_step m p) as [mp|] eqn:Hmp;
      simpl in *; try done.
    + destruct (merge_step mq p) as [m2|]; destruct (merge_step mp q) as [m2'|];
        simpl in *; try done. by injection Hcomm as ->.
    + by rewrite Hcomm.
    + by rewrite <- Hcomm.
  - rewrite IH1 by done. apply IH2. by rewrite <- Hl.
Qed.

(** X8. When the function-side package names are pairwise distinct, the
    order in which the merge loop visits the packages does not matter: every
    reordering gives the same outcome, a panic included. *)
Theorem function_package_order_irrelevant (coverPkgs : list gocover.PackageStatements.t)
    (fnPkgs fnPkgs' : list gofunc.PackageFunctions.t) :
  fnPkgs ≡ₚ fnPkgs' ->
  NoDup (gofunc.PackageFunctions.Package <$> fnPkgs) ->
  newCoverage coverPkgs fnPkgs = newCoverage coverPkgs fnPkgs'.
Proof.
  intros Hperm Hnd. rewrite !newCoverage_unfold.
  by rewrite (merge_Permutation _ _ Hperm Hnd).
Qed.

Lemma last_named_shadowed k l1 (s : gocover.PackageStatements.t) l2 :
  gocover.PackageStatements.Package s ∈ gocover.PackageStatements.Package <$> l2 ->
  last_named k (l1 ++ s :: l2) = last_named k (l1 ++ l2).
Proof.
  intros Hin. unfold last_named. rewrite !filter_app.
  destruct (decide (gocover.PackageStatements.Package s = k)) as [Hk|Hk].
  - rewrite filter_cons_True by done.
    destruct (filter (fun s0 => gocover.PackageStatements.Package s0 = k) l2)
      as [|s2 l2'] eqn:Hf.
    + exfalso. apply last_None in Hf. apply last_named_None in Hf. by rewrite <- Hk in Hf.
    + rewrite !last_app. by rewrite last_cons_cons.
  - by rewrite filter_cons_False by done.
Qed.

(** X9. A statement-side package that is followed by another one of the same
    name leaves nothing in the packages of the report, which are those of
    the input without it; its counts still enter the overall percentage. *)
Theorem shadowed_statement_package (l1 l2 : list gocover.PackageStatements.t)
    (s : gocover.PackageStatements.t) (fnPkgs : list gofunc.PackageFunctions.t) :
  gocover.PackageStatements.Package s ∈ gocover.PackageStatements.Package <$> l2 ->
  Coverage.Packages <$> newCoverage (l1 ++ s :: l2) fnPkgs
  = Coverage.Packages <$> newCoverage (l1 ++ l2) fnPkgs
  /\ Coverage.Percent <$> newCoverage (l1 ++ s :: l2) fnPkgs
     = (fun _ => percent (sum64 (gocover.PackageStatements.CoveredStmts <$> l1 ++ s :: l2))
                         (sum64 (gocover.PackageStatements.Stmts <$> l1 ++ s :: l2)))
         <$> newCoverage (l1 ++ l2) fnPkgs.
Proof.
  intros Hin.
  assert ((build (l1 ++ s :: l2)).1.1 = (build (l1 ++ l2)).1.1) as Hmap.
  { apply map_eq. intros k. by rewrite !build_packages, (last_named_shadowed k l1 s l2 Hin). }
  rewrite !newCoverage_unfold, Hmap.
  by destruct (merge (build (l1 ++ l2)).1.1 fnPkgs).
Qed.

Lemma range_nil {V : Type} : range (∅ : gmap string V) = [].
Proof.
  apply Permutation_nil_r. rewrite (range_perm V ∅). by rewrite map_to_list_empty.
Qed.

Lemma merge_all_unmatched m (fnPkgs : list gofunc.PackageFunctions.t) :
  (forall p, p ∈ fnPkgs -> m !! gofunc.PackageFunctions.Package p = None) ->
  merge m fnPkgs = Some m.
Proof.
  induction fnPkgs as [|p l IH]; intros Hun; [done|]. simpl.
  rewrite merge_skip by (apply Hun; by left). simpl.
  apply IH. intros q Hq. apply Hun. by right.
Qed.

(** X10. Function data that matches no statement-side package is never
    looked into: when no function-side package name is a statement-side
    package name, [newCoverage] returns the report of the statement side
    alone, even if function names are empty; with no statement-side package
    at all the report is empty with percentage 0.0. *)
Theorem unmatched_function_data_never_inspected
    (coverPkgs : list gocover.PackageStatements.t)
    (fnPkgs : list gofunc.PackageFunctions.t) :
  (forall p, p ∈ fnPkgs ->
     gofunc.PackageFunctions.Package p ∉ gocover.PackageStatements.Package <$> coverPkgs) ->
  newCoverage coverPkgs fnPkgs = newCoverage coverPkgs []
  /\ is_Some (newCoverage coverPkgs fnPkgs)
  /\ newCoverage [] fnPkgs = Some {| Coverage.Percent := 0; Coverage.Packages := [] |}.
Proof.
  intros Hun.
  assert (forall cov, (forall p, p ∈ fnPkgs ->
            gofunc.PackageFunctions.Package p ∉ gocover.PackageStatements.Package <$> cov) ->
          newCoverage cov fnPkgs = newCoverage cov []) as Heq.
  { intros cov Hcov. rewrite !newCoverage_unfold. simpl merge.
    rewrite merge_all_unmatched; [done|].
    intros p Hp. apply build_lookup_None. by apply Hcov. }
  split_and!.
  - by apply Heq.
  - rewrite (Heq _ Hun), newCoverage_unfold. simpl. eauto.
  - rewrite Heq by (intros p _ Hin; by apply elem_of_nil in Hin).
    rewrite newCoverage_unfold. simpl. unfold maps_Values. by rewrite range_nil.
Qed.

End OtherOrderOfFunctions.

(** ** Instances on the sample inputs *)

Lemma Functions_after_one_merge_witness :
  exists pc',
    @add forward_order (@newPackageCoverage forward_order pkgB) fnB = Some pc'
    /\ (PackageCoverage_Functions pc' = []
        \/ exists name file fns,
             gofunc.PackageFunctions.Files fnB !! name = Some file
             /\ is_Some (gocover.PackageStatements.Files pkgB !! name)
             /\ toFunctions (gofunc.FileFunctions.Functions file) = Some fns
             /\ PackageCoverage_Functions pc' = fns).
Proof.
  destruct (@add forward_order (@newPackageCoverage forward_order pkgB) fnB) as [pc'|] eqn:Hadd;
    [|vm_compute in Hadd; discriminate].
  exists pc'. split; [reflexivity|].
  exact (@Functions_after_one_merge forward_order pkgB fnB pc' Hadd).
Defined.

Lemma add_replaces_functions_witness :
  exists pc1,
    @add forward_order (@newPackageCoverage forward_order pkgB) fnB = Some pc1
    /\ @add backward_order pc1 fnB
       = @add forward_order (@newPackageCoverage forward_order pkgB) fnB.
Proof.
  destruct (@add forward_order (@newPackageCoverage forward_order pkgB) fnB) as [pc1|] eqn:Hadd;
    [|vm_compute in Hadd; discriminate].
  exists pc1. split; [reflexivity|]. rewrite <- Hadd.
  apply (add_replaces_functions forward_order backward_order forward_order
           (@newPackageCoverage forward_order pkgB) pc1 fnB fnB
           "b.go" (group [fn "run" "b.go" 4 0]) (group [fn "run" "b.go" 4 0]));
    [reflexivity|reflexivity|exact Hadd].
Defined.

Lemma statement_package_order_irrelevant_witness :
  (forall c c', @newCoverage forward_order [pkgA; pkgB] [fnB; fnC] = Some c ->
                @newCoverage forward_order [pkgB; pkgA] [fnB; fnC] = Some c' ->
                Coverage.Percent c = Coverage.Percent c')
  /\ (NoDup (gocover.PackageStatements.Package <$> [pkgA; pkgB]) ->
      @newCoverage forward_order [pkgA; pkgB] [fnB; fnC]
      = @newCoverage forward_order [pkgB; pkgA] [fnB; fnC]).
Proof.
  apply (@statement_package_order_irrelevant forward_order [pkgA; pkgB] [pkgB; pkgA] [fnB; fnC]).
  apply perm_swap.
Defined.

Lemma function_package_order_irrelevant_witness :
  @newCoverage forward_order [pkgA; pkgB] [fnB; fnC]
  = @newCoverage forward_order [pkgA; pkgB] [fnC; fnB].
Proof.
  apply (@function_package_order_irrelevant forward_order [pkgA; pkgB] [fnB; fnC] [fnC; fnB]).
  - apply perm_swap.
  - simpl. repeat constructor; [|apply not_elem_of_nil].
    intros Hin. apply list_elem_of_singleton in Hin. discriminate.
Defined.

Lemma shadowed_statement_package_witness :
  Coverage.Packages <$> @newCoverage forward_order ([pkgA] ++ hugeB :: [pkgB]) [fnB]
  = Coverage.Packages <$> @newCoverage forward_order ([pkgA] ++ [pkgB]) [fnB]
  /\ Coverage.Percent <$> @newCoverage forward_order ([pkgA] ++ hugeB :: [pkgB]) [fnB]
     = (fun _ => percent
                   (sum64 (gocover.PackageStatements.CoveredStmts <$> [pkgA] ++ hugeB :: [pkgB]))
                   (sum64 (gocover.PackageStatements.Stmts <$> [pkgA] ++ hugeB :: [pkgB])))
         <$> @newCoverage forward_order ([pkgA] ++ [pkgB]) [fnB].
Proof.
  apply (@shadowed_statement_package forward_order [pkgA] [pkgB] hugeB [fnB]).
  simpl. apply list_elem_of_singleton. reflexivity.
Defined.

Lemma unmatched_function_data_never_inspected_witness :
  @newCoverage forward_order [pkgA] [fnB; fnC] = @newCoverage forward_order [pkgA] []
  /\ is_Some (@newCoverage forward_order [pkgA] [fnB; fnC])
  /\ @newCoverage forward_order [] [fnB; fnC]
     = Some {| Coverage.Percent := 0; Coverage.Packages := [] |}.
Proof.
  apply (@unmatched_function_data_never_inspected forward_order [pkgA] [fnB; fnC]).
  intros p Hp Hin. simpl in Hin. apply list_elem_of_singleton in Hin.
  apply elem_of_cons in Hp as [->|Hp]; [discriminate|].
  apply list_elem_of_singleton in Hp as ->. discriminate.
Defined.

(** ** Errors of the [go] tool *)

Lemma fmt_Errorf_fresh (err : error) (before after : string) :
  fmt_Errorf before err after <> err.
Proof.
  revert before after. induction err as [msg|msg Stderr|b err IH a]; intros before after;
    [discriminate|discriminate|].
  intros [= -> Herr ->]. by eapply IH.
Qed.

Lemma string_app_nil_r (s : string) : s +:+ "" = s.
Proof.
  induction s as [|a s IH]; [done|].
  change (String a (s +:+ "") = String a s). by rewrite IH.
Qed.

Lemma string_app_assoc (s1 s2 s3 : string) : (s1 +:+ s2) +:+ s3 = s1 +:+ s2 +:+ s3.
Proof.
  induction s1 as [|a s1 IH]; [done|].
  change (String a ((s1 +:+ s2) +:+ s3) = String a (s1 +:+ s2 +:+ s3)). by rewrite IH.
Qed.

Lemma on_chain_As (target err : error) :
  on_chain target err -> is_Some (errors_As_ExitError target) ->
  errors_As_ExitError err = errors_As_ExitError target.
Proof. induction 1 as [|before err after _ IH]; intros Hsome; simpl; auto. Qed.

(** The message of the error that [handleExecError] returns. *)
Lemma handleExecError_message (err : error) :
  Error (handleExecError err)
  = Error err +:+
    match errors_As_ExitError err with
    | Some Stderr => if decide (Stderr = "") then "" else ", stderr " +:+ Stderr
    | None => ""
    end
  /\ on_chain err (handleExecError err).
Proof.
  unfold handleExecError. destruct (errors_As_ExitError err) as [Stderr|].
  - destruct (decide (0 < String.length Stderr)%nat) as [Hlen|Hlen].
    + rewrite decide_False by (intros ->; simpl in Hlen; lia).
      split; [done|]. constructor. constructor.
    + rewrite decide_True by (destruct Stderr; [done|simpl in Hlen; lia]).
      rewrite string_app_nil_r. split; [done|constructor].
  - rewrite string_app_nil_r. split; [done|constructor].
Qed.

(** X11. [handleExecError] returns its argument unless an exit error with a
    non-empty standard error is on its chain; then it returns a new error
    whose message is the old message, [", stderr "] and that output.  In both
    cases the argument stays on the chain of the result, and the result
    holds the same exit error. *)
Theorem handleExecError_appends_stderr (err : error) :
  (handleExecError err <> err <->
     exists Stderr, errors_As_ExitError err = Some Stderr /\ Stderr <> "")
  /\ (forall Stderr, errors_As_ExitError err = Some Stderr -> Stderr <> "" ->
        Error (handleExecError err) = Error err +:+ ", stderr " +:+ Stderr)
  /\ on_chain err (handleExecError err)
  /\ errors_As_ExitError (handleExecError err) = errors_As_ExitError err.
Proof.
  unfold handleExecError.
  destruct (errors_As_ExitError err) as [Stderr|] eqn:HAs.
  - destruct (decide (0 < String.length Stderr)%nat) as [Hlen|Hlen].
    + assert (Stderr <> "") as Hne by (intros ->; simpl in Hlen; lia).
      split_and!.
      * split; [eauto|]. intros _. apply fmt_Errorf_fresh.
      * by intros ? [= <-] _.
      * constructor. constructor.
      * done.
    + assert (Stderr = "") as -> by (destruct Stderr; [done|simpl in Hlen; lia]).
      split_and!; [|by intros ? [= <-] ?|constructor|done].
      split; [done|]. by intros (? & [= <-] & ?).
  - split_and!; [|done|constructor|done].
    split; [done|]. by intros (? & ? & _).
Qed.

Section EntryPointFacts.
Context `{MapOrder} `{Outside}.

(** ** Options *)

Lemma apply_WithRootModule (modules : list string) (p : CoverageParser) :
  coverParser (foldl (fun parser opt => opt parser) p (WithRootModule <$> modules))
  = coverParser p
  /\ funcParser (foldl (fun parser opt => opt parser) p (WithRootModule <$> modules))
     = funcParser p.
Proof.
  revert p. induction modules as [|m modules IH]; intros p; [done|].
  rewrite fmap_cons. cbn [foldl]. by destruct (IH (WithRootModule m p)) as [-> ->].
Qed.

Lemma Stats_parsers (p q : CoverageParser) coverProfile fnProfile w :
  coverParser p = coverParser q -> funcParser p = funcParser q ->
  CoverageParser_Stats p coverProfile fnProfile w
  = CoverageParser_Stats q coverProfile fnProfile w.
Proof. unfold CoverageParser_Stats. by intros -> ->. Qed.

Lemma Stats_WithRootModule (modules : list string) coverProfile fnProfile w :
  CoverageParser_Stats (NewCoverageParser (WithRootModule <$> modules)) coverProfile fnProfile w
  = CoverageParser_Stats (NewCoverageParser []) coverProfile fnProfile w.
Proof.
  unfold NewCoverageParser. cbn [foldl].
  apply Stats_parsers; [apply (proj1 (apply_WithRootModule _ _))|
                        apply (proj2 (apply_WithRootModule _ _))].
Qed.

(** X12. [WithRootModule] changes nothing that [Cover] or [CoverFromReaders]
    returns or does: the module it stores is never read, so with any number
    of these options the outcome and the calls made are those without
    options. *)
Theorem WithRootModule_has_no_effect (modules : list string) :
  (forall coverProfile fnProfile w,
     CoverFromReaders coverProfile fnProfile (WithRootModule <$> modules) w
     = CoverFromReaders coverProfile fnProfile [] w)
  /\ (forall coverProfile w,
        Cover coverProfile (WithRootModule <$> modules) w = Cover coverProfile [] w).
Proof.
  split.
  - intros [r|] [f|] w; simpl; try done. apply Stats_WithRootModule.
  - intros coverProfile w. unfold Cover.
    destruct (os_ReadFile coverProfile w) as [w1 [err|covOut]]; [done|].
    destruct (runFuncCover coverProfile w1) as [w2 [err|fnOut]]; [done|].
    apply Stats_WithRootModule.
Qed.

(** ** Failures *)

(** X13. When the cover profile cannot be parsed, [CoverFromReaders] with the
    default parsers wraps the parser's error twice, so that the message
    holds the text "couldn't parse cover profile: " two times before the
    parser's own message; the function profile is not read. *)
Theorem cover_profile_error_is_wrapped_twice (modules : list string)
    (coverProfile fnProfile : Reader) (w w' : World) (err : error) :
  cover_ParseProfilesFromReader (Some coverProfile) w = (w', inl err) ->
  exists e,
    CoverFromReaders (Some coverProfile) (Some fnProfile) (WithRootModule <$> modules) w
    = (w', Err e)
    /\ Error e
       = "couldn't parse cover profile: couldn't parse cover profile: " +:+ Error err
    /\ on_chain err e.
Proof.
  intros Hparse. simpl. rewrite Stats_WithRootModule.
  unfold CoverageParser_Stats, NewCoverageParser. simpl. rewrite Hparse.
  eexists. split; [done|]. split.
  - simpl. by rewrite !string_app_nil_r.
  - do 2 constructor. constructor.
Qed.

(** X14. When the [go] tool fails, [Cover] returns an error that holds the
    tool's error on its chain and whose message is "couldn't get function
    coverage: ", the tool's message and, if the tool exited with output on
    its standard error, [", stderr "] and that output.  The tool is run as
    [$GOROOT/bin/go tool cover -func=<profile>] after the profile was read,
    and no parser is called. *)
Theorem Cover_reports_tool_failure (coverProfile : string) (opts : list CoverOpt)
    (w w1 w2 : World) (covOut : string) (err : error) :
  os_ReadFile coverProfile w = (w1, inr covOut) ->
  cmd_Output (filepath_Join runtime_GOROOT "bin/go")
             ["tool"; "cover"; "-func=" +:+ coverProfile] w1 = (w2, inl err) ->
  exists e,
    Cover coverProfile opts w = (w2, Err e)
    /\ on_chain err e
    /\ Error e
       = "couldn't get function coverage: " +:+ Error err +:+
         match errors_As_ExitError err with
         | Some Stderr => if decide (Stderr = "") then "" else ", stderr " +:+ Stderr
         | None => ""
         end.
Proof.
  intros Hread Hcmd. unfold Cover, runFuncCover. rewrite Hread, Hcmd.
  eexists. split; [done|].
  destruct (handleExecError_message err) as (Hmsg & Hchain).
  split; [by constructor|].
  simpl. by rewrite string_app_nil_r, Hmsg.
Qed.

End EntryPointFacts.

Section EntryPointReports.
Context `{MapOrder} `{Outside}.

(** X15. [Cover] is [CoverFromReaders] on the contents of the profile and on
    the output of [$GOROOT/bin/go tool cover -func=<profile>], the file being
    read before the tool is run. *)
Theorem Cover_is_CoverFromReaders (coverProfile : string) (opts : list CoverOpt)
    (w w1 w2 : World) (covOut fnOut : string) :
  os_ReadFile coverProfile w = (w1, inr covOut) ->
  cmd_Output (filepath_Join runtime_GOROOT "bin/go")
             ["tool"; "cover"; "-func=" +:+ coverProfile] w1 = (w2, inr fnOut) ->
  Cover coverProfile opts w
  = CoverFromReaders (Some (bytes_NewBuffer covOut)) (Some (bytes_NewBuffer fnOut)) opts w2.
Proof.
  intros Hread Hcmd. unfold Cover, runFuncCover. by rewrite Hread, Hcmd.
Qed.

Lemma Stats_default_Ok coverProfile fnProfile w w' cov :
  CoverageParser_Stats (NewCoverageParser []) coverProfile fnProfile w = (w', Ok cov) ->
  exists w1 profs output,
    cover_ParseProfilesFromReader coverProfile w = (w1, inr profs)
    /\ gofunc_Read fnProfile w1 = (w', inr output)
    /\ newCoverage (gocover_ByPackage profs) (gofunc_ByPackage output) = Some cov.
Proof.
  unfold CoverageParser_Stats, NewCoverageParser. cbn [foldl coverParser funcParser].
  destruct (cover_ParseProfilesFromReader coverProfile w) as [w1 [err|profs]]; [done|].
  destruct (gofunc_Read fnProfile w1) as [w2 [err|output]] eqn:Hread; [done|].
  destruct (newCoverage _ _) as [c|] eqn:Hc; [|done].
  intros [= <- <-]. exists w1, profs, output. by rewrite Hread.
Qed.

(** X16. A report that [CoverFromReaders] returns with the default parsers
    is the aggregation of what the two parsers returned, the cover profile
    being parsed first and both readers being non-nil.  So its packages have
    pairwise distinct names, each the name of a parsed statement-side
    package, and its percentage is [percent] of the summed package counts. *)
Theorem CoverFromReaders_report (modules : list string)
    (coverProfile fnProfile : option Reader) (w w' : World) (cov : Coverage.t) :
  CoverFromReaders coverProfile fnProfile (WithRootModule <$> modules) w = (w', Ok cov) ->
  exists w1 profs output,
    is_Some coverProfile /\ is_Some fnProfile
    /\ cover_ParseProfilesFromReader coverProfile w = (w1, inr profs)
    /\ gofunc_Read fnProfile w1 = (w', inr output)
    /\ newCoverage (gocover_ByPackage profs) (gofunc_ByPackage output) = Some cov
    /\ NoDup (PackageCoverage.Name <$> Coverage.Packages cov)
    /\ (forall pc, pc ∈ Coverage.Packages cov ->
          PackageCoverage.Name pc
          ∈ gocover.PackageStatements.Package <$> gocover_ByPackage profs)
    /\ Coverage.Percent cov
       = percent
           (sum64 (gocover.PackageStatements.CoveredStmts <$> gocover_ByPackage profs))
           (sum64 (gocover.PackageStatements.Stmts <$> gocover_ByPackage profs)).
Proof.
  destruct coverProfile as [r|]; [|done]. destruct fnProfile as [f|]; [|done].
  cbn [CoverFromReaders]. rewrite Stats_WithRootModule.
  intros (w1 & profs & output & Hparse & Hread & Hcov)%Stats_default_Ok.
  exists w1, profs, output. split_and!; try done.
  - by eapply newCoverage_NoDup.
  - intros pc (s & Hs & _)%(newCoverage_package _ _ _ _ Hcov).
    apply last_named_Some in Hs as [Hin <-]. by apply list_elem_of_fmap_2.
  - by destruct (newCoverage_Some _ _ _ Hcov) as (_ & _ & -> & _).
Qed.

(** X17. When both parsers return their values and every function name in
    the parsed function data is non-empty, [CoverFromReaders] with the
    default parsers returns a report, the aggregation of the two values:
    the aggregation does not panic. *)
Theorem CoverFromReaders_returns_report (modules : list string)
    (coverProfile fnProfile : Reader) (w w1 w' : World)
    (profs : Profiles) (output : FuncOutput) :
  cover_ParseProfilesFromReader (Some coverProfile) w = (w1, inr profs) ->
  gofunc_Read (Some fnProfile) w1 = (w', inr output) ->
  Forall names_ok (gofunc_ByPackage output) ->
  exists cov,
    CoverFromReaders (Some coverProfile) (Some fnProfile) (WithRootModule <$> modules) w
    = (w', Ok cov)
    /\ newCoverage (gocover_ByPackage profs) (gofunc_ByPackage output) = Some cov.
Proof.
  intros Hparse Hread Hok.
  destruct (newCoverage_total (gocover_ByPackage profs) _ Hok) as [cov Hcov].
  exists cov. split; [|done].
  cbn [CoverFromReaders]. rewrite Stats_WithRootModule.
  unfold CoverageParser_Stats, NewCoverageParser. cbn [foldl coverParser funcParser].
  by rewrite Hparse, Hread, Hcov.
Qed.

(** X18. The errors of [CoverFromReaders] with the default parsers, in the
    order they are looked for: a nil cover profile, then a nil function
    profile, both before anything is read; then a cover profile that does not
    parse, the function profile being left unread; then a function profile
    that does not parse. *)
Theorem CoverFromReaders_errors (modules : list string)
    (coverProfile fnProfile : option Reader) (w w' : World) (e : error) :
  CoverFromReaders coverProfile fnProfile (WithRootModule <$> modules) w = (w', Err e) ->
  (coverProfile = None /\ w' = w /\ e = errors_New "cover profile must not be nil")
  \/ (is_Some coverProfile /\ fnProfile = None /\ w' = w
      /\ e = errors_New "function profile must not be nil")
  \/ (is_Some coverProfile /\ is_Some fnProfile
      /\ exists err,
           cover_ParseProfilesFromReader coverProfile w = (w', inl err)
           /\ on_chain err e
           /\ Error e
              = "couldn't parse cover profile: couldn't parse cover profile: "
                +:+ Error err)
  \/ (is_Some coverProfile /\ is_Some fnProfile
      /\ exists w1 profs err,
           cover_ParseProfilesFromReader coverProfile w = (w1, inr profs)
           /\ gofunc_Read fnProfile w1 = (w', inl err)
           /\ on_chain err e
           /\ Error e = "couldn't parse func profile: " +:+ Error err).
Proof.
  destruct coverProfile as [r|]; [|intros [= <- <-]; by left].
  destruct fnProfile as [f|]; [|intros [= <- <-]; right; left; eauto].
  cbn [CoverFromReaders]. rewrite Stats_WithRootModule.
  unfold CoverageParser_Stats, NewCoverageParser. cbn [foldl coverParser funcParser].
  destruct (cover_ParseProfilesFromReader (Some r) w) as [w1 [err|profs]].
  - intros [= <- <-]. right. right. left. split_and!; [eauto|eauto|].
    exists err. split_and!; [done|do 2 constructor; constructor|].
    cbn [Error]. by rewrite !string_app_nil_r.
  - destruct (gofunc_Read (Some f) w1) as [w2 [err|output]] eqn:Hread.
    + intros [= <- <-]. right. right. right. split_and!; [eauto|eauto|].
      exists w1, profs, err. split_and!; [done|done|do 2 constructor|].
      cbn [Error]. by rewrite string_app_nil_r.
    + by destruct (newCoverage _ _).
Qed.

(** ** Test runs *)

(** X19. The errors of [Tests]: a failure to read the file comes back wrapped,
    with "couldn't read file: " before its message, and nothing is parsed;
    an error of the event parser or of [parseTestOutputs] comes back as it
    is. *)
Theorem Tests_errors (outFile : string) (w w' : World) (e : error) :
  Tests outFile w = (w', inl e) ->
  (exists err, os_ReadFile outFile w = (w', inl err)
               /\ Error e = "couldn't read file: " +:+ Error err
               /\ on_chain err e)
  \/ (exists w1 b, os_ReadFile outFile w = (w1, inr b)
        /\ TestsFromReader (Some (bytes_NewBuffer b)) w1 = (w', inl e)
        /\ (gotest_ReadJSON (Some (bytes_NewBuffer b)) w1 = (w', inl e)
            \/ exists out, gotest_ReadJSON (Some (bytes_NewBuffer b)) w1 = (w', inr out)
                           /\ parseTestOutputs out = inl e)).
Proof.
  unfold Tests, TestsFromReader, TestParser_Stats, NewTestParser. cbn [testParser].
  destruct (os_ReadFile outFile w) as [w1 [err|b]].
  - intros [= <- <-]. left. exists err. split_and!; [done| |by do 2 constructor].
    cbn [Error]. by rewrite string_app_nil_r.
  - intros Hstats. right. exists w1, b. split_and!; [done|done|].
    destruct (gotest_ReadJSON (Some (bytes_NewBuffer b)) w1) as [w2 [err|out]].
    + left. by injection Hstats as <- <-.
    + right. exists out. by injection Hstats as <- ->.
Qed.

End EntryPointReports.

(** ** Instances in the sample world *)

Lemma cover_profile_error_is_wrapped_twice_witness :
  exists e,
    @CoverFromReaders forward_order journal_outside (Some "garbage") (Some "total:")
      (@WithRootModule journal_outside <$> ["example.com/m"]) []
    = (["cover.ParseProfilesFromReader"], Err e)
    /\ Error e
       = "couldn't parse cover profile: couldn't parse cover profile: "
         +:+ Error (errors_New "bad mode line")
    /\ on_chain (errors_New "bad mode line") e.
Proof.
  apply (@cover_profile_error_is_wrapped_twice forward_order journal_outside
           ["example.com/m"] "garbage" "total:" []).
  reflexivity.
Defined.

Lemma Cover_reports_tool_failure_witness :
  exists e,
    @Cover forward_order journal_outside "broken.out" [] []
    = (["os.ReadFile broken.out"; "/usr/local/go/bin/go"], Err e)
    /\ on_chain (ExitError "exit status 1" "cover: bad mode line") e
    /\ Error e
       = "couldn't get function coverage: exit status 1, stderr cover: bad mode line".
Proof.
  apply (@Cover_reports_tool_failure forward_order journal_outside "broken.out" [] []
           ["os.ReadFile broken.out"] ["os.ReadFile broken.out"; "/usr/local/go/bin/go"]
           "garbage" (ExitError "exit status 1" "cover: bad mode line"));
    reflexivity.
Defined.

Lemma Cover_is_CoverFromReaders_witness :
  @Cover forward_order journal_outside "cover.out" [] []
  = @CoverFromReaders forward_order journal_outside (Some "mode: set") (Some "total:") []
      ["os.ReadFile cover.out"; "/usr/local/go/bin/go"].
Proof.
  apply (@Cover_is_CoverFromReaders forward_order journal_outside "cover.out" [] []
           ["os.ReadFile cover.out"] ["os.ReadFile cover.out"; "/usr/local/go/bin/go"]
           "mode: set" "total:");
    reflexivity.
Defined.

Lemma CoverFromReaders_report_witness :
  NoDup (PackageCoverage.Name <$> Coverage.Packages reportAB)
  /\ Coverage.Percent reportAB = 53.3%float.
Proof.
  destruct (@CoverFromReaders_report forward_order journal_outside [] (Some "mode: set")
              (Some "total:") [] ["cover.ParseProfilesFromReader"; "gofunc.Read"] reportAB)
    as (w1 & profs & output & _ & _ & Hparse & _ & _ & Hnd & _ & Hpct).
  - vm_compute. reflexivity.
  - split; [exact Hnd|]. vm_compute. reflexivity.
Defined.

Lemma CoverFromReaders_returns_report_witness :
  exists cov,
    @CoverFromReaders forward_order journal_outside (Some "mode: set") (Some "total:") [] []
    = (["cover.ParseProfilesFromReader"; "gofunc.Read"], Ok cov)
    /\ @newCoverage forward_order [pkgA; pkgB] [fnB; fnC] = Some cov.
Proof.
  apply (@CoverFromReaders_returns_report forward_order journal_outside []
           "mode: set" "total:" [] ["cover.ParseProfilesFromReader"]
           ["cover.ParseProfilesFromReader"; "gofunc.Read"] [pkgA; pkgB] [fnB; fnC]).
  - reflexivity.
  - reflexivity.
  - repeat constructor; intros name file Hfile; simpl in Hfile;
      apply lookup_insert_Some in Hfile as [[_ <-]|[_ Hfile]];
      try (by rewrite lookup_empty in Hfile);
      repeat constructor; simpl; discriminate.
Defined.

(** The condition on the names is needed: a profile with a nameless function
    of a matched file makes the aggregation panic. *)
Lemma CoverFromReaders_nameless_panics :
  (@CoverFromReaders forward_order journal_outside (Some "mode: set") (Some "nameless") [] []).2
  = Panic.
Proof. vm_compute. reflexivity. Qed.

Lemma Tests_errors_witness :
  exists e,
    @Tests journal_outside "missing.json" [] = (["os.ReadFile missing.json"], inl e)
    /\ Error e = "couldn't read file: open missing.json: no such file or directory".
Proof.
  exists (fmt_Errorf "couldn't read file: "
            (errors_New "open missing.json: no such file or directory") "").
  split; [reflexivity|].
  destruct (@Tests_errors journal_outside "missing.json" [] ["os.ReadFile missing.json"]
              (fmt_Errorf "couldn't read file: "
                 (errors_New "open missing.json: no such file or directory") ""))
    as [(err & Hread & Hmsg & _)|(w1 & b & Hread & _)].
  - reflexivity.
  - vm_compute in Hread. injection Hread as <-. exact Hmsg.
  - vm_compute in Hread. discriminate Hread.
Defined.

Lemma CoverFromReaders_errors_witness :
  exists e,
    @CoverFromReaders forward_order journal_outside (Some "mode: set") (Some "garbage") [] []
    = (["cover.ParseProfilesFromReader"; "gofunc.Read"], Err e)
    /\ Error e = "couldn't parse func profile: no total line".
Proof.
  exists (fmt_Errorf "couldn't parse func profile: " (errors_New "no total line") "").
  split; [reflexivity|].
  destruct (@CoverFromReaders_errors forward_order journal_outside [] (Some "mode: set")
              (Some "garbage") [] ["cover.ParseProfilesFromReader"; "gofunc.Read"]
              (fmt_Errorf "couldn't parse func profile: " (errors_New "no total line") ""))
    as [(Hnil & _)|[(_ & Hnil & _)|[(_ & _ & err & Hparse & _)|
        (_ & _ & w1 & profs & err & Hparse & Hread & _ & Hmsg)]]].
  - reflexivity.
  - discriminate Hnil.
  - discriminate Hnil.
  - vm_compute in Hparse. discriminate Hparse.
  - vm_compute in Hparse. injection Hparse as <- _. vm_compute in Hread.
    injection Hread as <-. exact Hmsg.
Defined.

(** ** Rounding is monotone *)

Lemma rne_scale (N D k : Z) : 0 < D -> 0 < k -> rne (N * k) (D * k) = rne N D.
Proof.
  intros HD Hk. unfold rne.
  rewrite Z.div_mul_cancel_r by lia.
  rewrite Z.mul_mod_distr_r by lia.
  replace (2 * (N mod D * k)) with (2 * (N mod D) * k) by lia.
  generalize (N / D) (N mod D). intros q r.
  destruct (Z.compare_spec (2 * r * k) (D * k)), (Z.compare_spec (2 * r) D); try done; nia.
Qed.

Lemma rne_window (N D n : Z) :
  0 < D -> 0 <= n -> 2 ^ (52 + n) * D <= N < 2 ^ (53 + n) * D ->
  2 ^ 52 <= rne N (D * 2 ^ n) <= 2 ^ 53.
Proof.
  intros HD Hn. rewrite !Z.pow_add_r by lia. intros HN.
  assert (0 < 2 ^ n) by (apply Z.pow_pos_nonneg; lia).
  split; [apply rne_ge|apply rne_le]; nia.
Qed.

(** Two numbers [N1 / D * 2^e1 <= N2 / D * 2^e2], of [53 + n1] and [53 + n2]
    bits before the point, stay in this order when each is rounded to 53
    bits.  [B] makes the exponents non-negative. *)
Lemma rounding_mono (N1 N2 D e1 e2 n1 n2 B : Z) :
  0 < D -> 0 <= n1 -> 0 <= n2 -> 0 <= e1 + B -> 0 <= e2 + B ->
  2 ^ (52 + n1) * D <= N1 < 2 ^ (53 + n1) * D ->
  2 ^ (52 + n2) * D <= N2 < 2 ^ (53 + n2) * D ->
  N1 * 2 ^ (e1 + B) <= N2 * 2 ^ (e2 + B) ->
  rne N1 (D * 2 ^ n1) * 2 ^ (e1 + n1 + B) <= rne N2 (D * 2 ^ n2) * 2 ^ (e2 + n2 + B).
Proof.
  intros HD Hn1 Hn2 He1 He2 HN1 HN2 Hle.
  pose proof (rne_window N1 D n1 HD Hn1 HN1) as HR1.
  pose proof (rne_window N2 D n2 HD Hn2 HN2) as HR2.
  replace (e1 + n1 + B) with ((e1 + B) + n1) by lia.
  replace (e2 + n2 + B) with ((e2 + B) + n2) by lia.
  revert He1 He2 Hle. generalize (e1 + B) (e2 + B). intros a b Ha Hb Hle.
  rewrite !Z.pow_add_r in HN1, HN2 by lia.
  assert (0 < 2 ^ n1) as HP1 by (apply Z.pow_pos_nonneg; lia).
  assert (0 < 2 ^ n2) as HP2 by (apply Z.pow_pos_nonneg; lia).
  assert (0 < 2 ^ a) as HA by (apply Z.pow_pos_nonneg; lia).
  assert (0 < 2 ^ b) as HB by (apply Z.pow_pos_nonneg; lia).
  assert (0 < 2 ^ (a + n1)) as HG1 by (apply Z.pow_pos_nonneg; lia).
  assert (0 < 2 ^ (b + n2)) as HG2 by (apply Z.pow_pos_nonneg; lia).
  destruct (Z.lt_trichotomy (a + n1) (b + n2)) as [Hlt|[Heq|Hgt]].
  - assert (2 * 2 ^ (a + n1) <= 2 ^ (b + n2)) as Hstep.
    { rewrite <- Z.pow_succ_r by lia. apply Z.pow_le_mono_r; lia. }
    nia.
  - rewrite <- Heq. apply Z.mul_le_mono_nonneg_r; [lia|].
    rewrite <- (rne_scale N1 (D * 2 ^ n1) (2 ^ n2)) by nia.
    rewrite <- (rne_scale N2 (D * 2 ^ n2) (2 ^ n1)) by nia.
    replace (D * 2 ^ n2 * 2 ^ n1) with (D * 2 ^ n1 * 2 ^ n2) by lia.
    apply rne_mono; [nia|].
    assert (2 ^ a * 2 ^ n1 = 2 ^ b * 2 ^ n2) as HG by (rewrite <- !Z.pow_add_r by lia; by f_equal).
    apply (Z.mul_le_mono_pos_r _ _ (2 ^ a * 2 ^ n1)); [nia|].
    rewrite HG at 2.
    replace (N1 * 2 ^ n2 * (2 ^ a * 2 ^ n1)) with (N1 * 2 ^ a * (2 ^ n1 * 2 ^ n2)) by lia.
    replace (N2 * 2 ^ n1 * (2 ^ b * 2 ^ n2)) with (N2 * 2 ^ b * (2 ^ n1 * 2 ^ n2)) by lia.
    apply Z.mul_le_mono_nonneg_r; [nia|done].
  - exfalso.
    assert (2 * 2 ^ (b + n2) <= 2 ^ (a + n1)) as Hstep.
    { rewrite <- Z.pow_succ_r by lia. apply Z.pow_le_mono_r; lia. }
    rewrite !Z.pow_add_r in Hstep by lia.
    assert (2 ^ 52 * D * (2 ^ a * 2 ^ n1) <= N1 * 2 ^ a) as H1 by nia.
    assert (N2 * 2 ^ b < 2 ^ 53 * D * (2 ^ b * 2 ^ n2)) as H2 by nia.
    assert (2 ^ 53 * D * (2 ^ b * 2 ^ n2) <= 2 ^ 52 * D * (2 ^ a * 2 ^ n1)) as H3 by nia.
    lia.
Qed.

Lemma finish_value (s : bool) (R g B : Z) (m : positive) (e : Z) :
  2 ^ 52 <= R <= 2 ^ 53 -> -1074 <= g <= 970 -> 0 <= g + B ->
  finish s R g = S754_finite s m e ->
  g <= e <= g + 1 /\ Z.pos m * 2 ^ (e + B) = R * 2 ^ (g + B).
Proof.
  intros HR Hg HB Hfin.
  destruct (finish_rounded s R g HR Hg) as (m' & e' & Hfin' & _ & He' & Hval).
  rewrite Hfin in Hfin'. injection Hfin' as <- <-. split; [done|].
  rewrite <- Hval. replace (e + B) with ((e - g) + (g + B)) by lia.
  rewrite Z.pow_add_r by lia. lia.
Qed.

(** ** The steps of [percent], exactly *)

Lemma SFdiv_normal (sx sy : bool) (mx my : positive) (ex ey : Z) :
  2 ^ 52 <= Z.pos mx < 2 ^ 53 -> 2 ^ 52 <= Z.pos my < 2 ^ 53 ->
  -52 <= ex <= 11 -> -52 <= ey <= 11 ->
  exists n,
    0 <= n <= 1
    /\ 2 ^ (52 + n) * Z.pos my <= Z.pos mx * 2 ^ 53 < 2 ^ (53 + n) * Z.pos my
    /\ SFdiv prec emax (S754_finite sx mx ex) (S754_finite sy my ey)
       = finish (xorb sx sy) (rne (Z.pos mx * 2 ^ 53) (Z.pos my * 2 ^ n)) (ex - ey - 53 + n).
Proof.
  intros Hmx Hmy Hex Hey.
  unfold SFdiv, SFdiv_core_binary.
  rewrite (Zdigits2_unique (Z.pos mx) 53), (Zdigits2_unique (Z.pos my) 53) by (simpl; lia).
  rewrite fexp_normal by lia.
  replace (Z.min (53 + ex - (53 + ey) - 53) (ex - ey)) with (ex - ey - 53) by lia.
  replace (ex - ey - (ex - ey - 53)) with 53 by lia.
  rewrite Z.shiftl_mul_pow2 by lia.
  set (N := Z.pos mx * 2 ^ 53). set (D := Z.pos my). set (e' := ex - ey - 53).
  assert (Z.div_eucl N D = (N / D, N mod D)) as ->.
  { unfold Z.div, Z.modulo. by destruct (Z.div_eucl N D). }
  assert (0 <= N) as HN by (unfold N; lia).
  assert (0 < D) as HD by (unfold D; lia).
  assert (2 ^ 52 <= N / D) as Hqlo.
  { apply Z.div_le_lower_bound; [done|]. unfold N, D. lia. }
  assert (N / D < 2 ^ 54) as Hqhi.
  { apply Z.div_lt_upper_bound; [done|]. unfold N, D. lia. }
  set (n := Zdigits2 (N / D) - 53).
  assert (n = 0 \/ n = 1) as Hn.
  { destruct (Z.lt_ge_cases (N / D) (2 ^ 53)) as [Hlt|Hge].
    - left. unfold n. rewrite (Zdigits2_unique (N / D) 53); [done|simpl; lia|lia].
    - right. unfold n. rewrite (Zdigits2_unique (N / D) 54); [done|simpl; lia|lia]. }
  assert (2 ^ (52 + n) <= N / D < 2 ^ (53 + n)) as Hq.
  { pose proof (Zdigits2_bounds (N / D) ltac:(lia)) as Hb.
    replace (Zdigits2 (N / D)) with (53 + n) in Hb by (unfold n; lia).
    replace (53 + n - 1) with (52 + n) in Hb by lia. done. }
  assert (fexp prec emax (Zdigits2 (N / D) + e') = e' + n) as Hfexp.
  { rewrite fexp_normal by (unfold e', n in *; lia). unfold n. lia. }
  rewrite (binary_round_aux_rne (xorb sx sy) (N / D) e' _ N D HN HD
             (new_location_rep N D HN HD)); [|rewrite Hfexp; lia].
  rewrite Hfexp. replace (e' + n - e') with n by lia.
  exists n. split_and!; [lia|lia| | |done].
  - pose proof (Z.mul_div_le N D HD). nia.
  - pose proof (Z.div_mod N D ltac:(lia)) as Hdm.
    pose proof (Z.mod_pos_bound N D HD) as Hrem. nia.
Qed.

Lemma SFmul_1000_normal (mq : positive) (eq : Z) :
  2 ^ 52 <= Z.pos mq < 2 ^ 53 -> -116 <= eq <= -52 ->
  exists n,
    52 <= n <= 53
    /\ 2 ^ (52 + n) * 1 <= Z.pos mq * (1000 * 2 ^ 43) < 2 ^ (53 + n) * 1
    /\ SFmul prec emax (S754_finite false mq eq) (Prim2SF 1000)
       = finish false (rne (Z.pos mq * (1000 * 2 ^ 43)) (1 * 2 ^ n)) (eq - 43 + n).
Proof.
  intros Hmq Heq.
  change (Prim2SF 1000) with (S754_finite false 8796093022208000 (-43)).
  unfold SFmul. simpl xorb. rewrite Pos2Z.inj_mul.
  change (Z.pos 8796093022208000) with (1000 * 2 ^ 43).
  set (N := Z.pos mq * (1000 * 2 ^ 43)). set (e0 := eq + -43).
  assert (2 ^ 104 <= N < 2 ^ 106) as HNb by (unfold N; simpl in *; lia).
  set (n := Zdigits2 N - 53).
  assert (n = 52 \/ n = 53) as Hn.
  { destruct (Z.lt_ge_cases N (2 ^ 105)) as [Hlt|Hge].
    - left. unfold n. rewrite (Zdigits2_unique N 105); [done|simpl; lia|lia].
    - right. unfold n. rewrite (Zdigits2_unique N 106); [done|simpl; lia|lia]. }
  assert (2 ^ (52 + n) <= N < 2 ^ (53 + n)) as HNn.
  { pose proof (Zdigits2_bounds N ltac:(lia)) as Hb.
    replace (Zdigits2 N) with (53 + n) in Hb by (unfold n; lia).
    replace (53 + n - 1) with (52 + n) in Hb by lia. done. }
  assert (fexp prec emax (Zdigits2 N + e0) = e0 + n) as Hfexp.
  { rewrite fexp_normal by (unfold e0, n in *; lia). unfold n. lia. }
  rewrite (binary_round_aux_rne false N e0 loc_Exact N 1 ltac:(lia) ltac:(lia)
             (shr_rep_exact N)); [|rewrite Hfexp; lia].
  rewrite Hfexp. replace (e0 + n - e0) with n by lia.
  exists n. split_and!; [lia|lia|lia|lia|reflexivity].
Qed.

(** [math.Round] of [mp * 2^ep], as the floor of the value plus a half. *)
Lemma Round_value (p : float) (mp : positive) (ep : Z) :
  Prim2SF p = S754_finite false mp ep -> -243 <= ep < 0 ->
  Z.pos mp <= 1000 * 2 ^ (- ep) ->
  0 <= (2 * (Z.pos mp * 2 ^ (ep + 243)) + 2 ^ 243) / 2 ^ 244 <= 1000
  /\ Round p = float_of_int64 ((2 * (Z.pos mp * 2 ^ (ep + 243)) + 2 ^ 243) / 2 ^ 244).
Proof.
  intros Hp Hep Hle. unfold Round. rewrite Hp.
  destruct (Z.leb_spec 0 ep) as [|_]; [lia|].
  assert (0 < 2 ^ (- ep)) as Hd by (apply Z.pow_pos_nonneg; lia).
  assert (0 < 2 ^ (ep + 243)) as HK by (apply Z.pow_pos_nonneg; lia).
  assert (2 ^ (- ep) * 2 ^ (ep + 243) = 2 ^ 243) as HT.
  { rewrite <- Z.pow_add_r by lia. f_equal. lia. }
  pose proof (Z.div_mod (Z.pos mp) (2 ^ (- ep)) ltac:(lia)) as Hdm.
  pose proof (Z.mod_pos_bound (Z.pos mp) (2 ^ (- ep)) Hd) as Hrem.
  revert Hdm Hrem. generalize (Z.pos mp / 2 ^ (- ep)) (Z.pos mp mod 2 ^ (- ep)).
  intros q r Hdm Hrem.
  assert (0 <= q <= 1000) as Hq by nia.
  set (k := if 2 ^ (- ep) <=? 2 * r then q + 1 else q).
  assert (0 <= k <= 1000) as Hk.
  { unfold k. destruct (Z.leb_spec (2 ^ (- ep)) (2 * r)); [|lia]. nia. }
  assert ((2 * (Z.pos mp * 2 ^ (ep + 243)) + 2 ^ 243) / 2 ^ 244 = k) as ->.
  { unfold k. revert Hd HK HT Hdm Hrem. generalize (2 ^ (- ep)) (2 ^ (ep + 243)) (Z.pos mp).
    intros d K m Hd HK HT Hdm Hrem. subst m.
    change (2 ^ 244) with (2 * 2 ^ 243). revert HT. generalize (2 ^ 243). intros T HT.
    replace (2 * ((d * q + r) * K) + T) with (2 * (q * (d * K)) + 2 * (r * K) + T) by ring.
    assert (r * K < T) as HrK by nia.
    assert (0 <= r * K) as HrK0 by nia.
    rewrite HT. destruct (Z.leb_spec d (2 * r)) as [Hge|Hlt].
    - assert (T <= 2 * (r * K)) by nia.
      symmetry. apply (Z.div_unique_pos _ _ _ (2 * (r * K) - T)); lia.
    - assert (2 * (r * K) < T) by nia.
      symmetry. apply (Z.div_unique_pos _ _ _ (2 * (r * K) + T)); lia. }
  split; [done|]. unfold float_of_int64, int64_min.
  destruct (Z.eqb_spec k (- 2 ^ 63)); [lia|].
  destruct (Z.ltb_spec k 0); [lia|done].
Qed.

(** ** [percent] as a function of the covered count *)

(** The product that [math.Round] receives, for two covered counts of the
    same total: both are below 1000 and in the order of the counts. *)
Lemma scaled_quotient_mono (c1 c2 t : Z) :
  1 <= c1 <= c2 -> c2 <= t -> t <= int64_max ->
  exists mp1 ep1 mp2 ep2,
    Prim2SF (float_of_int64 c1 / float_of_int64 t * 1000) = S754_finite false mp1 ep1
    /\ Prim2SF (float_of_int64 c2 / float_of_int64 t * 1000) = S754_finite false mp2 ep2
    /\ -243 <= ep1 < 0 /\ -243 <= ep2 < 0
    /\ Z.pos mp1 <= 1000 * 2 ^ (- ep1) /\ Z.pos mp2 <= 1000 * 2 ^ (- ep2)
    /\ Z.pos mp1 * 2 ^ (ep1 + 243) <= Z.pos mp2 * 2 ^ (ep2 + 243).
Proof.
  intros Hc1 Hc2 Ht.
  destruct (float_of_int64_pos t ltac:(lia)) as (my & ey & Hy & Hmy & Hey & Hvy).
  destruct (float_of_int64_pos c1 ltac:(lia)) as (mx1 & ex1 & Hx1 & Hmx1 & Hex1 & Hvx1).
  destruct (float_of_int64_pos c2 ltac:(lia)) as (mx2 & ex2 & Hx2 & Hmx2 & Hex2 & Hvx2).
  assert (Z.pos mx1 * 2 ^ (ex1 + 52) <= Z.pos mx2 * 2 ^ (ex2 + 52)) as Hx12.
  { rewrite Hvx1, Hvx2. apply Z.mul_le_mono_nonneg_r; [lia|]. apply round53_mono. lia. }
  (* the quotients *)
  destruct (SFdiv_le_one mx1 my ex1 ey Hmx1 Hmy Hex1 Hey)
    as (mq1 & eq1 & Hq1 & Hmq1 & Heq1 & Hqle1).
  { rewrite Hvx1, Hvy. apply Z.mul_le_mono_nonneg_r; [lia|]. apply round53_mono. lia. }
  destruct (SFdiv_le_one mx2 my ex2 ey Hmx2 Hmy Hex2 Hey)
    as (mq2 & eq2 & Hq2 & Hmq2 & Heq2 & Hqle2).
  { rewrite Hvx2, Hvy. apply Z.mul_le_mono_nonneg_r; [lia|]. apply round53_mono. lia. }
  destruct (SFdiv_normal false false mx1 my ex1 ey Hmx1 Hmy Hex1 Hey)
    as (n1 & Hn1 & Hw1 & Hdiv1).
  destruct (SFdiv_normal false false mx2 my ex2 ey Hmx2 Hmy Hex2 Hey)
    as (n2 & Hn2 & Hw2 & Hdiv2).
  rewrite Hq1 in Hdiv1. rewrite Hq2 in Hdiv2. simpl xorb in Hdiv1, Hdiv2.
  symmetry in Hdiv1, Hdiv2.
  apply (finish_value _ _ _ 200) in Hdiv1 as [_ Hval1];
    [|apply rne_window; lia|lia|lia].
  apply (finish_value _ _ _ 200) in Hdiv2 as [_ Hval2];
    [|apply rne_window; lia|lia|lia].
  assert (Z.pos mq1 * 2 ^ (eq1 + 200) <= Z.pos mq2 * 2 ^ (eq2 + 200)) as Hq12.
  { rewrite Hval1, Hval2.
    apply (rounding_mono (Z.pos mx1 * 2 ^ 53) (Z.pos mx2 * 2 ^ 53) (Z.pos my)
             (ex1 - ey - 53) (ex2 - ey - 53) n1 n2 200); try lia.
    replace (ex1 - ey - 53 + 200) with ((ex1 + 52) + (95 - ey)) by lia.
    replace (ex2 - ey - 53 + 200) with ((ex2 + 52) + (95 - ey)) by lia.
    rewrite (Z.pow_add_r 2 (ex1 + 52) (95 - ey)), (Z.pow_add_r 2 (ex2 + 52) (95 - ey)) by lia.
    assert (0 < 2 ^ (95 - ey)) as Hpos by (apply Z.pow_pos_nonneg; lia).
    replace (Z.pos mx1 * 2 ^ 53 * (2 ^ (ex1 + 52) * 2 ^ (95 - ey)))
      with (Z.pos mx1 * 2 ^ (ex1 + 52) * (2 ^ 53 * 2 ^ (95 - ey))) by ring.
    replace (Z.pos mx2 * 2 ^ 53 * (2 ^ (ex2 + 52) * 2 ^ (95 - ey)))
      with (Z.pos mx2 * 2 ^ (ex2 + 52) * (2 ^ 53 * 2 ^ (95 - ey))) by ring.
    apply Z.mul_le_mono_nonneg_r; [lia|done]. }
  (* the products *)
  destruct (SFmul_1000_le mq1 eq1 Hmq1 Heq1 Hqle1) as (mp1 & ep1 & Hp1 & Hep1 & Hple1).
  destruct (SFmul_1000_le mq2 eq2 Hmq2 Heq2 Hqle2) as (mp2 & ep2 & Hp2 & Hep2 & Hple2).
  destruct (SFmul_1000_normal mq1 eq1 Hmq1 Heq1) as (k1 & Hk1 & Hv1 & Hmul1).
  destruct (SFmul_1000_normal mq2 eq2 Hmq2 Heq2) as (k2 & Hk2 & Hv2 & Hmul2).
  rewrite Hp1 in Hmul1. rewrite Hp2 in Hmul2. symmetry in Hmul1, Hmul2.
  apply (finish_value _ _ _ 243) in Hmul1 as [Hge1 Hpv1];
    [|apply rne_window; lia|lia|lia].
  apply (finish_value _ _ _ 243) in Hmul2 as [Hge2 Hpv2];
    [|apply rne_window; lia|lia|lia].
  exists mp1, ep1, mp2, ep2. split_and!; try done; try lia.
  - rewrite mul_spec, div_spec, Hx1, Hy. unfold SF64div, SF64mul. rewrite Hq1. exact Hp1.
  - rewrite mul_spec, div_spec, Hx2, Hy. unfold SF64div, SF64mul. rewrite Hq2. exact Hp2.
  - rewrite Hpv1, Hpv2.
    apply (rounding_mono (Z.pos mq1 * (1000 * 2 ^ 43)) (Z.pos mq2 * (1000 * 2 ^ 43)) 1
             (eq1 - 43) (eq2 - 43) k1 k2 243); try lia.
    replace (eq1 - 43 + 243) with (eq1 + 200) by lia.
    replace (eq2 - 43 + 243) with (eq2 + 200) by lia.
    revert Hq12. generalize (2 ^ (eq1 + 200)) (2 ^ (eq2 + 200)). intros P1 P2 HP.
    replace (Z.pos mq1 * (1000 * 2 ^ 43) * P1) with (Z.pos mq1 * P1 * (1000 * 2 ^ 43)) by ring.
    replace (Z.pos mq2 * (1000 * 2 ^ 43) * P2) with (Z.pos mq2 * P2 * (1000 * 2 ^ 43)) by ring.
    apply Z.mul_le_mono_nonneg_r; [lia|done].
Qed.

Lemma ordered_lookup (l : list float) (i j : nat) (x y : float) :
  ordered l = true -> (i <= j)%nat -> l !! i = Some x -> l !! j = Some y ->
  (x <=? y)%float = true.
Proof.
  revert i j. induction l as [|z l IH]; intros i j Hord Hij Hi Hj; [done|].
  cbn [ordered] in Hord. apply andb_prop in Hord as [Hz Hl].
  destruct i as [|i].
  - injection Hi as <-. rewrite forallb_forall in Hz. apply Hz.
    apply list_elem_of_In. by eapply list_elem_of_lookup_2.
  - destruct j as [|j]; [lia|]. apply (IH i j); [done|lia|done|done].
Qed.

Lemma tenths_ordered (k1 k2 : Z) :
  0 <= k1 <= k2 -> k2 <= 1000 -> (tenths k1 <=? tenths k2)%float = true.
Proof.
  intros Hk1 Hk2.
  assert (ordered (tenths ∘ Z.of_nat <$> seq 0 1001) = true) as Hord
    by (vm_compute; reflexivity).
  apply (ordered_lookup _ (Z.to_nat k1) (Z.to_nat k2) _ _ Hord); [lia| |].
  - rewrite list_lookup_fmap, lookup_seq_lt by lia. simpl. by rewrite Z2Nat.id by lia.
  - rewrite list_lookup_fmap, lookup_seq_lt by lia. simpl. by rewrite Z2Nat.id by lia.
Qed.

(** X20. For a fixed total, [percent] does not decrease when the covered
    count grows: more covered statements never give a smaller percentage. *)
Theorem percent_monotone (c1 c2 t : Z) :
  0 <= c1 <= c2 -> c2 <= t -> t <= int64_max ->
  (percent c1 t <=? percent c2 t)%float = true.
Proof.
  intros Hc1 Hc2 Ht. unfold percent.
  destruct (Z.eqb_spec t 0) as [->|Hne]; [reflexivity|].
  destruct (float_of_int64_pos t ltac:(lia)) as (my & ey & Hy & Hmy & Hey & Hvy).
  assert ((float_of_int64 0 / float_of_int64 t)%float = 0%float) as Hzero.
  { apply Prim2SF_inj. rewrite div_spec, Hy. reflexivity. }
  destruct (decide (c2 = 0)) as [->|Hc20].
  { assert (c1 = 0) as -> by lia. rewrite Hzero. reflexivity. }
  destruct (decide (c1 = 0)) as [->|Hc10].
  - rewrite Hzero.
    destruct (percent_one_decimal c2 t ltac:(lia) Ht) as (k & Hk & Hpct).
    unfold percent in Hpct. destruct (Z.eqb_spec t 0); [lia|]. rewrite Hpct.
    change (Round (0 * 1000) / 10)%float with (tenths 0). apply tenths_ordered; lia.
  - destruct (scaled_quotient_mono c1 c2 t ltac:(lia) Hc2 Ht)
      as (mp1 & ep1 & mp2 & ep2 & Hp1 & Hp2 & Hep1 & Hep2 & Hle1 & Hle2 & Hle).
    destruct (Round_value _ mp1 ep1 Hp1 Hep1 Hle1) as [Hk1 ->].
    destruct (Round_value _ mp2 ep2 Hp2 Hep2 Hle2) as [Hk2 ->].
    apply (tenths_ordered _ _); [split; [lia|]|lia].
    apply Z.div_le_mono; [done|lia].
Qed.

Lemma percent_monotone_witness : (percent 1 3 <=? percent 2 3)%float = true.
Proof. apply (percent_monotone 1 2 3); unfold int64_max; lia. Defined.

(** ** Full coverage *)

Lemma float_of_int64_nonzero (t : Z) :
  is_int64 t -> t <> 0 ->
  exists s m e,
    Prim2SF (float_of_int64 t) = S754_finite s m e
    /\ 2 ^ 52 <= Z.pos m < 2 ^ 53 /\ -52 <= e <= 11.
Proof.
  unfold is_int64, int64_min, int64_max. intros Ht Hne.
  destruct (decide (0 < t)) as [Hpos|Hneg].
  - destruct (float_of_int64_pos t ltac:(unfold int64_max; lia)) as (m & e & Hx & Hm & He & _).
    eauto 10.
  - destruct (decide (t = - 2 ^ 63)) as [->|Hmin].
    + exists true, (Z.to_pos (2 ^ 52)), 11. split_and!; [reflexivity|done|done|lia|lia].
    + destruct (float_of_int64_pos (- t) ltac:(unfold int64_max; lia))
        as (m & e & Hx & Hm & He & _).
      exists true, m, e. split; [|done].
      unfold float_of_int64, int64_min in *.
      destruct (Z.eqb_spec t (- 2 ^ 63)); [lia|].
      destruct (Z.ltb_spec t 0); [|lia].
      destruct (Z.eqb_spec (- t) (- 2 ^ 63)); [lia|].
      destruct (Z.ltb_spec (- t) 0); [lia|].
      by rewrite opp_spec, Hx.
Qed.

(** X21. Full coverage is 100.0 and no coverage is 0.0, for every total:
    [percent t t] is 100.0 for each non-zero [int64] [t], negative ones
    included, and [percent 0 t] is 0.0 for each positive [t]. *)
Theorem percent_full_and_none (t : Z) :
  is_int64 t -> t <> 0 ->
  percent t t = 100%float /\ (0 < t -> percent 0 t = 0%float).
Proof.
  intros Ht Hne. unfold percent. destruct (Z.eqb_spec t 0); [done|]. split.
  - destruct (float_of_int64_nonzero t Ht Hne) as (s & m & e & Hx & Hm & He).
    assert ((float_of_int64 t / float_of_int64 t)%float = 1%float) as ->; [|reflexivity].
    apply Prim2SF_inj. rewrite div_spec, Hx. unfold SF64div.
    destruct (SFdiv_normal s s m m e e Hm Hm He He) as (k & Hk & Hw & ->).
    assert (k = 1) as ->.
    { destruct (decide (k = 0)) as [->|]; [|lia]. change (53 + 0) with 53 in Hw. lia. }
    replace (Z.pos m * 2 ^ 53) with (2 ^ 52 * (Z.pos m * 2 ^ 1)) by lia.
    rewrite <- (Z.mul_1_l (Z.pos m * 2 ^ 1)) at 2.
    rewrite rne_scale, rne_one by lia.
    rewrite finish_normal by lia. replace (e - e - 53 + 1) with (-52) by lia.
    by destruct s.
  - intros Hpos.
    destruct (float_of_int64_pos t ltac:(unfold is_int64 in Ht; lia))
      as (my & ey & Hy & _).
    assert ((float_of_int64 0 / float_of_int64 t)%float = 0%float) as ->; [|reflexivity].
    apply Prim2SF_inj. rewrite div_spec, Hy. reflexivity.
Qed.

Lemma percent_full_and_none_witness :
  percent (-7) (-7) = 100%float /\ (0 < -7 -> percent 0 (-7) = 0%float).
Proof.
  apply (percent_full_and_none (-7)); [|lia].
  unfold is_int64, int64_min, int64_max. lia.
Defined.
